(** * GraphVQA: the edge-conditioned graph attention operator, its layer
      stack and the checkpoint restore helper

    Shallow embedding of [gat_skip.py] (classes [gat] and [gat_seq]) and of
    [optimistic_restore] from [util/pytorch_misc.py].

    Tensors are kept the way torch keeps them: a shape and a flat,
    row-major list of elements.  Floating-point numbers are idealised as
    real numbers.  Python exceptions are an explicit [Raise] result, and
    the mutable module attributes ([_alpha], the batch-norm statistics, the
    random generator behind dropout) are threaded as explicit state. *)

From Stdlib Require Import Reals Lra ZArith Lia.
From stdpp Require Import base option list functions strings gmap sets.

Set Default Proof Using "Type".

(** * Exceptions and the two monads of the development *)

Inductive exn : Type :=
| AssertionError (msg : string)
| RuntimeError
| IndexError
| ValueError.

Inductive result (A : Type) : Type :=
| Ok (a : A)
| Raise (e : exn).
Arguments Ok {A} a.
Arguments Raise {A} e.

#[global] Instance result_ret : MRet result := λ A a, Ok a.
#[global] Instance result_bind : MBind result := λ A B f m,
  match m with Ok a => f a | Raise e => Raise e end.

(** [assert c, msg] *)
Definition assert (c : bool) (msg : string) : result unit :=
  if c then Ok tt else Raise (AssertionError msg).

(** A computation that reads and writes a state [S] and may raise; the state
    reached when the exception was raised is kept, as Python keeps the
    attributes assigned before a [raise]. *)
Definition St (S A : Type) : Type := S → result A * S.

#[global] Instance St_ret {S} : MRet (St S) := λ A a s, (Ok a, s).
#[global] Instance St_bind {S} : MBind (St S) := λ A B f m s,
  match m s with
  | (Ok a, s') => f a s'
  | (Raise e, s') => (Raise e, s')
  end.

(** A computation that only draws from the random generator of type [G]
    and cannot fail. *)
Definition Gen (G A : Type) : Type := G → A * G.

#[global] Instance Gen_ret {G} : MRet (Gen G) := λ A a g, (a, g).
#[global] Instance Gen_bind {G} : MBind (Gen G) := λ A B f m g,
  let '(a, g') := m g in f a g'.

Definition get {S} : St S S := λ s, (Ok s, s).
Definition lift {S A} (r : result A) : St S A := λ s, (r, s).

#[global] Instance Rle_decision (x y : R) : Decision (x <= y)%R := Rle_dec x y.
#[global] Instance Rlt_decision (x y : R) : Decision (x < y)%R := Rlt_dec x y.

(** * The part of torch the sources use

    None of these functions belongs to the repository; each is given with
    the behaviour torch documents for it, in exact arithmetic. *)

Module torch.

(** Sums of reals, as [Tensor.sum] computes them in exact arithmetic. *)
Definition Rsum (l : list R) : R := foldr Rplus 0%R l.

Definition dot (u v : list R) : R := Rsum (zip_with Rmult u v).

Record tensor (A : Type) : Type := Tensor { shape : list nat; data : list A }.
Arguments Tensor {A} shape data.
Arguments shape {A} t.
Arguments data {A} t.

Definition numel (s : list nat) : nat := foldr Nat.mul 1 s.

(** [t.dim()] *)
Definition dim {A} (t : tensor A) : nat := length (shape t).

(** A tensor carries as many elements as its shape announces. *)
Definition wf {A} (t : tensor A) : Prop := length (data t) = numel (shape t).

(** [n] consecutive pieces of width [w]. *)
Fixpoint chunks {A} (n w : nat) (l : list A) : list (list A) :=
  match n with
  | 0 => []
  | S n' => take w l :: chunks n' w (drop w l)
  end.

(** The shape without its last axis, and the last axis. *)
Definition split_last (s : list nat) : option (list nat * nat) :=
  match reverse s with
  | [] => None
  | w :: p => Some (reverse p, w)
  end.

(** The vectors along the last axis. *)
Definition rows {A} (t : tensor A) : list (list A) :=
  match split_last (shape t) with
  | Some (p, w) => chunks (numel p) w (data t)
  | None => []
  end.

(** The sub-tensors along the first axis. *)
Definition slices {A} (t : tensor A) : list (list A) :=
  match shape t with
  | n :: s => chunks n (numel s) (data t)
  | [] => []
  end.

(** A matrix given by its rows, all of width [w]. *)
Definition of_rows {A} (w : nat) (m : list (list A)) : tensor A :=
  Tensor [length m; w] (concat m).

(** Element [(i, j)] of a rank-2 tensor. *)
Definition at2 {A} (t : tensor A) (i j : nat) : option A :=
  r ← rows t !! i; r !! j.

(** A matrix of [H] rows of width [C], given by its rows. *)
Definition mat_shape {A} (H C : nat) (m : list (list A)) : Prop :=
  length m = H ∧ Forall (λ r, length r = C) m.

(** Entry [(i, j)] of a matrix given by its rows, [0] outside of it. *)
Definition get2 (m : list (list R)) (i j : nat) : R :=
  default 0%R (default [] (m !! i) !! j).

(** ** [torch.nn.Linear] without bias *)

Record Linear : Type := mkLinear {
  in_features : nat;
  out_features : nat;
  weight : list (list R)          (* [out_features] rows of [in_features] *)
}.

(** [F.linear(x, weight)]: every vector along the last axis of [x] is
    multiplied by the weight matrix; the last axis has to be
    [in_features] wide. *)
Definition linear (l : Linear) (x : tensor R) : result (tensor R) :=
  match split_last (shape x) with
  | None => Raise RuntimeError
  | Some (p, w) =>
      if decide (w = in_features l)
      then Ok (Tensor (p ++ [out_features l])
                 (concat (map (λ r, map (dot r) (weight l)) (rows x))))
      else Raise RuntimeError
  end.

(** [x.view(-1, H, C)], the result given as nested lists
    (first axis, then heads, then channels). *)
Definition view3 (x : tensor R) (H C : nat) : result (list (list (list R))) :=
  let n := numel (shape x) in
  if decide (H * C = 0) then Raise RuntimeError
  else if decide (n `mod` (H * C) = 0)
       then Ok (map (chunks H C) (chunks (n `div` (H * C)) (H * C) (data x)))
       else Raise RuntimeError.

(** [(x * att).sum(dim=-1)] for [x] of shape [M, H, C] and a parameter [att]
    of shape [1, H, C] (given as its [H] rows). *)
Definition mul_sum (x : list (list (list R))) (att : list (list R))
  : list (list R) :=
  map (λ xn, zip_with dot xn att) x.

(** [src.index_select(0, index)]; negative indices are not accepted. *)
Definition index_select {A} (src : list A) (index : list Z) : result (list A) :=
  mapM (λ i : Z,
          if decide (0 ≤ i)%Z
          then from_option Ok (Raise IndexError) (src !! Z.to_nat i)
          else Raise IndexError) index.

(** Python indexing of an axis of length [n]: negative indices count from
    the end. *)
Definition norm_index (n : nat) (i : Z) : result nat :=
  if decide (0 ≤ i < Z.of_nat n)%Z then Ok (Z.to_nat i)
  else if decide (- Z.of_nat n ≤ i < 0)%Z then Ok (Z.to_nat (Z.of_nat n + i))
  else Raise IndexError.

(** [t[i]] for an integer [i]. *)
Definition getitem_int {A} (t : tensor A) (i : Z) : result (tensor A) :=
  match shape t with
  | [] => Raise IndexError
  | n :: s =>
      k ← norm_index n i;
      from_option (λ d, Ok (Tensor s d)) (Raise IndexError) (slices t !! k)
  end.

(** [t[idx]] for an index tensor [idx]. *)
Definition getitem {A} (t : tensor A) (idx : tensor Z) : result (tensor A) :=
  match shape t with
  | [] => Raise IndexError
  | n :: s =>
      sl ← mapM (λ i : Z,
                   k ← norm_index n i;
                   from_option Ok (Raise IndexError) (slices t !! k))
                (data idx);
      Ok (Tensor (shape idx ++ s) (concat sl))
  end.

(** [torch.cat((a, b), dim=-1)] *)
Definition cat_last {A} (a b : tensor A) : result (tensor A) :=
  match split_last (shape a), split_last (shape b) with
  | Some (pa, wa), Some (pb, wb) =>
      if decide (pa = pb)
      then Ok (Tensor (pa ++ [wa + wb]) (concat (zip_with app (rows a) (rows b))))
      else Raise RuntimeError
  | _, _ => Raise RuntimeError
  end.

(** Broadcasting.  [broadcast_shapes] aligns two shapes on the right; two
    axes are compatible when they are equal or one of them is 1. *)
Fixpoint broadcast_rev (s1 s2 : list nat) : option (list nat) :=
  match s1, s2 with
  | [], s | s, [] => Some s
  | a :: s1', b :: s2' =>
      r ← broadcast_rev s1' s2';
      if decide (a = b) then Some (a :: r)
      else if decide (a = 1) then Some (b :: r)
      else if decide (b = 1) then Some (a :: r)
      else None
  end.

Definition broadcast_shapes (s1 s2 : list nat) : option (list nat) :=
  reverse <$> broadcast_rev (reverse s1) (reverse s2).

(** [expand s tgt d]: the data [d] of shape [s] repeated to the shape [tgt]
    of the same rank. *)
Fixpoint expand {A} (s tgt : list nat) (d : list A) : list A :=
  match s, tgt with
  | k :: s', m :: tgt' =>
      if decide (k = m)
      then concat (map (expand s' tgt') (chunks k (numel s') d))
      else concat (replicate m (expand s' tgt' d))
  | _, _ => d
  end.

Definition pad_shape (n : nat) (s : list nat) : list nat :=
  replicate (n - length s) 1 ++ s.

(** [a + b] *)
Definition add (a b : tensor R) : result (tensor R) :=
  match broadcast_shapes (shape a) (shape b) with
  | None => Raise RuntimeError
  | Some s =>
      Ok (Tensor s (zip_with Rplus
                      (expand (pad_shape (length s) (shape a)) s (data a))
                      (expand (pad_shape (length s) (shape b)) s (data b))))
  end.

(** [F.leaky_relu(x, slope)] and [F.relu(x)] on one element. *)
Definition leaky_relu (slope x : R) : R := (Rmax 0 x + slope * Rmin 0 x)%R.
Definition relu (x : R) : R := Rmax 0 x.

(** The random generator: the stream of uniform draws it will produce. *)
Definition rng : Type := nat → R.
Definition draw (n : nat) (g : rng) : list R * rng :=
  (map g (seq 0 n), λ i, g (n + i)).

(** [F.dropout(x, p, training)] on the elements of [x]. *)
Definition dropout (x : list R) (p : R) (training : bool) : St rng (list R) :=
  λ g,
    if decide (0 <= p <= 1)%R then
      if training
      then let '(u, g') := draw (length x) g in
           (Ok (zip_with (λ ui xi, if decide (ui < p)%R then 0%R
                                   else (xi / (1 - p))%R) u x), g')
      else (Ok x, g)
    else (Raise ValueError, g).

End torch.

(** * The part of torch_geometric the operator calls

    [softmax], [scatter] and [MessagePassing.propagate] belong to
    torch_geometric and torch_scatter, not to this repository. *)

Module pyg.
Import torch.

(** The indices that [scatter] accepts for an output of [N] rows. *)
Definition check_index (index : list Z) (N : nat) : result (list nat) :=
  mapM (λ i : Z, if decide (0 ≤ i < Z.of_nat N)%Z
                 then Ok (Z.to_nat i) else Raise IndexError) index.

(** Modelled from the spec: [scatter(src, index, dim=0, dim_size=N,
    reduce='sum')] is missing from the sources; row [t] of the result is the
    sum of the rows [src[e]] with [index[e] = t] ("aggregate (sum) messages
    into each target node across its incoming edges"). *)
Definition scatter_sum {V} (vadd : V → V → V) (zero : V)
    (src : list V) (index : list nat) (N : nat) : list V :=
  map (λ t, foldr (λ p acc, if decide (p.1 = t) then vadd p.2 acc else acc)
              zero (zip index src))
      (seq 0 N).

(** Modelled from the spec: [softmax(src, index, ptr, num_nodes)] with
    [ptr = None] is missing from the sources; the logits [src] of shape
    [E, H] are normalised "via softmax grouped by target node (and head)":
    exponentials divided by their sum over the rows sharing the same index.
    The shift by the group maximum and the small constant by which the library
    guards the division are numerical devices outside this exact model. *)
Definition softmax (src : list (list R)) (index : list Z) (N H : nat)
  : result (list (list R)) :=
  idx ← check_index index N;
  let out := map (map exp) src in
  let out_sum := scatter_sum (zip_with Rplus) (replicate H 0%R) out idx N in
  Ok (zip_with (λ i row, zip_with Rdiv row (default [] (out_sum !! i))) idx out).

(** [MessagePassing.__set_size__] *)
Definition set_size (size : option nat * option nat) (d : bool) (n : nat)
  : result (option nat * option nat) :=
  match (if d then size.2 else size.1) with
  | None => Ok (if d then (size.1, Some n) else (Some n, size.2))
  | Some k => if decide (k = n) then Ok size else Raise ValueError
  end.

End pyg.

(** * [class gat(MessagePassing)] *)

Module gat.
Import torch.

(** [Union[int, Tuple[int, int]]] *)
Inductive channels : Type :=
| Int (n : nat)
| Pair (src dst : nat).

Record t : Type := mk {
  in_channels : channels;
  out_channels : nat;
  heads : nat;
  concat : bool;
  negative_slope : R;
  dropout : R;
  add_self_loops : bool;
  lin_l : Linear;
  lin_r : Linear;
  lin_e : Linear;
  att_e : list (list R);        (* shape [1, heads, out_channels] *)
  att_l : list (list R);
  att_r : list (list R);
  bias : option (list R);
  _alpha : option (tensor R);
  training : bool                (* [nn.Module.training] *)
}.

(** [self._alpha = a] *)
Definition with_alpha (self : t) (a : option (tensor R)) : t :=
  mk (in_channels self) (out_channels self) (heads self) (concat self)
     (negative_slope self) (dropout self) (add_self_loops self)
     (lin_l self) (lin_r self) (lin_e self)
     (att_e self) (att_l self) (att_r self) (bias self) a (training self).

Definition set_alpha (a : option (tensor R)) : St (t * rng) unit :=
  λ '(self, g), (Ok tt, (with_alpha self a, g)).

(** Run a computation that only touches the random generator. *)
Definition with_rng {S A} (m : St rng A) : St (S * rng) A :=
  λ '(s, g), let '(r, g') := m g in (r, (s, g')).

(** [glorot(tensor)] fills a tensor of [n * w] elements with fresh draws. *)
Definition glorot (n w : nat) : Gen rng (list (list R)) :=
  λ g, let '(d, g') := draw (n * w) g in (chunks n w d, g').

(** [Linear(in_features, out_features, bias=False)] draws its weight. *)
Definition Linear_new (inf outf : nat) : Gen rng Linear :=
  w ← glorot outf inf; mret (mkLinear inf outf w).

(** [glorot(lin.weight)] *)
Definition reglorot (l : Linear) : Gen rng Linear :=
  w ← glorot (out_features l) (in_features l);
  mret (mkLinear (in_features l) (out_features l) w).

(** [__init__] followed by the [reset_parameters] it ends with.  The
    aggregation is the default ['add'] that [kwargs.setdefault] installs. *)
Definition __init__ (in_channels : channels) (out_channels edge_in_channels : nat)
    (heads : nat) (concat : bool) (negative_slope dropout : R)
    (add_self_loops bias : bool) : Gen rng t :=
  ll ← match in_channels with
       | Int n =>
           l ← Linear_new n (heads * out_channels); mret (l, None)
       | Pair a b =>
           l ← Linear_new a (heads * out_channels);
           r ← Linear_new b (heads * out_channels);
           mret (l, Some r)
       end;
  lin_e ← Linear_new edge_in_channels (heads * out_channels);
  let bias :=
    if bias && concat then Some (replicate (heads * out_channels) 0%R)
    else if bias && negb concat then Some (replicate out_channels 0%R)
    else None in
  (* reset_parameters *)
  lin_l ← reglorot ll.1;
  lin_r ← match ll.2 with
          | None => l ← reglorot lin_l; mret (l, l)   (* [lin_r is lin_l] *)
          | Some r => r ← reglorot r; mret (lin_l, r)
          end;
  lin_e ← reglorot lin_e;
  att_l ← glorot heads out_channels;
  att_r ← glorot heads out_channels;
  att_e ← glorot heads out_channels;
  mret (mk in_channels out_channels heads concat negative_slope dropout
          add_self_loops lin_r.1 lin_r.2 lin_e att_e att_l att_r bias None true).

(** [alpha += alpha_e]: in place, so [alpha_e] may only be broadcast along
    its first axis. *)
Definition iadd (a b : list (list R)) : result (list (list R)) :=
  if decide (length b = length a) then Ok (zip_with (zip_with Rplus) a b)
  else match b with
       | [b0] => Ok (map (λ r, zip_with Rplus r b0) a)
       | _ => Raise RuntimeError
       end.

(** [message]; [ptr] is [None] for an edge list given as a tensor and is
    left out. *)
Definition message (x_j : list (list (list R))) (alpha_j : list (list R))
    (alpha_i : option (list (list R))) (alpha_e : list (list R))
    (index : list Z) (size_i : nat) : St (t * rng) (list (list (list R))) :=
  s ← get;
  let self := s.1 in
  let alpha := match alpha_i with
               | None => alpha_j
               | Some alpha_i => zip_with (zip_with Rplus) alpha_j alpha_i
               end in
  alpha ← lift (iadd alpha alpha_e);
  let alpha := map (map (leaky_relu (negative_slope self))) alpha in
  alpha ← lift (pyg.softmax alpha index size_i (heads self));
  _ ← set_alpha (Some (of_rows (heads self) alpha));
  d ← with_rng (torch.dropout (List.concat alpha) (dropout self) (training self));
  let alpha := chunks (length alpha) (heads self) d in
  mret (zip_with (λ xe ae, zip_with (λ xh a, map (λ v, (v * a)%R) xh) xe ae)
          x_j alpha).

(** Modelled from the spec: [MessagePassing.propagate], which [gat]
    inherits from torch_geometric, is missing from the sources.  It "fails
    if edge list does not have shape [2, E]", gathers the source side of
    every edge from [x[0]] and [alpha[0]] and the target side from
    [alpha[1]], calls [message], and sums the messages "into each target
    node across its incoming edges" (edge list given as a tensor, flow
    ['source_to_target'], aggregation ['add'], identity [update]). *)
Definition propagate (edge_index : tensor Z)
    (x : list (list (list R)) * option (list (list (list R))))
    (alpha : list (list R) * option (list (list R)))
    (alpha_e : list (list R)) (size : option (nat * nat))
  : St (t * rng) (list (list (list R))) :=
  s ← get;
  let self := s.1 in
  _ ← lift (assert (bool_decide (dim edge_index = 2)) "");
  _ ← lift (assert (bool_decide (shape edge_index !! 0 = Some 2)) "");
  let the_size := match size with
                  | Some (a, b) => (Some a, Some b)
                  | None => (None, None)
                  end in
  let edge_index_j := default [] (slices edge_index !! 0) in
  let edge_index_i := default [] (slices edge_index !! 1) in
  the_size ← lift (match x.2 with
                   | Some x_r => pyg.set_size the_size true (length x_r)
                   | None => Ok the_size
                   end);
  the_size ← lift (pyg.set_size the_size false (length x.1));
  x_j ← lift (index_select x.1 edge_index_j);
  alpha_j ← lift (index_select alpha.1 edge_index_j);
  alpha_i ← lift (match alpha.2 with
                  | Some a => r ← index_select a edge_index_i; Ok (Some r)
                  | None => Ok None
                  end);
  (* size_i = size[1] or size[0] *)
  let size_i := match the_size.2 with
                | Some (S n) => S n
                | _ => default 0 the_size.1
                end in
  out ← message x_j alpha_j alpha_i alpha_e edge_index_i size_i;
  idx ← lift (pyg.check_index edge_index_i size_i);
  mret (pyg.scatter_sum (zip_with (zip_with Rplus))
          (replicate (heads self) (replicate (out_channels self) 0%R))
          out idx size_i).

(** [Union[Tensor, OptPairTensor]] *)
Inductive x_arg : Type :=
| XTensor (x : tensor R)
| XPair (x0 : tensor R) (x1 : option (tensor R)).

(** What [forward] returns: the output alone, or the output with
    [(edge_index, alpha)]. *)
Inductive output : Type :=
| Out (out : tensor R)
| OutAttention (out : tensor R) (edge_index : tensor Z) (alpha : tensor R).

(** [out.mean(dim=1)] on one node: the mean over the heads. *)
Definition mean_heads (H C : nat) (m : list (list R)) : list R :=
  map (λ v, (v / INR H)%R) (foldr (zip_with Rplus) (replicate C 0%R) m).

(** [out += bias] *)
Definition iadd_bias (out : tensor R) (b : list R) : result (tensor R) :=
  r ← add out (Tensor [length b] b);
  if decide (shape r = shape out) then Ok r else Raise RuntimeError.

(** [forward]; the edge list is a tensor ([SparseTensor] adjacency is not
    covered), [return_attention_weights] is [None] or a [bool]. *)
Definition forward (x : x_arg) (edge_index : tensor Z) (edge_attr : tensor R)
    (size : option (nat * nat)) (return_attention_weights : option bool)
  : St (t * rng) output :=
  s ← get;
  let self := s.1 in
  let H := heads self in
  let C := out_channels self in
  xa ← lift (match x with
             | XTensor x =>
                 _ ← assert (bool_decide (dim x = 2))
                       "Static graphs not supported in `GATConv`.";
                 x_l ← (y ← linear (lin_l self) x; view3 y H C);
                 Ok (x_l, Some x_l, mul_sum x_l (att_l self),
                     Some (mul_sum x_l (att_r self)))
             | XPair x0 x1 =>
                 _ ← assert (bool_decide (dim x0 = 2))
                       "Static graphs not supported in `GATConv`.";
                 x_l ← (y ← linear (lin_l self) x0; view3 y H C);
                 let alpha_l := mul_sum x_l (att_l self) in
                 match x1 with
                 | Some x_r =>
                     x_r ← (y ← linear (lin_r self) x_r; view3 y H C);
                     Ok (x_l, Some x_r, alpha_l,
                         Some (mul_sum x_r (att_r self)))
                 | None => Ok (x_l, None, alpha_l, None)
                 end
             end);
  let '(x_l, x_r, alpha_l, alpha_r) := xa in
  (* for edge features *)
  e ← lift (y ← linear (lin_e self) edge_attr; view3 y H C);
  let alpha_e := mul_sum e (att_e self) in
  out ← propagate edge_index (x_l, x_r) (alpha_l, alpha_r) alpha_e size;
  s ← get;
  let alpha := _alpha s.1 in
  _ ← set_alpha None;
  let out := if concat self
             then of_rows (H * C) (map (@List.concat R) out)
             else of_rows C (map (mean_heads H C) out) in
  out ← lift (match bias self with
              | Some b => iadd_bias out b
              | None => Ok out
              end);
  match return_attention_weights with
  | Some _ =>
      match alpha with
      | Some alpha => mret (OutAttention out edge_index alpha)
      | None => lift (Raise (AssertionError ""))
      end
  | None => mret (Out out)
  end.

End gat.

(** * [torch.nn.BatchNorm1d] on rank-2 input *)

Module BatchNorm1d.
Import torch.

Record t : Type := mk {
  num_features : nat;
  eps : R;
  momentum : R;
  weight : list R;
  bias : list R;
  running_mean : list R;
  running_var : list R;
  num_batches_tracked : nat;
  training : bool
}.

(** [BatchNorm1d(num_features)] *)
Definition new (num_features : nat) : t :=
  mk num_features (1 / 100000)%R (1 / 10)%R
     (replicate num_features 1%R) (replicate num_features 0%R)
     (replicate num_features 0%R) (replicate num_features 1%R) 0 true.

Definition column (m : list (list R)) (c : nat) : list R :=
  map (λ r, default 0%R (r !! c)) m.

Definition mean (l : list R) : R := (Rsum l / INR (length l))%R.

(** The biased variance, the one the batch is normalised with. *)
Definition var (l : list R) : R :=
  (Rsum (map (λ v, (v - mean l) * (v - mean l)) l) / INR (length l))%R.

Definition normalize (self : t) (mu sigma2 : list R) (r : list R) : list R :=
  zip_with (λ v st, ((v - st.1.1) / sqrt (st.1.2 + eps self) * st.2.1 + st.2.2)%R)
    r (zip (zip mu sigma2) (zip (weight self) (bias self))).

(** [forward] for an input of shape [N, num_features].  The hidden state
    that [gat_seq] hands over is always of rank 2; rank 3, which the library
    would accept too, cannot reach this call. *)
Definition forward (x : tensor R) : St t (tensor R) :=
  λ self,
    match shape x with
    | [N; C] =>
        if decide (C = num_features self) then
          if training self then
            if decide (N ≤ 1) then (Raise ValueError, self)
            else
              let cols := map (column (rows x)) (seq 0 C) in
              let mu := map mean cols in
              let sigma2 := map var cols in
              let m := momentum self in
              let unbiased := map (λ v, (v * INR N / (INR N - 1))%R) sigma2 in
              (Ok (Tensor [N; C] (List.concat (map (normalize self mu sigma2) (rows x)))),
               mk (num_features self) (eps self) m (weight self) (bias self)
                  (zip_with (λ r b, ((1 - m) * r + m * b)%R) (running_mean self) mu)
                  (zip_with (λ r b, ((1 - m) * r + m * b)%R) (running_var self) unbiased)
                  (S (num_batches_tracked self)) true)
          else
            (Ok (Tensor [N; C]
                   (List.concat (map (normalize self (running_mean self) (running_var self))
                                (rows x)))),
             self)
        else (Raise RuntimeError, self)
    | _ => (Raise ValueError, self)
    end.

End BatchNorm1d.

(** * [class gat_seq(torch.nn.Module)] *)

Module gat_seq.
Import torch.

Record t : Type := mk {
  convs : list gat.t;
  bns : list BatchNorm1d.t;
  dropout : R;
  training : bool
}.

(** [[f() for _ in range(n)]] *)
Fixpoint repeatM {G A} (n : nat) (m : Gen G A) : Gen G (list A) :=
  match n with
  | 0 => mret []
  | S n' => a ← m; l ← repeatM n' m; mret (a :: l)
  end.

Definition __init__ (in_channels out_channels edge_attr_dim ins_dim num_ins : nat)
    (dropout : R) (gat_heads : nat) (gat_negative_slope : R) (gat_bias : bool)
  : Gen rng t :=
  convs ← repeatM num_ins
             (gat.__init__ (gat.Int (in_channels + ins_dim)) out_channels
                (edge_attr_dim + ins_dim) gat_heads false gat_negative_slope
                dropout true gat_bias);
  (* for the last output, no batch norm *)
  let bns := replicate (num_ins - 1) (BatchNorm1d.new out_channels) in
  mret (mk convs bns dropout true).

(** [self.convs[i](...)]: run module [i] of the list on the shared random
    generator and store it back. *)
Definition call_conv {A} (i : nat) (m : St (gat.t * rng) A) : St (t * rng) A :=
  λ '(self, g),
    match convs self !! i with
    | None => (Raise IndexError, (self, g))
    | Some c =>
        let '(r, (c', g')) := m (c, g) in
        (r, (mk (<[i := c']> (convs self)) (bns self) (dropout self) (training self), g'))
    end.

(** [self.bns[i](h)] *)
Definition call_bn {A} (i : nat) (m : St BatchNorm1d.t A) : St (t * rng) A :=
  λ '(self, g),
    match bns self !! i with
    | None => (Raise IndexError, (self, g))
    | Some b =>
        let '(r, b') := m b in
        (r, (mk (convs self) (<[i := b']> (bns self)) (dropout self) (training self), g))
    end.

(** [for i in l: a = body(i, a)] *)
Fixpoint for_each {S A I} (l : list I) (body : I → A → St S A) (a : A) : St S A :=
  match l with
  | [] => mret a
  | i :: l' => a' ← body i a; for_each l' body a'
  end.

(** The inputs of layer [i]: the edge features and the hidden state, each
    with the instruction vector of its graph instance appended. *)
Definition concat_inputs (i : nat) (h : tensor R) (edge_index : tensor Z)
    (edge_attr instr_vectors : tensor R) (batch : tensor Z)
  : result (tensor R * tensor R) :=
  ins ← getitem_int instr_vectors (Z.of_nat i);
  src ← getitem_int edge_index 0;
  edge_batch ← getitem batch src;
  (* torch.zeros((edge_index.shape[1], ins.shape[-1])), overwritten at once *)
  _ ← from_option Ok (Raise IndexError) (shape edge_index !! 1);
  _ ← from_option Ok (Raise IndexError) (last (shape ins));
  repeated_ins_edge ← getitem ins edge_batch;
  edge_cat ← cat_last edge_attr repeated_ins_edge;
  repeated_ins_node ← getitem ins batch;
  x_cat ← cat_last h repeated_ins_node;
  Ok (x_cat, edge_cat).

(** The tensor of a call that did not ask for attention weights. *)
Definition out_tensor (o : gat.output) : tensor R :=
  match o with gat.Out t => t | gat.OutAttention t _ _ => t end.

(** The body of the loop of [forward]. *)
Definition layer (num_conv_layers : nat) (edge_index : tensor Z)
    (edge_attr instr_vectors : tensor R) (batch : tensor Z)
    (i : nat) (h : tensor R) : St (t * rng) (tensor R) :=
  s ← get;
  let self := s.1 in
  (* concat the inputs *)
  xe ← lift (concat_inputs i h edge_index edge_attr instr_vectors batch);
  (* feed into the GAT *)
  conv_res ← call_conv i (gat.forward (gat.XTensor xe.1) edge_index xe.2 None None);
  h ← lift (add (out_tensor conv_res) h);      (* skip connection *)
  (* do BN, ReLU, Dropout in-between all conv layers *)
  if decide (i ≠ num_conv_layers - 1) then
    h ← call_bn i (BatchNorm1d.forward h);
    let h := Tensor (shape h) (map relu (data h)) in
    d ← gat.with_rng (torch.dropout (data h) (dropout self) (training self));
    mret (Tensor (shape h) d)
  else mret h.

Definition forward (x : tensor R) (edge_index : tensor Z)
    (edge_attr instr_vectors : tensor R) (batch : tensor Z)
  : St (t * rng) (tensor R) :=
  s ← get;
  let num_conv_layers := length (convs s.1) in
  for_each (seq 0 num_conv_layers)
    (layer num_conv_layers edge_index edge_attr instr_vectors batch) x.

End gat_seq.

(** * [optimistic_restore] of [util/pytorch_misc.py] *)

Module pytorch_misc.
Import torch.

(** [s.replace(old, new)]: every occurrence of [old], scanning from the
    left without overlap; an empty [old] matches before every character
    and at the end. *)
Fixpoint replace_go (old new : string) (skip : nat) (s : string) : string :=
  match s with
  | EmptyString => EmptyString
  | String c s' =>
      match skip with
      | S k => replace_go old new k s'
      | 0 =>
          if String.prefix old s
          then new +:+ replace_go old new (String.length old - 1) s'
          else String c (replace_go old new 0 s')
      end
  end.

Fixpoint replace_empty (new s : string) : string :=
  match s with
  | EmptyString => new
  | String c s' => new +:+ String c (replace_empty new s')
  end.

Definition replace (old new s : string) : string :=
  if decide (old = EmptyString) then replace_empty new s
  else replace_go old new 0 s.

(** The network: [state_dict()] names the parameter tensors, and two names
    may denote the same tensor (tied weights), so names map to storage
    locations. *)
Record Network : Type := mkNetwork {
  names : gmap string nat;
  storage : nat → tensor R
}.

(** [own_state[name]] *)
Definition lookup_param (own_names : gmap string nat) (st : nat → tensor R)
    (name : string) : option (tensor R) :=
  st <$> own_names !! name.

(** What the function prints. *)
Inductive message : Type :=
| CouldNotRestore
| UnexpectedKey (name : string) (size : list nat)
| SizeMismatch (name : string) (own_size ckpt_size : list nat)
| DetectorRestored (mismatch : bool) (keys : nat)
| CouldNotFind (missing : gset string).

(** The variables of the loop; [printed] collects the output. *)
Record vars : Type := mkVars {
  mismatch : bool;
  only_detector : bool;
  state_dict_keys_new : gset string;
  own_state : nat → tensor R;
  printed : list message
}.

(** [for name_old, name_new in names_map.items(): name_ = name_.replace(...)] *)
Definition rename (names_map : option (list (string * string))) (name_ : string)
  : string :=
  match names_map with
  | None => name_
  | Some m => foldl (λ n on, replace on.1 on.2 n) name_ m
  end.

(** The body of the loop over [state_dict.items()]. *)
Definition restore_item (own_names : gmap string nat)
    (names_map : option (list (string * string)))
    (v : vars) (item : string * tensor R) : vars :=
  let param := item.2 in
  let name_ := rename names_map item.1 in
  let keys := state_dict_keys_new v ∪ {[ name_ ]} in
  let name2 := "detector." +:+ name_ in
  let '(name, mm, od, pr) :=
    if decide (is_Some (own_names !! name2) ∧ own_names !! name_ = None)
    then (name2, mismatch v, true, printed v)
    else if only_detector v
         then (name_, true, false, printed v ++ [CouldNotRestore])
         else (name_, mismatch v, false, printed v) in
  match own_names !! name with
  | None =>
      mkVars true od keys (own_state v)
        (pr ++ [UnexpectedKey name (shape param)])
  | Some l =>
      if decide (shape param = shape (own_state v l))
      then (* own_state[name].copy_(param) *)
        mkVars mm od keys
          (<[ l := Tensor (shape (own_state v l)) (data param) ]> (own_state v)) pr
      else
        mkVars true od keys (own_state v)
          (pr ++ [SizeMismatch name (shape (own_state v l)) (shape param)])
  end.

Definition optimistic_restore (network : Network)
    (state_dict : list (string * tensor R))
    (names_map : option (list (string * string)))
  : bool * Network * list message :=
  let own_names := names network in
  let v := foldl (restore_item own_names names_map)
             (mkVars false false ∅ (storage network) []) state_dict in
  let '(mm, pr) :=
    if only_detector v
    then (mismatch v,
          printed v ++ [DetectorRestored (mismatch v) (length state_dict)])
    else
      let missing := dom own_names ∖ state_dict_keys_new v in
      if decide (0 < size missing)
      then (true, printed v ++ [CouldNotFind missing])
      else (mismatch v, printed v) in
  (negb mm, mkNetwork own_names (own_state v), pr).

End pytorch_misc.

(** * The attention operator as the specification words it

    The definitions of this module follow the specification, not the
    source: they say element by element what the operator is meant to
    compute, and the theorems below compare [gat.forward] with them. *)

Module gat_spec.
Import torch.

(** The list [[f 0; ...; f (n - 1)]]. *)
Definition tab {A} (n : nat) (f : nat → A) : list A := map f (seq 0 n).

Definition source (x : gat.x_arg) : tensor R :=
  match x with gat.XTensor x => x | gat.XPair x0 _ => x0 end.

Definition target (x : gat.x_arg) : option (tensor R) :=
  match x with gat.XTensor x => Some x | gat.XPair _ x1 => x1 end.

(** Source and target share one weight matrix when the input is
    homogeneous. *)
Definition target_lin (self : gat.t) (x : gat.x_arg) : Linear :=
  match x with
  | gat.XTensor _ => gat.lin_l self
  | gat.XPair _ _ => gat.lin_r self
  end.

(** Row [i] of a rank-2 tensor, and its number of rows. *)
Definition row (t : tensor R) (i : nat) : list R := default [] (rows t !! i).
Definition nrows {A} (t : tensor A) : nat := default 0 (shape t !! 0).

(** The part for head [h] of the projection of the feature vector [v]. *)
Definition projected (C : nat) (lin : Linear) (v : list R) (h : nat) : list R :=
  take C (drop (h * C) (map (dot v) (weight lin))).

Definition num_edges (edge_index : tensor Z) : nat :=
  default 0 (shape edge_index !! 1).

(** Edge [e] goes from [edge_src e] to [edge_dst e]. *)
Definition edge_src (edge_index : tensor Z) (e : nat) : nat :=
  Z.to_nat (default 0%Z (data edge_index !! e)).
Definition edge_dst (edge_index : tensor Z) (e : nat) : nat :=
  Z.to_nat (default 0%Z (data edge_index !! (num_edges edge_index + e))).

(** The edges that arrive at node [n]. *)
Definition incoming (edge_index : tensor Z) (n : nat) : list nat :=
  filter (λ e, edge_dst edge_index e = n) (seq 0 (num_edges edge_index)).

Definition att_row (att : list (list R)) (h : nat) : list R :=
  default [] (att !! h).

(** Softmax over groups: the weight of entry [(e, h)] of the logits [z]
    among the [E] entries whose group, [grp], is that of [e]. *)
Definition soft (E : nat) (z : nat → nat → R) (grp : nat → nat) (e h : nat) : R :=
  (exp (z e h)
   / Rsum (map (λ e', exp (z e' h)) (filter (λ e', grp e' = grp e) (seq 0 E))))%R.

(** What [scatter] accumulates in row [t] from the [E] values [m 0], ...,
    [m (E - 1)] sent to the rows [idx 0], ..., [idx (E - 1)]. *)
Definition scattered {V} (vadd : V → V → V) (zero : V) (E : nat)
    (idx : nat → nat) (m : nat → V) (t : nat) : V :=
  foldr (λ p acc, if decide (p.1 = t) then vadd p.2 acc else acc)
    zero (zip (map idx (seq 0 E)) (map m (seq 0 E))).

(** The target side of the operator, when there is one: the number of
    target nodes, their projections and their terms of the logit. *)
Definition target_side (self : gat.t) (x : gat.x_arg)
  : option (nat * (nat → nat → list R) * (nat → nat → R)) :=
  (λ xt, (nrows xt,
          λ n h, projected (gat.out_channels self) (target_lin self x) (row xt n) h,
          λ n h, dot (att_row (gat.att_r self) h)
                   (projected (gat.out_channels self) (target_lin self x) (row xt n) h)))
  <$> target x.

Section operator.
Context (self : gat.t) (x : gat.x_arg) (edge_index : tensor Z)
        (edge_attr : tensor R).

Let H := gat.heads self.
Let C := gat.out_channels self.

Definition projected_source (i h : nat) : list R :=
  projected C (gat.lin_l self) (row (source x) i) h.

Definition projected_target (j h : nat) : option (list R) :=
  (λ xt, projected C (target_lin self x) (row xt j) h) <$> target x.

Definition projected_edge (e h : nat) : list R :=
  projected C (gat.lin_e self) (row edge_attr e) h.

(** The raw logit of edge [e] for head [h]. *)
Definition logit (e h : nat) : R :=
  (dot (att_row (gat.att_l self) h)
       (projected_source (edge_src edge_index e) h)
   + from_option (dot (att_row (gat.att_r self) h)) 0
       (projected_target (edge_dst edge_index e) h)
   + dot (att_row (gat.att_e self) h) (projected_edge e h))%R.

Definition score (e h : nat) : R :=
  exp (leaky_relu (gat.negative_slope self) (logit e h)).

(** Softmax over the edges that share the target of [e]. *)
Definition attention (e h : nat) : R :=
  (score e h
   / Rsum (map (λ e', score e' h)
             (incoming edge_index (edge_dst edge_index e))))%R.

Definition attention_tensor : tensor R :=
  of_rows H (tab (num_edges edge_index) (λ e, tab H (attention e))).

(** The rows of the output: the target nodes (the sources when no
    targets are given; the library also falls back to the sources when
    the target set is empty). *)
Definition out_nodes : nat :=
  match target x with
  | Some xt => if decide (nrows xt = 0) then nrows (source x) else nrows xt
  | None => nrows (source x)
  end.

Definition out_width : nat := if gat.concat self then H * C else C.

(** Given the attention weights after dropout, [d] (flat, [E × H]). *)
Section after_dropout.
Context (d : list R).

Definition message (e h c : nat) : R :=
  (default 0 (projected_source (edge_src edge_index e) h !! c)
   * default 0 (d !! (e * H + h)%nat))%R.

Definition aggregated (n h c : nat) : R :=
  Rsum (map (λ e, message e h c) (incoming edge_index n)).

Definition out_entry (n k : nat) : R :=
  ((if gat.concat self
    then aggregated n (k `div` C)%nat (k `mod` C)%nat
    else Rsum (map (λ h, aggregated n h k) (seq 0 H)) / INR H)
   + from_option (λ b, default 0 (b !! k)) 0 (gat.bias self))%R.

Definition output_tensor : tensor R :=
  of_rows out_width (tab out_nodes (λ n, tab out_width (out_entry n))).
End after_dropout.

(** The module is as [__init__] builds it, with at least one head and
    one channel and a dropout probability that is a probability. *)
Record valid_module : Prop := {
  vm_pos : H * C ≠ 0;
  vm_lin_l : out_features (gat.lin_l self) = H * C
             ∧ length (weight (gat.lin_l self)) = H * C;
  vm_lin_r : out_features (gat.lin_r self) = H * C
             ∧ length (weight (gat.lin_r self)) = H * C;
  vm_lin_e : out_features (gat.lin_e self) = H * C
             ∧ length (weight (gat.lin_e self)) = H * C;
  vm_att_l : length (gat.att_l self) = H;
  vm_att_r : length (gat.att_r self) = H;
  vm_att_e : length (gat.att_e self) = H;
  vm_bias : ∀ b, gat.bias self = Some b → length b = out_width;
  vm_dropout : (0 <= gat.dropout self <= 1)%R
}.

(** Node features of rank 2 and of the width the module expects, an
    edge list of shape [2, E] whose endpoints are nodes, one feature
    vector per edge. *)
Record valid_input : Prop := {
  vi_source : shape (source x) = [nrows (source x); in_features (gat.lin_l self)]
              ∧ wf (source x);
  vi_target : ∀ xt, target x = Some xt →
              shape xt = [nrows xt; in_features (target_lin self x)] ∧ wf xt;
  vi_edges : shape edge_index = [2; num_edges edge_index] ∧ wf edge_index;
  vi_src : ∀ e, e < num_edges edge_index →
           (0 ≤ default 0 (data edge_index !! e)
            < Z.of_nat (nrows (source x)))%Z;
  vi_dst : ∀ e, e < num_edges edge_index →
           (0 ≤ default 0 (data edge_index !! (num_edges edge_index + e)%nat)
            < Z.of_nat (from_option nrows (nrows (source x)) (target x)))%Z;
  vi_edge_attr : shape edge_attr
                 = [num_edges edge_index; in_features (gat.lin_e self)]
                 ∧ wf edge_attr
}.
End operator.

(** The module with its cache emptied. *)
Definition clear_alpha (self : gat.t) : gat.t := gat.with_alpha self None.

(** The node [n] has a self-loop in the edge list. *)
Definition has_self_loop (edge_index : tensor Z) (n : nat) : Prop :=
  ∃ e, e < num_edges edge_index
       ∧ edge_src edge_index e = n ∧ edge_dst edge_index e = n.

End gat_spec.

(** * The layer stack as the specification words it *)

Module gat_seq_spec.
Import torch.

(** Layer [i]'s instruction vector for graph instance [b], in an
    instruction tensor of shape [num_layers, B, F_ins]. *)
Definition instruction (instr_vectors : tensor R) (i b : nat) : list R :=
  default [] (rows instr_vectors !! (i * default 0 (shape instr_vectors !! 1) + b)).

(** The graph instance of node [n] under the batch assignment. *)
Definition graph_of (batch : tensor Z) (n : nat) : nat :=
  Z.to_nat (default 0%Z (data batch !! n)).

Section stack.
Context (edge_index : tensor Z) (edge_attr instr_vectors : tensor R)
        (batch : tensor Z).

(** Steps 1 to 5: concatenate the instruction onto nodes and edges, run
    the attention operator of layer [i], add its output to the hidden
    state the layer started from. *)
Definition residual_layer (i : nat) (h : tensor R)
  : St (gat_seq.t * rng) (tensor R) :=
  xe ← lift (gat_seq.concat_inputs i h edge_index edge_attr instr_vectors batch);
  conv_res ← gat_seq.call_conv i
               (gat.forward (gat.XTensor xe.1) edge_index xe.2 None None);
  lift (add (gat_seq.out_tensor conv_res) h).

(** Step 6: batch normalisation, then ReLU, then dropout. *)
Definition post_process (p : R) (training : bool) (i : nat) (h : tensor R)
  : St (gat_seq.t * rng) (tensor R) :=
  h ← gat_seq.call_bn i (BatchNorm1d.forward h);
  let h := Tensor (shape h) (map relu (data h)) in
  d ← gat.with_rng (torch.dropout (data h) p training);
  mret (Tensor (shape h) d).

(** A layer that is not the last one. *)
Definition hidden_layer (i : nat) (h : tensor R)
  : St (gat_seq.t * rng) (tensor R) :=
  s ← get;
  h ← residual_layer i h;
  post_process (gat_seq.dropout s.1) (gat_seq.training s.1) i h.

(** All layers but the last are hidden layers; the residual sum of the
    last one is returned as it is (step 7). *)
Definition forward (x : tensor R) : St (gat_seq.t * rng) (tensor R) :=
  s ← get;
  match length (gat_seq.convs s.1) with
  | 0 => mret x
  | S n => h ← gat_seq.for_each (seq 0 n) hidden_layer x; residual_layer n h
  end.
End stack.

(** Inputs of one layer that fit together: [N] nodes of [F] features, a
    batch assignment into [B] graph instances, an edge list over the
    nodes, [E] edge feature vectors, and instructions for layer [i]. *)
Record valid_inputs (i N F E Fe L B Fi : nat) (h : tensor R)
    (edge_index : tensor Z) (edge_attr instr_vectors : tensor R)
    (batch : tensor Z) : Prop := {
  vs_h : shape h = [N; F] ∧ wf h;
  vs_batch : shape batch = [N] ∧ wf batch;
  vs_graph : ∀ n, n < N → (0 ≤ default 0 (data batch !! n) < Z.of_nat B)%Z;
  vs_edges : shape edge_index = [2; E] ∧ wf edge_index;
  vs_src : ∀ e, e < E → (0 ≤ default 0 (data edge_index !! e) < Z.of_nat N)%Z;
  vs_edge_attr : shape edge_attr = [E; Fe] ∧ wf edge_attr;
  vs_instr : shape instr_vectors = [L; B; Fi] ∧ wf instr_vectors;
  vs_layer : i < L
}.

(** A layer module that fits hidden states of width [F], edge features of
    width [Fe] and instructions of width [Fi]. *)
Record valid_layer (F Fe Fi : nat) (conv : gat.t) : Prop := {
  vl_module : gat_spec.valid_module conv;
  vl_concat : gat.concat conv = false;
  vl_out : gat.out_channels conv = F;
  vl_in : in_features (gat.lin_l conv) = F + Fi;
  vl_edge_in : in_features (gat.lin_e conv) = Fe + Fi
}.

(** A batch normalisation over [F] features; in training mode it needs
    more than one node. *)
Record valid_norm (N F : nat) (bn : BatchNorm1d.t) : Prop := {
  vn_features : BatchNorm1d.num_features bn = F;
  vn_weight : length (BatchNorm1d.weight bn) = F;
  vn_bias : length (BatchNorm1d.bias bn) = F;
  vn_mean : length (BatchNorm1d.running_mean bn) = F;
  vn_var : length (BatchNorm1d.running_var bn) = F;
  vn_batch : BatchNorm1d.training bn = true → 1 < N
}.

(** The stack as [__init__] builds it: one normalisation for every layer
    but the last. *)
Record valid_stack (N F Fe Fi : nat) (self : gat_seq.t) : Prop := {
  vk_convs : Forall (valid_layer F Fe Fi) (gat_seq.convs self);
  vk_bns : Forall (valid_norm N F) (gat_seq.bns self);
  vk_count : length (gat_seq.convs self) - 1 ≤ length (gat_seq.bns self);
  vk_dropout : (0 <= gat_seq.dropout self <= 1)%R
}.

End gat_seq_spec.

(** * What [optimistic_restore] is meant to do, entry by entry *)

Module restore_spec.
Import torch pytorch_misc.

Section spec.
Context (own : gmap string nat) (st0 : nat → tensor R)
        (names_map : option (list (string * string))).
Implicit Types (item : string * tensor R) (sd : list (string * tensor R)).

(** The key of an entry after the renaming. *)
Definition renamed item : string := rename names_map item.1.

(** The entry is restored through the ["detector."] prefix: its key is
    not a key of the network, the prefixed key is. *)
Definition via_detector item : bool :=
  bool_decide (is_Some (own !! ("detector." +:+ renamed item))
               ∧ own !! renamed item = None).

(** The key of the network that the entry is restored into. *)
Definition resolved item : string :=
  if via_detector item then "detector." +:+ renamed item else renamed item.

Definition unexpected item : Prop := own !! resolved item = None.

Definition size_mismatch item : Prop :=
  ∃ l, own !! resolved item = Some l ∧ shape item.2 ≠ shape (st0 l).

(** The entry is copied into the tensor at location [l]. *)
Definition copied_to (l : nat) item : Prop :=
  own !! resolved item = Some l ∧ shape item.2 = shape (st0 l).

(** The keys of the network that no renamed key of the state dict
    names. *)
Definition missing sd : gset string :=
  dom own ∖ list_to_set (renamed <$> sd).

Definition ends_via_detector sd : bool :=
  from_option via_detector false (last sd).

(** An entry restored under its own key right after one restored through
    the prefix. *)
Definition detector_then_plain sd : Prop :=
  ∃ i x y, sd !! i = Some x ∧ sd !! S i = Some y
           ∧ via_detector x = true ∧ via_detector y = false.

(** The mismatches that make the function answer [False]. *)
Definition any_mismatch sd : Prop :=
  (∃ item, item ∈ sd ∧ (unexpected item ∨ size_mismatch item))
  ∨ detector_then_plain sd
  ∨ (ends_via_detector sd = false ∧ missing sd ≠ ∅).

(** The mismatches as the claim counts them: an unexpected key, a
    tensor of another size, a missing key. *)
Definition claimed_mismatch sd : Prop :=
  (∃ item, item ∈ sd ∧ own !! renamed item = None)
  ∨ (∃ item l, item ∈ sd ∧ own !! renamed item = Some l
               ∧ shape item.2 ≠ shape (st0 l))
  ∨ missing sd ≠ ∅.

(** The tensor at location [l] after the restore: the data of the last
    entry copied into it, if there is one. *)
Definition restored (sd : list (string * tensor R)) (l : nat) : tensor R :=
  from_option (λ item, Tensor (shape (st0 l)) (data item.2)) (st0 l)
    (last (filter (λ item, own !! resolved item = Some l
                           ∧ shape item.2 = shape (st0 l)) sd)).

(** The variables of the loop after the entries [sd]. *)
Definition run sd : vars :=
  foldl (restore_item own names_map) (mkVars false false ∅ st0 []) sd.

(** What holds of the loop variables [v] after the entries [sd]. *)
Record invariant (sd : list (string * tensor R)) (v : vars) : Prop := {
  inv_keys : state_dict_keys_new v = list_to_set (renamed <$> sd);
  inv_detector : only_detector v = ends_via_detector sd;
  inv_shape : ∀ l, shape (own_state v l) = shape (st0 l);
  inv_state : ∀ l, own_state v l = restored sd l;
  inv_mismatch :
    mismatch v = true
    ↔ (∃ item, item ∈ sd ∧ (unexpected item ∨ size_mismatch item))
      ∨ detector_then_plain sd;
  inv_unexpected : ∀ item, item ∈ sd → unexpected item →
    UnexpectedKey (resolved item) (shape item.2) ∈ printed v;
  inv_size : ∀ item l, item ∈ sd → own !! resolved item = Some l →
    shape item.2 ≠ shape (st0 l) →
    SizeMismatch (resolved item) (shape (st0 l)) (shape item.2) ∈ printed v;
  inv_could_not : detector_then_plain sd → CouldNotRestore ∈ printed v;
  inv_sound : ∀ m, m ∈ printed v →
    m = CouldNotRestore
    ∨ (∃ item, item ∈ sd ∧ unexpected item
               ∧ m = UnexpectedKey (resolved item) (shape item.2))
    ∨ (∃ item l, item ∈ sd ∧ own !! resolved item = Some l
                 ∧ shape item.2 ≠ shape (st0 l)
                 ∧ m = SizeMismatch (resolved item) (shape (st0 l))
                         (shape item.2))
}.
End spec.

End restore_spec.

(** * The concrete scenario of the specification

    [N = 3] nodes, [E = 2] edges ([0 → 1], [1 → 2]), [F_in = 4],
    [F_edge = 3], [heads = 2], [out_channels = 5], [concat = False],
    self-loops enabled. *)

Module example.
Import torch.

Definition g0 : rng := λ i, (INR i / 10)%R.

Definition conv : gat.t :=
  (gat.__init__ (gat.Int 4) 5 3 2 false (1 / 5) 0 true true g0).1.

Definition g1 : rng :=
  (gat.__init__ (gat.Int 4) 5 3 2 false (1 / 5) 0 true true g0).2.

Definition x : tensor R := Tensor [3; 4] (map INR (seq 0 12)).
Definition edge_index : tensor Z := Tensor [2; 2] [0; 1; 1; 2]%Z.
Definition edge_attr : tensor R := Tensor [2; 3] (map INR (seq 0 6)).

(** A batch of two graphs: nodes 0 and 1 form graph 0, nodes 2, 3 and 4
    form graph 1 (batch assignment [0, 0, 1, 1, 1]); edges 0 → 1, 2 → 3 and
    3 → 4; one layer of instructions, three numbers per graph. *)
Definition batch : tensor Z := Tensor [5] [0; 0; 1; 1; 1]%Z.
Definition hidden : tensor R := Tensor [5; 2] (map INR (seq 0 10)).
Definition batch_edges : tensor Z := Tensor [2; 3] [0; 2; 3; 1; 3; 4]%Z.
Definition batch_edge_attr : tensor R := Tensor [3; 2] (map INR (seq 10 6)).
Definition instr_vectors : tensor R := Tensor [1; 2; 3] (map INR (seq 20 6)).

(** A stack of two layers for that batch, with 4 heads, and its
    instructions. *)
Definition stack : gat_seq.t :=
  (gat_seq.__init__ 2 2 2 3 2 0 4 (1 / 5) true g0).1.
Definition stack_rng : rng :=
  (gat_seq.__init__ 2 2 2 3 2 0 4 (1 / 5) true g0).2.
Definition instr_vectors2 : tensor R := Tensor [2; 2; 3] (map INR (seq 20 12)).

(** A stack of one layer whose operator is 3 channels wide, on hidden
    states of width 2. *)
Definition stack_3 : gat_seq.t :=
  (gat_seq.__init__ 2 3 2 3 1 0 4 (1 / 5) true g0).1.

(** A network with the parameters ["detector.a"] and ["b"], and a
    checkpoint that only holds ["a"]. *)
Definition network : pytorch_misc.Network :=
  pytorch_misc.mkNetwork {[ "detector.a" := 0; "b" := 1 ]}
    (λ _, Tensor [1] [0%R]).
Definition state_dict : list (string * tensor R) := [("a", Tensor [1] [1%R])].

End example.

(** * The part of Python the helpers of [util/pytorch_misc.py] use *)

Module py.
#[local] Open Scope Z_scope.

(** The errors of the built-ins, beyond those that torch raises. *)
Inductive error : Type :=
| Builtin (e : exn)
| ZeroDivisionError.

Inductive outcome (A : Type) : Type :=
| Return (a : A)
| Throw (e : error).
Arguments Return {A} a.
Arguments Throw {A} e.

#[global] Instance outcome_ret : MRet outcome := λ A a, Return a.
#[global] Instance outcome_bind : MBind outcome := λ A B f m,
  match m with Return a => f a | Throw e => Throw e end.

Definition of_result {A} (r : result A) : outcome A :=
  match r with Ok a => Return a | Raise e => Throw (Builtin e) end.

(** [a // b] on integers: the quotient rounded down. *)
Definition floordiv (a b : Z) : outcome Z :=
  if decide (b = 0) then Throw ZeroDivisionError else Return (a `div` b).

(** [len(range(start, stop, step))] for a step that is not zero. *)
Definition range_len (start stop step : Z) : Z :=
  if decide (0 < step)
  then if decide (start < stop) then (stop - start - 1) `div` step + 1 else 0
  else if decide (stop < start) then (start - stop - 1) `div` (- step) + 1 else 0.

(** [list(range(start, stop, step))] *)
Definition range (start stop step : Z) : outcome (list Z) :=
  if decide (step = 0) then Throw (Builtin ValueError)
  else Return (map (λ k : nat, start + Z.of_nat k * step)
                 (seq 0%nat (Z.to_nat (range_len start stop step)))).

(** A bound of a slice of a sequence of [n] items: negative bounds count
    from the end, and all bounds are clipped to the sequence. *)
Definition clip (n : nat) (i : Z) : nat :=
  if decide (i < 0) then Z.to_nat (Z.max 0 (i + Z.of_nat n))
  else Z.to_nat (Z.min i (Z.of_nat n)).

(** [l[start:stop]] *)
Definition slice {A} (l : list A) (start stop : Z) : list A :=
  take (clip (length l) stop - clip (length l) start)%nat
       (drop (clip (length l) start) l).

(** [l[i]] *)
Definition getitem {A} (l : list A) (i : Z) : outcome A :=
  if decide (0 ≤ i)
  then from_option Return (Throw (Builtin IndexError)) (l !! Z.to_nat i)
  else if decide (- Z.of_nat (length l) ≤ i)
       then from_option Return (Throw (Builtin IndexError))
              (l !! Z.to_nat (Z.of_nat (length l) + i))
       else Throw (Builtin IndexError).

(** Floating-point numbers with [inf], as far as [np.Inf] needs them. *)
Inductive float : Type :=
| Finite (r : R)
| Inf.

(** [a < b] for a finite [a]. *)
Definition lt_float (a : R) (b : float) : bool :=
  match b with
  | Finite b => bool_decide (a < b)%R
  | Inf => true
  end.

(** [int(x)]: the integer part, rounded towards zero. *)
Definition int (x : R) : Z :=
  if decide (0 <= x)%R then Int_part x else (- Int_part (- x))%Z.

End py.

(** * The part of numpy the helpers use *)

Module np.
Import py.
#[local] Open Scope Z_scope.

(** The value that a 64-bit integer holds after an operation whose exact
    result is [z]: arithmetic on integer arrays wraps around silently. *)
Definition int64 (z : Z) : Z := (z + 2 ^ 63) `mod` 2 ^ 64 - 2 ^ 63.

(** [np.cumsum(a)] for a list of integers in the range of [int64]. *)
Fixpoint cumsum_from (acc : Z) (a : list Z) : list Z :=
  match a with
  | [] => []
  | v :: a' => let acc := int64 (acc + v) in acc :: cumsum_from acc a'
  end.

Definition cumsum (a : list Z) : list Z := cumsum_from 0 a.

(** [np.concatenate(arrays, 0)] for one-dimensional arrays. *)
Definition concatenate {A} (arrays : list (list A)) : outcome (list A) :=
  match arrays with
  | [] => Throw (Builtin ValueError)
  | _ => Return (concat arrays)
  end.

(** Arrays of two and of three axes; the items are stored row by row. *)
Record array2 (A : Type) : Type :=
  Array2 { nrows : nat; ncols : nat; items : list A }.
Arguments Array2 {A} nrows ncols items.
Arguments nrows {A} a.
Arguments ncols {A} a.
Arguments items {A} a.

Record array3 (A : Type) : Type :=
  Array3 { dims : nat * nat * nat; items3 : list A }.
Arguments Array3 {A} dims items3.
Arguments dims {A} a.
Arguments items3 {A} a.

(** [x[i, j]] and [a[i, k, j]] for indices in range. *)
Definition at2 {A} `{Inhabited A} (x : array2 A) (i j : nat) : A :=
  items x !!! (i * ncols x + j)%nat.

Definition at3 {A} `{Inhabited A} (a : array3 A) (i k j : nat) : A :=
  items3 a !!! ((i * (dims a).1.2 + k) * (dims a).2 + j)%nat.

(** [x[i]]: row [i]. *)
Definition row {A} (x : array2 A) (i : nat) : list A :=
  take (ncols x) (drop (i * ncols x) (items x)).

(** [x.T] *)
Definition T {A} `{Inhabited A} (x : array2 A) : array2 A :=
  Array2 (ncols x) (nrows x)
    (j ← seq 0 (ncols x); i ← seq 0 (nrows x); [at2 x i j]).

(** [x[..., None]] and [x[None, ...]] *)
Definition expand_last {A} (x : array2 A) : array3 A :=
  Array3 (nrows x, ncols x, 1%nat) (items x).

Definition expand_first {A} (x : array2 A) : array3 A :=
  Array3 (1%nat, nrows x, ncols x) (items x).

(** Broadcasting: two sizes of an axis go together when they are equal or
    one of them is 1, and an axis of size 1 is read at index 0. *)
Definition broadcast (a b : nat) : option nat :=
  if decide (a = b) then Some a
  else if decide (a = 1%nat) then Some b
  else if decide (b = 1%nat) then Some a
  else None.

Definition stretch (d i : nat) : nat := if decide (d = 1%nat) then 0%nat else i.

(** [a == b], item by item.  Sizes that do not go together are an error;
    [intersect_2d] never gets there. *)
Definition equal {A} `{EqDecision A, Inhabited A} (a b : array3 A)
  : outcome (array3 bool) :=
  let '(a1, a2, a3) := dims a in
  let '(b1, b2, b3) := dims b in
  match broadcast a1 b1, broadcast a2 b2, broadcast a3 b3 with
  | Some d1, Some d2, Some d3 =>
      Return (Array3 (d1, d2, d3)
                (i ← seq 0 d1; k ← seq 0 d2; j ← seq 0 d3;
                 [bool_decide (at3 a (stretch a1 i) (stretch a2 k) (stretch a3 j)
                               = at3 b (stretch b1 i) (stretch b2 k) (stretch b3 j))]))
  | _, _, _ => Throw (Builtin ValueError)
  end.

(** [a.all(1)] *)
Definition all_axis1 (a : array3 bool) : array2 bool :=
  let '(d1, d2, d3) := dims a in
  Array2 d1 d3
    (i ← seq 0 d1; j ← seq 0 d3; [forallb (λ k, at3 a i k j) (seq 0 d2)]).

(** The value that a 32-bit integer holds after an operation whose exact
    result is [z]. *)
Definition int32 (z : Z) : Z := (z + 2 ^ 31) `mod` 2 ^ 32 - 2 ^ 31.

(** [np.ones(n, dtype=np.int32)] *)
Definition ones (n : Z) : outcome (list Z) :=
  if decide (n < 0) then Throw (Builtin ValueError)
  else Return (replicate (Z.to_nat n) 1).

(** [np.diag(v)] for a one-dimensional [v]. *)
Definition diag (v : list Z) : array2 Z :=
  Array2 (length v) (length v)
    (i ← seq 0 (length v); j ← seq 0 (length v);
     [if decide (i = j) then v !!! i else 0]).

(** [c - x] on 32-bit integers. *)
Definition rsub (c : Z) (x : array2 Z) : array2 Z :=
  Array2 (nrows x) (ncols x) (map (λ v, int32 (c - v)) (items x)).

(** [np.where(x)]: the row indices and the column indices of the items
    that are not zero, row by row. *)
Definition where_ (x : array2 Z) : list Z * list Z :=
  let found :=
    i ← seq 0 (nrows x); j ← seq 0 (ncols x);
    if decide (at2 x i j ≠ 0) then [(Z.of_nat i, Z.of_nat j)] else [] in
  (map fst found, map snd found).

(** [np.column_stack((a, b))] for one-dimensional [a] and [b]. *)
Definition column_stack (ab : list Z * list Z) : outcome (array2 Z) :=
  if decide (length ab.1 = length ab.2)
  then Return (Array2 (length ab.1) 2 (concat (zip_with (λ a b, [a; b]) ab.1 ab.2)))
  else Throw (Builtin ValueError).

End np.

(** * The other helpers of [util/pytorch_misc.py] *)

Module misc.
Import torch py.
#[local] Open Scope Z_scope.

(** ** [batch_index_iterator]

    The function is a generator; what is given here is the list of all it
    yields.  An error is raised when the first item is requested. *)
Definition batch_index_iterator (len_l batch_size : Z) (skip_end : bool)
  : outcome (list (Z * Z)) :=
  iterate_until ← (if skip_end
                   then q ← floordiv len_l batch_size; Return (q * batch_size)
                   else Return len_l);
  starts ← range 0 iterate_until batch_size;
  Return (map (λ b_start, (b_start, Z.min (b_start + batch_size) len_l)) starts).

(** ** [pairwise]: [tee], [next(b, None)], [zip(a, b)] *)
Definition pairwise {A} (iterable : list A) : list (A * A) :=
  let a := iterable in
  let b := iterable in
  let b := drop 1%nat b in
  zip a b.

(** ** [get_smallest_lr] and [update_lr]

    A parameter group holds its learning rate under the key ['lr'], which
    every optimizer of torch sets, beside its other options. *)
Record param_group (P : Type) : Type := ParamGroup { lr : R; options : P }.
Arguments ParamGroup {P} lr options.
Arguments lr {P} p.
Arguments options {P} p.

Definition get_smallest_lr {P} (param_groups : list (param_group P)) : float :=
  foldl (λ lr_min pg, if lt_float (lr pg) lr_min then Finite (lr pg) else lr_min)
    Inf param_groups.

(** The line that [update_lr] prints, and the groups it leaves. *)
Definition update_lr {P} (param_groups : list (param_group P)) (new_lr : R)
  : R * list (param_group P) :=
  (new_lr, map (λ pg, ParamGroup new_lr (options pg)) param_groups).

(** ** [enumerate_by_image]

    The image indices are integers, so that [int(val)] is [val]. *)
Fixpoint enumerate_by_image_loop (initial_ind : Z) (s i : nat) (vals : list Z)
  : list (Z * nat * nat) :=
  match vals with
  | [] => [(initial_ind, s, i)]
  | val :: vals' =>
      if decide (val ≠ initial_ind)
      then (initial_ind, s, i) :: enumerate_by_image_loop val i (S i) vals'
      else enumerate_by_image_loop initial_ind s (S i) vals'
  end.

Definition enumerate_by_image (im_inds : list Z)
  : outcome (list (Z * nat * nat)) :=
  initial_ind ← getitem im_inds 0;
  Return (enumerate_by_image_loop initial_ind 0%nat 0%nat im_inds).

(** ** [enumerate_imsize] *)
Fixpoint enumerate_imsize_loop (s : Z) (i : nat) (im_sizes : list (R * R * R * R))
  : list (nat * Z * Z * R * R * R * Z) :=
  match im_sizes with
  | [] => []
  | (h, w, scale, num_anchors) :: rest =>
      let na := int num_anchors in
      let e := s + na in
      (i, s, e, h, w, scale, na) :: enumerate_imsize_loop e (S i) rest
  end.

Definition enumerate_imsize (im_sizes : list (R * R * R * R))
  : list (nat * Z * Z * R * R * R * Z) :=
  enumerate_imsize_loop 0 0%nat im_sizes.

(** ** [de_chunkize], on the items of the first axis *)
Fixpoint de_chunkize_loop {A} (tensor : list A) (s : Z) (chunks : list Z)
  : list (list A) :=
  match chunks with
  | [] => []
  | c :: chunks' => slice tensor s (s + c) :: de_chunkize_loop tensor (s + c) chunks'
  end.

Definition de_chunkize {A} (tensor : list A) (chunks : list Z) : list (list A) :=
  de_chunkize_loop tensor 0 chunks.

(** ** [right_shift_packed_sequence_inds] *)
Fixpoint right_shift_loop (cur_ind : Z) (pairs : list (Z * Z)) : list Z :=
  match pairs with
  | [] => []
  | (l1, l2) :: pairs' =>
      map (λ i : nat, cur_ind + Z.of_nat i) (seq 0%nat (Z.to_nat l2))
      ++ right_shift_loop (cur_ind + l1) pairs'
  end.

Definition right_shift_packed_sequence_inds (lengths : list Z) : list Z :=
  right_shift_loop 0
    (zip (slice lengths 0 (-1)) (slice lengths 1 (Z.of_nat (length lengths)))).

(** ** [to_onehot]

    [vec] is a vector of class labels.  The buffer of [size * num_classes]
    numbers is filled with [-fill]; then [fill] is written at the flat
    positions [vec + num_classes * arange_inds], which torch accepts from
    minus the length of the buffer up to its length. *)
Definition index_put {A} (buffer : list A) (indices : list Z) (value : A)
  : result (list A) :=
  ks ← mapM (norm_index (length buffer)) indices;
  Ok (foldl (λ b k, <[k := value]> b) buffer ks).

Definition to_onehot (vec : list Z) (num_classes : nat) (fill : R)
  : result (tensor R) :=
  let size := length vec in
  let onehot_result := replicate (size * num_classes) (- fill)%R in
  let arange_inds := map Z.of_nat (seq 0 size) in
  data ← index_put onehot_result
            (zip_with Z.add vec (map (λ i, Z.of_nat num_classes * i) arange_inds))
            fill;
  Ok (Tensor [size; num_classes] data).

(** ** [diagonal_inds] *)
Definition diagonal_inds {A} (tensor : tensor A) : result (list Z) :=
  _ ← assert (bool_decide (2 ≤ dim tensor)%nat) "";
  _ ← assert (bool_decide (shape tensor !! 0%nat = shape tensor !! 1%nat)) "";
  let size := default 0%nat (shape tensor !! 0%nat) in
  let arange_inds := map Z.of_nat (seq 0 size) in
  Ok (map (λ i, (Z.of_nat size + 1) * i) arange_inds).

(** ** [gather_nd] *)

(** [index[:, col]] *)
Definition column (index : tensor Z) (col : nat) : list Z :=
  map (λ r, default 0 (r !! col)) (rows index).

(** The loop over the columns [nd - 2], ..., [0]. *)
Fixpoint gather_nd_loop {A} (x : tensor A) (index : tensor Z) (cols : list nat)
    (sel_inds : list Z) (mult_factor : Z) : list Z :=
  match cols with
  | [] => sel_inds
  | col :: cols' =>
      let sel_inds :=
        zip_with Z.add sel_inds (map (λ v, v * mult_factor) (column index col)) in
      let mult_factor :=
        mult_factor * Z.of_nat (default 0%nat (shape x !! col)) in
      gather_nd_loop x index cols' sel_inds mult_factor
  end.

(** [x.view(-1, dim)] for the last axis [dim] of [x]. *)
Definition view_rows {A} (x : tensor A) (dim : nat) : result (tensor A) :=
  if decide (dim = 0%nat) then Raise RuntimeError
  else Ok (Tensor [(numel (shape x) `div` dim)%nat; dim] (data x)).

Definition gather_nd {A} (x : tensor A) (index : tensor Z) : result (tensor A) :=
  let nd := (torch.dim x - 1)%nat in
  _ ← assert (bool_decide (0 < nd)%nat) "";
  _ ← assert (bool_decide (torch.dim index = 2%nat)) "";
  _ ← assert (bool_decide (shape index !! 1%nat = Some nd)) "";
  let dim := default 0%nat (last (shape x)) in
  let sel_inds := column index (nd - 1) in
  let mult_factor := Z.of_nat (default 0%nat (shape x !! (nd - 1)%nat)) in
  let sel_inds :=
    gather_nd_loop x index (reverse (seq 0 (nd - 1))) sel_inds mult_factor in
  flat ← view_rows x dim;
  torch.getitem flat (Tensor [length sel_inds] sel_inds).

(** ** [clip_grad_norm] and [grad_clip]

    A parameter is given by its size and its gradient, if it has one.
    Parameters are objects that the call changes in place: they live in a
    store, and the list of named parameters holds their locations.
    [verbose] is [False]: the report that it prints is not part of this
    model. *)
Record parameter : Type := Parameter_ { size : list nat; grad : option (list R) }.

(** [t.norm(2)] *)
Definition norm (t : list R) : R := sqrt (Rsum (map (λ v, v * v)%R t)).

(** The first loop: the sum of the squared norms of the gradients. *)
Definition sum_of_squares (store : nat → parameter)
    (named_parameters : list (string * nat)) : R :=
  foldl (λ total_norm np,
           match grad (store np.2) with
           | Some g => (total_norm + norm g ^ 2)%R
           | None => total_norm
           end) 0%R named_parameters.

(** [p.grad.data.mul_(clip_coef)] *)
Definition mul_ (store : nat → parameter) (p : nat) (clip_coef : R)
  : nat → parameter :=
  match grad (store p) with
  | Some g =>
      <[p := Parameter_ (size (store p)) (Some (map (λ v, v * clip_coef)%R g))]> store
  | None => store
  end.

Definition clip_grad_norm (store : nat → parameter)
    (named_parameters : list (string * nat)) (max_norm : R) (clip : bool)
  : R * (nat → parameter) :=
  let total_norm := sqrt (sum_of_squares store named_parameters) in
  let clip_coef := (max_norm / (total_norm + 1 / 1000000))%R in
  if bool_decide (clip_coef < 1)%R && clip
  then (total_norm,
        foldl (λ st np, mul_ st np.2 clip_coef) store named_parameters)
  else (total_norm, store).

(** [grad_clip(detector, clip, verbose)], the module being given by its
    [named_parameters()]; the norm that [clip_grad_norm] returns is
    dropped. *)
Definition grad_clip (store : nat → parameter) (detector : list (string * nat))
    (clip : R) : nat → parameter :=
  (clip_grad_norm store
     (filter (λ np, grad (store np.2) ≠ None) detector) clip true).2.

(** ** [transpose_packed_sequence_inds]

    [lengths] is a list of integers in the range of [int64]; [cum_add] is
    an array of 64-bit integers, [length_pointer] and the items of
    [new_lens] are integers of Python. *)

(** The inner loop.  [length_pointer] never exceeds [len(lengths) - 1], so
    that [lengths[length_pointer]] is in range. *)
Fixpoint lower_pointer (lengths : list Z) (i : Z) (length_pointer : nat) : nat :=
  match length_pointer with
  | O => O
  | S p =>
      if decide (lengths !!! length_pointer ≤ i)
      then lower_pointer lengths i p
      else length_pointer
  end.

(** The loop over [i]: the lists [new_inds] and [new_lens] that it builds. *)
Fixpoint transpose_loop (lengths : list Z) (steps : list Z) (cum_add : list Z)
    (length_pointer : nat) : list (list Z) * list Z :=
  match steps with
  | [] => ([], [])
  | i :: steps' =>
      let length_pointer := lower_pointer lengths i length_pointer in
      let new_ind := take (length_pointer + 1) cum_add in
      let cum_add :=
        map (λ v, np.int64 (v + 1)) (take (length_pointer + 1) cum_add)
        ++ drop (length_pointer + 1) cum_add in
      let rest := transpose_loop lengths steps' cum_add length_pointer in
      (new_ind :: rest.1, Z.of_nat (length_pointer + 1) :: rest.2)
  end.

Definition transpose_packed_sequence_inds (lengths : list Z)
  : outcome (list Z * list Z) :=
  let cum_add := np.cumsum ([0] ++ lengths) in
  max_len ← getitem lengths 0;
  let length_pointer := (length lengths - 1)%nat in
  steps ← range 0 max_len 1;
  let loop := transpose_loop lengths steps cum_add length_pointer in
  new_inds ← np.concatenate loop.1;
  Return (new_inds, loop.2).

(** ** [intersect_2d], on two-dimensional arrays of integers *)
Definition intersect_2d (x1 x2 : np.array2 Z) : outcome (np.array2 bool) :=
  if decide (np.ncols x1 ≠ np.ncols x2) then Throw (Builtin ValueError)
  else
    res ← np.equal (np.expand_last x1) (np.expand_first (np.T x2));
    Return (np.all_axis1 res).

(** ** [nonintersecting_2d_inds] *)
Definition nonintersecting_2d_inds (x : Z) : outcome (np.array2 Z) :=
  v ← np.ones x;
  let rs := np.rsub 1 (np.diag v) in
  let relations := np.column_stack (np.where_ rs) in
  relations.

End misc.

(** * Notions used to state what the helpers compute *)

Module misc_spec.
Import torch py.
#[local] Open Scope Z_scope.

(** [x[i0][i1]...[ik]] for the path [i0, i1, ..., ik]. *)
Definition at_path {A} (x : tensor A) (path : list Z) : result (tensor A) :=
  foldl (λ acc i, t ← acc; getitem_int t i) (Ok x) path.

(** Row [r] of a matrix of indices. *)
Definition index_row (index : tensor Z) (r : nat) : list Z :=
  default [] (rows index !! r).

(** The position of the multi-index [e 0, ..., e (m - 1)] in row-major
    order among the first [m] axes, of sizes [n 0], ..., [n (m - 1)]. *)
Fixpoint flat_position (n : nat → nat) (e : nat → Z) (m : nat) : Z :=
  match m with
  | O => 0
  | S m' => flat_position n e m' * Z.of_nat (n m') + e m'
  end.

(** The sum of a list of integers. *)
Definition total (l : list Z) : Z := foldr Z.add 0 l.

(** The indices [s], ..., [e - 1]. *)
Definition interval (se : Z * Z) : list Z := seqZ se.1 (se.2 - se.1).

(** [segs] cuts [l], from position [s] on, into maximal runs of equal
    values: every segment [(v, s, e)] starts where the one before it ends,
    is not empty, holds [v] at every position, and is followed by a
    segment of another value; the last one ends with [l]. *)
Fixpoint runs (l : list Z) (s : nat) (segs : list (Z * nat * nat)) : Prop :=
  match segs with
  | [] => s = length l
  | (v, s', e) :: rest =>
      s' = s ∧ (s < e)%nat
      ∧ (∀ j, (s ≤ j < e)%nat → l !! j = Some v)
      ∧ match rest with
        | (v', _, _) :: _ => v' ≠ v
        | [] => True
        end
      ∧ runs l e rest
  end.

(** A list of integers in strictly increasing order. *)
Definition increasing (l : list Z) : Prop :=
  ∀ i j x y, (i < j)%nat → l !! i = Some x → l !! j = Some y → x < y.

(** The number of anchors of a row of image sizes. *)
Definition anchors (row : R * R * R * R) : Z := int row.2.

(** The values that a segment stands for. *)
Definition expand_run (seg : Z * nat * nat) : list Z :=
  replicate (seg.2 - seg.1.2)%nat seg.1.1.

(** A list of integers in decreasing order, equal neighbours allowed. *)
Definition descending (l : list Z) : Prop :=
  ∀ b x y, l !! b = Some x → l !! S b = Some y → y ≤ x.

(** The number of sequences that are longer than [i]. *)
Definition longer (lengths : list Z) (i : Z) : nat :=
  length (filter (λ l, i < l) lengths).

(** Where sequence [b] starts when the sequences are laid out one after
    the other. *)
Definition start (lengths : list Z) (b : nat) : Z := total (take b lengths).

(** An array holds as many items as its shape says. *)
Definition well_shaped {A} (x : np.array2 A) : Prop :=
  length (np.items x) = (np.nrows x * np.ncols x)%nat.

End misc_spec.

(** Stepping through the state-and-exception monad. *)
Lemma bind_get {S B} (f : S → St S B) (s : S) : (get ≫= f) s = f s s.
Proof. done. Qed.

Lemma bind_lift_ok {S A B} (a : A) (f : A → St S B) (s : S) :
  (lift (Ok a) ≫= f) s = f a s.
Proof. done. Qed.

Lemma bind_lift_raise {S A B} (e : exn) (f : A → St S B) (s : S) :
  (lift (Raise e) ≫= f) s = (Raise e, s).
Proof. done. Qed.

Lemma bind_ok {S A B} (m : St S A) (f : A → St S B) (s s' : S) (a : A) :
  m s = (Ok a, s') → (m ≫= f) s = f a s'.
Proof. intros Hm. unfold mbind, St_bind. by rewrite Hm. Qed.

Lemma bind_raise {S A B} (m : St S A) (f : A → St S B) (s s' : S) (e : exn) :
  m s = (Raise e, s') → (m ≫= f) s = (Raise e, s').
Proof. intros Hm. unfold mbind, St_bind. by rewrite Hm. Qed.

Module torch_facts.
Import torch.

Section chunks.
Context {A : Type}.
Implicit Types (l : list A) (m : list (list A)).

Lemma length_chunks n w l : length (chunks n w l) = n.
Proof. revert l; induction n as [|n IH]; intros l; simpl; [done|by rewrite IH]. Qed.

Lemma lookup_chunks n w l i :
  i < n → chunks n w l !! i = Some (take w (drop (i * w) l)).
Proof.
  revert l i; induction n as [|n IH]; intros l i Hi; [lia|].
  destruct i as [|i]; simpl; [done|].
  rewrite IH by lia. by rewrite drop_drop.
Qed.

Lemma chunks_concat w m :
  Forall (λ r, length r = w) m → chunks (length m) w (concat m) = m.
Proof.
  induction 1 as [|r m Hr _ IH]; simpl; [done|].
  rewrite take_app_length' by done. rewrite drop_app_length' by done.
  by rewrite IH.
Qed.

Lemma concat_chunks n w l : length l = n * w → concat (chunks n w l) = l.
Proof.
  revert l; induction n as [|n IH]; intros l Hl; simpl in *.
  - by destruct l.
  - rewrite IH; [apply take_drop|]. rewrite length_drop. lia.
Qed.

Lemma length_concat_uniform w m :
  Forall (λ r, length r = w) m → length (concat m) = length m * w.
Proof. induction 1 as [|r m Hr _ IH]; simpl; [done|]. rewrite length_app. lia. Qed.
End chunks.

Lemma rows_rank2 {A} n w (d : list A) : rows (Tensor [n; w] d) = chunks n w d.
Proof. unfold rows; simpl. by rewrite Nat.mul_1_r. Qed.

Lemma slices_rank2 {A} n w (d : list A) : slices (Tensor [n; w] d) = chunks n w d.
Proof. unfold slices; simpl. by rewrite Nat.mul_1_r. Qed.

Lemma rows_of_rows {A} w (m : list (list A)) :
  Forall (λ r, length r = w) m → rows (of_rows w m) = m.
Proof. intros. unfold of_rows. rewrite rows_rank2. by apply chunks_concat. Qed.

Lemma wf_of_rows {A} w (m : list (list A)) :
  Forall (λ r, length r = w) m → wf (of_rows w m).
Proof. intros. unfold wf, of_rows; simpl. rewrite (length_concat_uniform w) by done. lia. Qed.


Import gat_spec.

Section tab.
Context {A : Type}.
Implicit Types (f g : nat → A) (l : list A).

Lemma length_tab n f : length (tab n f) = n.
Proof. unfold tab. by rewrite length_map, length_seq. Qed.

Lemma lookup_tab n f i : i < n → tab n f !! i = Some (f i).
Proof. intros. unfold tab. rewrite list_lookup_fmap, lookup_seq_lt by done. done. Qed.

Lemma lookup_tab_ge n f i : n ≤ i → tab n f !! i = None.
Proof. intros. apply lookup_ge_None_2. by rewrite length_tab. Qed.

Lemma tab_ext n f g : (∀ i, i < n → f i = g i) → tab n f = tab n g.
Proof.
  intros Hfg. unfold tab. apply map_ext_in. intros i Hi.
  apply Hfg. apply in_seq in Hi. lia.
Qed.

Lemma list_as_tab (d : A) n l : length l = n → l = tab n (λ i, default d (l !! i)).
Proof.
  intros <-. apply list_eq. intros i.
  destruct (decide (i < length l)) as [Hi|Hi].
  - rewrite lookup_tab by done. destruct (lookup_lt_is_Some_2 l i Hi) as [y Hy].
    by rewrite Hy.
  - rewrite lookup_tab_ge by lia. apply lookup_ge_None_2. lia.
Qed.

Lemma Forall_tab (P : A → Prop) n f : (∀ i, i < n → P (f i)) → Forall P (tab n f).
Proof.
  intros Hf. apply Forall_forall. intros y Hy.
  apply list_elem_of_lookup in Hy as [i Hi].
  assert (i < n) by (apply lookup_lt_Some in Hi; by rewrite length_tab in Hi).
  rewrite lookup_tab in Hi by done. injection Hi as <-. by apply Hf.
Qed.
End tab.

Lemma map_tab {A B} (g : A → B) n (f : nat → A) : map g (tab n f) = tab n (λ i, g (f i)).
Proof. unfold tab. by rewrite map_map. Qed.

Lemma zip_with_tab {A B D} (g : A → B → D) n (f : nat → A) (f' : nat → B) :
  zip_with g (tab n f) (tab n f') = tab n (λ i, g (f i) (f' i)).
Proof. unfold tab. generalize (seq 0 n). intros l. induction l; simpl; by f_equal. Qed.

Lemma zip_with_tab_l {A B D} (d : B) (g : A → B → D) n (f : nat → A) (v : list B) :
  length v = n → zip_with g (tab n f) v = tab n (λ i, g (f i) (default d (v !! i))).
Proof. intros Hv. rewrite (list_as_tab d n v Hv) at 1. apply zip_with_tab. Qed.

Lemma chunks_tab {A} n w (l : list A) :
  chunks n w l = tab n (λ i, take w (drop (i * w) l)).
Proof.
  apply list_eq. intros i. destruct (decide (i < n)).
  - by rewrite lookup_chunks, lookup_tab.
  - rewrite lookup_tab_ge by lia. apply lookup_ge_None_2. rewrite length_chunks. lia.
Qed.

Lemma concat_tab_length {A} n w (f : nat → list A) :
  (∀ i, i < n → length (f i) = w) → length (concat (tab n f)) = n * w.
Proof.
  intros Hf. rewrite (length_concat_uniform w), length_tab; [done|].
  by apply Forall_tab.
Qed.

Lemma chunks_concat_tab {A} n w (f : nat → list A) :
  (∀ i, i < n → length (f i) = w) → chunks n w (concat (tab n f)) = tab n f.
Proof.
  intros Hf. rewrite <-(length_tab n f) at 1. apply chunks_concat. by apply Forall_tab.
Qed.

(** Sums and dot products. *)

Lemma dot_comm u v : dot u v = dot v u.
Proof.
  unfold dot. revert v. induction u as [|a u IH]; intros [|b v]; simpl; try done.
  rewrite IH. lra.
Qed.

End torch_facts.

Module torch_ops.
Import torch gat_spec torch_facts.

Lemma result_bind_ok {A B} (a : A) (f : A → result B) : (Ok a ≫= f) = f a.
Proof. done. Qed.

Lemma result_bind_raise {A B} (e : exn) (f : A → result B) :
  (Raise e ≫= f) = Raise e.
Proof. done. Qed.

Lemma mapM_ok {A B} (g : A → result B) (h : A → B) (l : list A) :
  Forall (λ a, g a = Ok (h a)) l → mapM g l = Ok (map h l).
Proof.
  induction 1 as [|a l Ha _ IH]; [done|].
  cbn. rewrite Ha. cbn. rewrite IH. done.
Qed.

Lemma mapM_tab_ok {A B} (g : A → result B) (h : A → B) n (f : nat → A) :
  (∀ i, i < n → g (f i) = Ok (h (f i))) →
  mapM g (tab n f) = Ok (tab n (λ i, h (f i))).
Proof.
  intros Hg. rewrite (mapM_ok g h); [by rewrite map_tab|].
  by apply Forall_tab.
Qed.

(** Rows of a well-formed matrix. *)
Lemma rows_tab (x : tensor R) N F :
  shape x = [N; F] → rows x = tab N (row x).
Proof.
  intros Hs. destruct x as [s d]; simpl in *; subst s.
  unfold row. rewrite rows_rank2, chunks_tab.
  apply tab_ext. intros i Hi. by rewrite lookup_tab.
Qed.

Lemma row_length (x : tensor R) N F i :
  shape x = [N; F] → wf x → i < N → length (row x i) = F.
Proof.
  intros Hs Hwf Hi. destruct x as [s d]; unfold wf in *; simpl in *; subst s.
  unfold row. rewrite rows_rank2, chunks_tab, lookup_tab by done. simpl.
  rewrite length_take, length_drop. unfold numel in Hwf; simpl in Hwf. nia.
Qed.

Lemma projected_length C lin v h H :
  length (weight lin) = H * C → h < H → length (projected C lin v h) = C.
Proof.
  intros Hw Hh. unfold projected. rewrite length_take, length_drop, length_map. nia.
Qed.

(** [self.lin(x).view(-1, H, C)] *)
Lemma linear_view3 (lin : Linear) (x : tensor R) N H C :
  shape x = [N; in_features lin] →
  out_features lin = H * C → length (weight lin) = H * C → H * C ≠ 0 →
  (y ← linear lin x; view3 y H C)
  = Ok (tab N (λ n, tab H (projected C lin (row x n)))).
Proof.
  intros Hs Hout Hw Hpos. unfold linear. rewrite Hs. cbn.
  rewrite decide_True by done. cbn.
  unfold view3. cbn. rewrite Hout.
  rewrite decide_False by done.
  replace (N * (H * C * 1)) with (N * (H * C)) by lia.
  rewrite Nat.Div0.mod_mul. rewrite decide_True by done.
  rewrite Nat.div_mul by done.
  f_equal. rewrite (rows_tab x N (in_features lin)) by done.
  rewrite map_tab. rewrite chunks_concat_tab.
  - rewrite map_tab. apply tab_ext. intros n Hn. by rewrite chunks_tab.
  - intros i Hi. by rewrite length_map.
Qed.

(** [(x * att).sum(dim=-1)] *)
Lemma mul_sum_tab N H (p : nat → nat → list R) (att : list (list R)) :
  length att = H →
  mul_sum (tab N (λ n, tab H (p n))) att
  = tab N (λ n, tab H (λ h, dot (att_row att h) (p n h))).
Proof.
  intros Hatt. unfold mul_sum. rewrite map_tab. apply tab_ext. intros n Hn.
  rewrite (zip_with_tab_l [] _ H) by done.
  apply tab_ext. intros h Hh. unfold att_row. apply dot_comm.
Qed.

(** [index_select] with indices in range. *)
Lemma index_select_tab {A} n (f : nat → A) E (idx : nat → Z) :
  (∀ e, e < E → (0 ≤ idx e < Z.of_nat n)%Z) →
  index_select (tab n f) (tab E idx) = Ok (tab E (λ e, f (Z.to_nat (idx e)))).
Proof.
  intros Hidx. unfold index_select.
  apply (mapM_tab_ok _ (λ i, f (Z.to_nat i))).
  intros e He. specialize (Hidx e He). rewrite decide_True by lia.
  rewrite lookup_tab by lia. done.
Qed.

End torch_ops.

Module pyg_facts.
Import torch gat_spec torch_facts torch_ops.

Lemma check_index_tab E (idx : nat → Z) N :
  (∀ e, e < E → (0 ≤ idx e < Z.of_nat N)%Z) →
  pyg.check_index (tab E idx) N = Ok (tab E (λ e, Z.to_nat (idx e))).
Proof.
  intros Hidx. unfold pyg.check_index.
  apply (mapM_tab_ok _ Z.to_nat). intros e He.
  by rewrite decide_True by auto.
Qed.

(** The accumulation of [scatter], seen through an additive evaluation
    [ev] of the accumulated values. *)
Section scatter.
Context {V : Type} (vadd : V → V → V) (zero : V).
Context (P : V → Prop) (ev : V → R).
Hypothesis P_zero : P zero.
Hypothesis ev_zero : ev zero = 0%R.
Hypothesis P_add : ∀ a b, P a → P b → P (vadd a b).
Hypothesis ev_add : ∀ a b, P a → P b → ev (vadd a b) = (ev a + ev b)%R.

Lemma scatter_fold (idx : nat → nat) (m : nat → V) (t : nat) (es : list nat) :
  (∀ e, e ∈ es → P (m e)) →
  let r := foldr (λ p acc, if decide (p.1 = t) then vadd p.2 acc else acc)
             zero (zip (map idx es) (map m es)) in
  P r ∧ ev r = Rsum (map (λ e, ev (m e)) (filter (λ e, idx e = t) es)).
Proof using P_zero ev_zero P_add ev_add.
  induction es as [|e es IH]; intros Hm; simpl.
  - done.
  - destruct IH as [IHP IHev]; [intros; apply Hm; by right|].
    assert (P (m e)) by (apply Hm; by left).
    rewrite filter_cons. destruct (decide (idx e = t)); simpl.
    + split; [by apply P_add|]. rewrite ev_add by done. by rewrite IHev.
    + done.
Qed.

Lemma scatter_sum_tab E (idx : nat → nat) (m : nat → V) N :
  pyg.scatter_sum vadd zero (tab E m) (tab E idx) N
  = tab N (λ t, foldr (λ p acc, if decide (p.1 = t) then vadd p.2 acc else acc)
                  zero (zip (map idx (seq 0 E)) (map m (seq 0 E)))).
Proof. done. Qed.
End scatter.

(** Vectors of a fixed length under pointwise addition. *)
Lemma vec_add_length (a b : list R) n :
  length a = n → length b = n → length (zip_with Rplus a b) = n.
Proof. intros. rewrite length_zip_with. lia. Qed.

Lemma vec_add_lookup (a b : list R) n h :
  length a = n → length b = n →
  default 0%R (zip_with Rplus a b !! h)
  = (default 0 (a !! h) + default 0 (b !! h))%R.
Proof.
  intros Ha Hb. rewrite lookup_zip_with.
  destruct (a !! h) as [x|] eqn:Hx; simpl.
  - destruct (b !! h) as [y|] eqn:Hy; simpl; [done|].
    apply lookup_lt_Some in Hx. apply lookup_ge_None in Hy. lia.
  - destruct (b !! h) as [y|] eqn:Hy; simpl; [|lra].
    apply lookup_lt_Some in Hy. apply lookup_ge_None in Hx. lia.
Qed.

Lemma replicate_lookup_default (n h : nat) : default 0%R (replicate n 0%R !! h) = 0%R.
Proof.
  destruct (replicate n 0%R !! h) as [y|] eqn:Hy; [|done].
  apply lookup_replicate in Hy as [-> _]. done.
Qed.

(** [softmax] on logits given entry by entry. *)
Lemma softmax_tab E H N (z : nat → nat → R) (idx : nat → Z) :
  (∀ e, e < E → (0 ≤ idx e < Z.of_nat N)%Z) →
  pyg.softmax (tab E (λ e, tab H (z e))) (tab E idx) N H
  = Ok (tab E (λ e, tab H (λ h,
          (exp (z e h)
           / Rsum (map (λ e', exp (z e' h))
                     (filter (λ e', Z.to_nat (idx e') = Z.to_nat (idx e))
                        (seq 0 E))))%R))).
Proof.
  intros Hidx. unfold pyg.softmax. rewrite (check_index_tab E idx N Hidx). cbn.
  f_equal. rewrite map_tab.
  erewrite (tab_ext E (λ i, map exp (tab H (z i)))); [|intros; apply map_tab].
  rewrite scatter_sum_tab. rewrite zip_with_tab.
  apply tab_ext. intros e He.
  assert (Z.to_nat (idx e) < N) as Ht by (specialize (Hidx e He); lia).
  rewrite lookup_tab by done. simpl.
  set (r := foldr _ _ _).
  assert (length r = H ∧ ∀ h, default 0%R (r !! h)
            = Rsum (map (λ e', default 0%R (tab H (λ h0, exp (z e' h0)) !! h))
                      (filter (λ e', Z.to_nat (idx e') = Z.to_nat (idx e)) (seq 0 E))))
    as [Hlen Hev].
  { split.
    - apply (scatter_fold (zip_with Rplus) (replicate H 0%R) (λ v, length v = H)
               (λ _, 0%R)); try done.
      + by rewrite length_replicate.
      + intros; by apply vec_add_length.
      + intros; lra.
      + intros e' _. by rewrite length_tab.
    - intros h.
      apply (scatter_fold (zip_with Rplus) (replicate H 0%R) (λ v, length v = H)
               (λ v, default 0%R (v !! h))).
      + by rewrite length_replicate.
      + apply replicate_lookup_default.
      + intros; by apply vec_add_length.
      + intros; by apply (vec_add_lookup _ _ H).
      + intros e' _. by rewrite length_tab. }
  rewrite (zip_with_tab_l 0%R _ H) by done.
  apply tab_ext. intros h Hh. rewrite Hev. f_equal. f_equal.
  apply map_ext. intros e'. by rewrite lookup_tab.
Qed.

End pyg_facts.

Module gat_facts.
Import torch gat_spec torch_facts torch_ops pyg_facts.

Lemma dropout_ok (x : list R) (p : R) (training : bool) (g : rng) :
  (0 <= p <= 1)%R →
  ∃ d g', torch.dropout x p training g = (Ok d, g') ∧ length d = length x
          ∧ (training = false → d = x ∧ g' = g).
Proof.
  intros Hp. unfold torch.dropout. rewrite decide_True by done.
  destruct training; simpl.
  - eexists _, _. split; [done|]. split; [|done].
    rewrite length_zip_with, length_map, length_seq. lia.
  - by eexists _, _.
Qed.

Lemma with_rng_ok {S A} (m : St rng A) (s : S) (g g' : rng) (r : result A) :
  m g = (r, g') → gat.with_rng m (s, g) = (r, (s, g')).
Proof. intros Hm. unfold gat.with_rng. by rewrite Hm. Qed.

Lemma iadd_tab E H (a b : nat → nat → R) :
  gat.iadd (tab E (λ e, tab H (a e))) (tab E (λ e, tab H (b e)))
  = Ok (tab E (λ e, tab H (λ h, (a e h + b e h)%R))).
Proof.
  unfold gat.iadd. rewrite decide_True by (by rewrite !length_tab).
  f_equal. rewrite zip_with_tab. apply tab_ext. intros e _. apply zip_with_tab.
Qed.

Lemma message_tab (self : gat.t) (g : rng) E H size_i
    (xj : nat → nat → list R) (aj ae : nat → nat → R)
    (ai : option (nat → nat → R)) (idx : nat → Z) :
  H = gat.heads self →
  (0 <= gat.dropout self <= 1)%R →
  (∀ e, e < E → (0 ≤ idx e < Z.of_nat size_i)%Z) →
  let z e h := leaky_relu (gat.negative_slope self)
                 (aj e h + from_option (λ a, a e h) 0 ai + ae e h)%R in
  let alpha := of_rows H (tab E (λ e, tab H (soft E z (λ e, Z.to_nat (idx e)) e))) in
  ∃ d g',
    torch.dropout (data alpha) (gat.dropout self) (gat.training self) g = (Ok d, g')
    ∧ length d = E * H
    ∧ gat.message (tab E (λ e, tab H (xj e))) (tab E (λ e, tab H (aj e)))
        ((λ a, tab E (λ e, tab H (a e))) <$> ai) (tab E (λ e, tab H (ae e)))
        (tab E idx) size_i (self, g)
      = (Ok (tab E (λ e, tab H (λ h,
               map (λ v, (v * default 0 (d !! (e * H + h)%nat))%R) (xj e h)))),
         (gat.with_alpha self (Some alpha), g')).
Proof.
  intros -> Hp Hidx z alpha.
  destruct (dropout_ok (data alpha) (gat.dropout self) (gat.training self) g Hp)
    as (d & g' & Hd & Hlen & _).
  assert (length d = E * gat.heads self) as Hlen'.
  { rewrite Hlen. unfold alpha. simpl. apply concat_tab_length.
    intros; apply length_tab. }
  exists d, g'. split; [done|]. split; [done|].
  unfold gat.message. cbn.
  assert (gat.iadd
            match (λ a, tab E (λ e, tab (gat.heads self) (a e))) <$> ai with
            | Some alpha_i =>
                zip_with (zip_with Rplus) (tab E (λ e, tab (gat.heads self) (aj e))) alpha_i
            | None => tab E (λ e, tab (gat.heads self) (aj e))
            end (tab E (λ e, tab (gat.heads self) (ae e)))
          = Ok (tab E (λ e, tab (gat.heads self)
                  (λ h, (aj e h + from_option (λ a, a e h) 0 ai + ae e h)%R)))) as ->.
  { destruct ai as [a|]; simpl.
    - rewrite zip_with_tab.
      erewrite (tab_ext E (λ i, zip_with _ _ _)); [|intros; apply zip_with_tab].
      apply iadd_tab.
    - rewrite iadd_tab. f_equal. apply tab_ext; intros e _.
      apply tab_ext; intros h _. lra. }
  rewrite bind_get, bind_lift_ok. cbn [fst].
  rewrite map_tab.
  erewrite (tab_ext E (λ i, map _ _)); [|intros; apply map_tab].
  rewrite (softmax_tab E (gat.heads self) size_i) by done.
  rewrite bind_lift_ok.
  erewrite bind_ok; [|reflexivity].
  erewrite bind_ok; [|apply with_rng_ok; exact Hd].
  cbn. rewrite length_tab. unfold mret, St_ret.
  apply (f_equal2 pair); [|reflexivity]. f_equal.
  rewrite chunks_tab, zip_with_tab.
  apply tab_ext. intros e He.
  rewrite (zip_with_tab_l 0%R _ (gat.heads self)).
  - apply tab_ext. intros h Hh. apply map_ext. intros v. f_equal. f_equal.
    rewrite lookup_take_lt by done. by rewrite lookup_drop.
  - rewrite length_take, length_drop. nia.
Qed.


(** The two rows of an edge list of shape [2, E]. *)
Lemma slices_edge_index (ei : tensor Z) E :
  shape ei = [2; E] → wf ei →
  slices ei !! 0 = Some (tab E (λ e, default 0%Z (data ei !! e)))
  ∧ slices ei !! 1 = Some (tab E (λ e, default 0%Z (data ei !! (E + e)))).
Proof.
  intros Hs Hwf. destruct ei as [s d]; unfold wf in Hwf; simpl in *; subst s.
  unfold numel in Hwf; simpl in Hwf.
  rewrite slices_rank2. rewrite !lookup_chunks by lia. split; f_equal.
  - rewrite (list_as_tab 0%Z E (take E (drop (0 * E) d))).
    + apply tab_ext; intros e He. by rewrite lookup_take_lt, lookup_drop.
    + rewrite length_take, length_drop. lia.
  - rewrite (list_as_tab 0%Z E (take E (drop (1 * E) d))).
    + apply tab_ext; intros e He. rewrite lookup_take_lt, lookup_drop by done.
      do 2 f_equal. lia.
    + rewrite length_take, length_drop. lia.
Qed.

Lemma propagate_tab (self : gat.t) (g : rng) (ei : tensor Z) E H Ns
    (pl : nat → nat → list R) (al ae : nat → nat → R)
    (tgt : option (nat * (nat → nat → list R) * (nat → nat → R))) :
  H = gat.heads self →
  (0 <= gat.dropout self <= 1)%R →
  shape ei = [2; E] → wf ei →
  let src e := Z.to_nat (default 0%Z (data ei !! e)) in
  let dst e := Z.to_nat (default 0%Z (data ei !! (E + e))) in
  (∀ e, e < E → (0 ≤ default 0 (data ei !! e) < Z.of_nat Ns)%Z) →
  (∀ e, e < E → (0 ≤ default 0 (data ei !! (E + e)%nat)
                 < Z.of_nat (from_option (λ t, t.1.1) Ns tgt))%Z) →
  let size_i := match tgt with
                | Some (S n, _, _) => S n
                | _ => Ns
                end in
  let z e h := leaky_relu (gat.negative_slope self)
                 (al (src e) h + from_option (λ t, t.2 (dst e) h) 0 tgt + ae e h)%R in
  let alpha := of_rows H (tab E (λ e, tab H (soft E z dst e))) in
  ∃ d g',
    torch.dropout (data alpha) (gat.dropout self) (gat.training self) g = (Ok d, g')
    ∧ length d = E * H
    ∧ gat.propagate ei
        (tab Ns (λ n, tab H (pl n)),
         (λ t, tab t.1.1 (λ n, tab H (t.1.2 n))) <$> tgt)
        (tab Ns (λ n, tab H (al n)),
         (λ t, tab t.1.1 (λ n, tab H (t.2 n))) <$> tgt)
        (tab E (λ e, tab H (ae e))) None (self, g)
      = (Ok (tab size_i
               (scattered (zip_with (zip_with Rplus))
                  (replicate H (replicate (gat.out_channels self) 0%R)) E dst
                  (λ e, tab H (λ h,
                     map (λ v, (v * default 0 (d !! (e * H + h)%nat))%R)
                       (pl (src e) h))))),
         (gat.with_alpha self (Some alpha), g')).
Proof.
  intros -> Hp Hs Hwf src dst Hsrc Hdst size_i z alpha.
  destruct (slices_edge_index ei E Hs Hwf) as [Hj Hi].
  assert (∀ e, e < E → (0 ≤ default 0 (data ei !! (E + e)%nat) < Z.of_nat size_i)%Z)
    as Hdst'.
  { intros e He. specialize (Hdst e He). unfold size_i.
    destruct tgt as [[[[|n] pr] ar]|]; simpl in *; lia. }
  destruct (message_tab self g E (gat.heads self) size_i
              (λ e h, pl (src e) h) (λ e h, al (src e) h) ae
              ((λ t e h, t.2 (dst e) h) <$> tgt)
              (λ e, default 0%Z (data ei !! (E + e))) eq_refl Hp Hdst')
    as (d & g' & Hd & Hlen & Hmsg).
  exists d, g'. split; [|split; [done|]].
  { destruct tgt; exact Hd. }
  unfold gat.propagate. rewrite bind_get. cbn [fst snd].
  unfold dim. rewrite Hs. simpl length.
  simpl (_ !! 0). rewrite !bool_decide_eq_true_2 by done.
  change (assert true "") with (Ok (A:=unit) tt). rewrite !bind_lift_ok.
  rewrite Hj, Hi. simpl default.
  assert (∃ ts, (match (λ t, tab t.1.1 (λ n, tab (gat.heads self) (t.1.2 n))) <$> tgt with
                 | Some x_r => pyg.set_size (None, None) true (length x_r)
                 | None => Ok (None, None)
                 end = Ok ts)
                ∧ pyg.set_size ts false (length (tab Ns (λ n, tab (gat.heads self) (pl n))))
                  = Ok (Some Ns, ts.2)
                ∧ match ts.2 with Some (S n) => S n | _ => Ns end = size_i)
    as (ts & -> & Hts & Hsz).
  { destruct tgt as [[[Nd pr] ar]|]; simpl.
    - eexists. split; [done|]. rewrite !length_tab. split; [done|].
      simpl. by destruct Nd.
    - eexists. split; [done|]. rewrite !length_tab. done. }
  rewrite bind_lift_ok. rewrite Hts, bind_lift_ok.
  rewrite !(index_select_tab Ns _ E) by done. rewrite !bind_lift_ok.
  cbn [fst snd default].
  assert (match (λ t, tab t.1.1 (λ n, tab (gat.heads self) (t.2 n))) <$> tgt with
          | Some a =>
              r ← index_select a (tab E (λ e, default 0%Z (data ei !! (E + e))));
              Ok (Some r)
          | None => Ok None
          end
          = Ok ((λ a, tab E (λ e, tab (gat.heads self) (a e)))
                  <$> ((λ t e h, t.2 (dst e) h) <$> tgt))) as ->.
  { destruct tgt as [[[Nd pr] ar]|]; simpl; [|done].
    rewrite (index_select_tab Nd _ E) by done. done. }
  rewrite bind_lift_ok. cbn [fst snd]. simpl (default 0 (Some Ns)).
  change (Datatypes.id Ns) with Ns. rewrite Hsz.
  erewrite bind_ok; [|exact Hmsg].
  rewrite (check_index_tab E _ size_i Hdst'). rewrite bind_lift_ok.
  unfold mret, St_ret. apply (f_equal2 pair); [done|].
  by destruct tgt.
Qed.

End gat_facts.

Module post_facts.
Import torch gat_spec torch_facts torch_ops pyg_facts gat_facts.

Lemma get2_cons_0 r m c : get2 (r :: m) 0 c = default 0%R (r !! c).
Proof. done. Qed.

Lemma get2_cons_S r m h c : get2 (r :: m) (S h) c = get2 m h c.
Proof. done. Qed.

Lemma get2_tab H (f : nat → list R) h c :
  h < H → get2 (tab H f) h c = default 0%R (f h !! c).
Proof. intros. unfold get2. by rewrite lookup_tab. Qed.

Lemma mat_add_shape H C a b :
  mat_shape H C a → mat_shape H C b → mat_shape H C (zip_with (zip_with Rplus) a b).
Proof.
  intros [Ha Fa] [Hb Fb]. split; [rewrite length_zip_with; lia|].
  clear Ha Hb. revert b Fb. induction Fa as [|r a Hr _ IH]; intros b Fb; [done|].
  destruct b as [|r' b]; simpl; [done|]. apply Forall_cons in Fb as [Hr' Fb].
  constructor; [|by apply IH]. by apply vec_add_length.
Qed.

Lemma mat_add_get2 H C a b h c :
  mat_shape H C a → mat_shape H C b →
  get2 (zip_with (zip_with Rplus) a b) h c = (get2 a h c + get2 b h c)%R.
Proof.
  intros [Ha Fa] [Hb Fb]. revert H h b Ha Hb Fb.
  induction Fa as [|r a Hr _ IH]; intros H h b Ha Hb Fb.
  - simpl in *. destruct b; [|simpl in *; lia]. unfold get2; simpl. lra.
  - destruct b as [|r' b]; [simpl in *; lia|]. apply Forall_cons in Fb as [Hr' Fb].
    destruct h as [|h]; simpl.
    + rewrite !get2_cons_0. by apply (vec_add_lookup _ _ C).
    + rewrite !get2_cons_S. simpl in *. apply (IH (length a)); [done|lia|done].
Qed.

Lemma mat_zero_shape H C : mat_shape H C (replicate H (replicate C 0%R)).
Proof.
  split; [by rewrite length_replicate|].
  apply Forall_replicate. by rewrite length_replicate.
Qed.

Lemma mat_zero_get2 H C h c : get2 (replicate H (replicate C 0%R)) h c = 0%R.
Proof.
  unfold get2. destruct (replicate H _ !! h) as [r|] eqn:Hr; simpl.
  - apply lookup_replicate in Hr as [-> _]. apply replicate_lookup_default.
  - done.
Qed.

(** What [aggregate] leaves in row [t]. *)
Lemma scattered_mat E H C (dst : nat → nat) (msg : nat → list (list R)) t :
  (∀ e, e < E → mat_shape H C (msg e)) →
  let r := scattered (zip_with (zip_with Rplus)) (replicate H (replicate C 0%R))
             E dst msg t in
  mat_shape H C r
  ∧ ∀ h c, get2 r h c
           = Rsum (map (λ e, get2 (msg e) h c) (filter (λ e, dst e = t) (seq 0 E))).
Proof.
  intros Hmsg r.
  assert (∀ e, e ∈ seq 0 E → mat_shape H C (msg e)) as Hmsg'.
  { intros e He. apply Hmsg. apply elem_of_seq in He. lia. }
  split.
  - apply (scatter_fold (zip_with (zip_with Rplus)) (replicate H (replicate C 0%R))
             (mat_shape H C) (λ _, 0%R)); try done.
    + apply mat_zero_shape.
    + apply mat_add_shape.
    + intros; lra.
  - intros h c.
    apply (scatter_fold (zip_with (zip_with Rplus)) (replicate H (replicate C 0%R))
             (mat_shape H C) (λ m, get2 m h c)); try done.
    + apply mat_zero_shape.
    + apply mat_zero_get2.
    + apply mat_add_shape.
    + intros. by apply (mat_add_get2 H C).
Qed.

Lemma tab_add {A} n m (f : nat → A) :
  tab (n + m) f = tab n f ++ tab m (λ i, f (n + i)).
Proof.
  unfold tab. rewrite seq_app, map_app. f_equal. simpl.
  replace (seq n m) with (seq (n + 0) m) by (f_equal; lia).
  rewrite <-(fmap_add_seq n 0 m). by rewrite <-list_fmap_compose.
Qed.

(** [out.view(-1, H * C)] on one node. *)
Lemma concat_mat_tab H C m :
  mat_shape H C m →
  concat m = tab (H * C) (λ k, get2 m (k `div` C) (k `mod` C)).
Proof.
  intros [Hl Fm]. revert H Hl. induction Fm as [|r m Hr _ IH]; intros H Hl.
  - simpl in Hl. subst. done.
  - simpl in Hl. subst H. simpl. rewrite tab_add. f_equal.
    + rewrite (list_as_tab 0%R C r Hr) at 1. apply tab_ext. intros k Hk.
      rewrite Nat.div_small, Nat.mod_small by done. done.
    + rewrite (IH (length m) eq_refl). apply tab_ext. intros k Hk.
      assert (C ≠ 0) by (intros ->; lia).
      replace (C + k) with (k + 1 * C) by lia.
      rewrite Nat.div_add, Nat.Div0.mod_add by done.
      replace (k `div` C + 1) with (S (k `div` C)) by lia. done.
Qed.

(** [out.mean(dim=1)] on one node. *)
Lemma foldr_vec_sum C m :
  Forall (λ r, length r = C) m →
  let v := foldr (zip_with Rplus) (replicate C 0%R) m in
  length v = C
  ∧ ∀ c, default 0%R (v !! c) = Rsum (map (λ h, get2 m h c) (seq 0 (length m))).
Proof.
  induction 1 as [|r m Hr _ [IHl IHv]]; simpl.
  - split; [by rewrite length_replicate|]. intros c. apply replicate_lookup_default.
  - split; [by apply vec_add_length|]. intros c.
    rewrite (vec_add_lookup _ _ C) by done. rewrite IHv, get2_cons_0.
    f_equal. rewrite <-fmap_S_seq. rewrite <-list_fmap_compose. done.
Qed.

Lemma mean_heads_tab H C m :
  mat_shape H C m →
  gat.mean_heads H C m
  = tab C (λ c, (Rsum (map (λ h, get2 m h c) (seq 0 H)) / INR H)%R).
Proof.
  intros [Hl Fm]. unfold gat.mean_heads.
  destruct (foldr_vec_sum C m Fm) as [Hlen Hv]. rewrite Hl in Hv.
  rewrite (list_as_tab 0%R C _ Hlen). rewrite map_tab.
  apply tab_ext. intros c _. by rewrite Hv.
Qed.

(** Broadcast addition of a vector to every row. *)
Lemma expand_vec {A} W (r : list A) : length r = W → expand [W] [W] r = r.
Proof.
  intros Hr. simpl. rewrite decide_True by done.
  rewrite map_id. apply concat_chunks. unfold numel; simpl. lia.
Qed.

Lemma zip_rows_bias (F : nat → list R) (b : list R) (es : list nat) :
  (∀ e, length (F e) = length b) →
  zip_with Rplus (concat (map F es)) (concat (replicate (length es) b))
  = concat (map (λ e, zip_with Rplus (F e) b) es).
Proof.
  intros HF. induction es as [|e es IH]; simpl; [done|].
  rewrite zip_with_app by apply HF. by rewrite IH.
Qed.

Lemma iadd_bias_tab N W (f : nat → nat → R) (b : list R) :
  length b = W →
  gat.iadd_bias (of_rows W (tab N (λ n, tab W (f n)))) b
  = Ok (of_rows W (tab N (λ n, tab W (λ k, (f n k + default 0 (b !! k))%R)))).
Proof.
  intros Hb. unfold gat.iadd_bias, add, of_rows. cbn [shape data].
  rewrite !length_tab, Hb.
  assert (broadcast_shapes [N; W] [W] = Some [N; W]) as ->.
  { unfold broadcast_shapes. cbn. rewrite decide_True by done. done. }
  cbn [length pad_shape replicate app Nat.sub].
  rewrite result_bind_ok. cbn [shape]. rewrite decide_True by done. f_equal. f_equal.
  assert (expand [N; W] [N; W] (concat (tab N (λ n, tab W (f n))))
          = concat (tab N (λ n, tab W (f n)))) as ->.
  { cbn [expand]. rewrite decide_True by done.
    replace (numel [W]) with W by (unfold numel; simpl; lia).
    rewrite chunks_concat_tab by (intros; apply length_tab).
    f_equal. rewrite map_tab. apply tab_ext. intros n _.
    apply expand_vec, length_tab. }
  assert (expand [1; W] [N; W] b = concat (replicate N b)) as ->.
  { cbn [expand]. destruct (decide (1 = N)) as [<-|].
    - simpl. replace (numel [W]) with W by (unfold numel; simpl; lia).
      rewrite firstn_all2 by lia. rewrite decide_True by done.
      rewrite map_id, !app_nil_r. apply concat_chunks.
      unfold numel; simpl; lia.
    - f_equal. f_equal. by apply expand_vec. }
  unfold tab at 1. rewrite <-(length_seq N 0) at 2.
  rewrite (zip_rows_bias (λ n, tab W (f n)) b (seq 0 N))
    by (intros; rewrite length_tab; done).
  f_equal. apply tab_ext. intros n _.
  by rewrite (zip_with_tab_l 0%R _ W).
Qed.

End post_facts.

Module forward_facts.
Import torch gat_spec torch_facts torch_ops pyg_facts gat_facts post_facts.

Lemma project_nodes (self : gat.t) (x : gat.x_arg) ei ea :
  valid_module self → valid_input self x ei ea →
  let H := gat.heads self in
  let C := gat.out_channels self in
  match x with
  | gat.XTensor x =>
      _ ← assert (bool_decide (dim x = 2))
            "Static graphs not supported in `GATConv`.";
      x_l ← (y ← linear (gat.lin_l self) x; view3 y H C);
      Ok (x_l, Some x_l, mul_sum x_l (gat.att_l self),
          Some (mul_sum x_l (gat.att_r self)))
  | gat.XPair x0 x1 =>
      _ ← assert (bool_decide (dim x0 = 2))
            "Static graphs not supported in `GATConv`.";
      x_l ← (y ← linear (gat.lin_l self) x0; view3 y H C);
      let alpha_l := mul_sum x_l (gat.att_l self) in
      match x1 with
      | Some x_r =>
          x_r ← (y ← linear (gat.lin_r self) x_r; view3 y H C);
          Ok (x_l, Some x_r, alpha_l, Some (mul_sum x_r (gat.att_r self)))
      | None => Ok (x_l, None, alpha_l, None)
      end
  end
  = Ok (tab (nrows (source x)) (λ n, tab H (projected_source self x n)),
        (λ t, tab t.1.1 (λ n, tab H (t.1.2 n))) <$> target_side self x,
        tab (nrows (source x))
          (λ n, tab H (λ h, dot (att_row (gat.att_l self) h)
                              (projected_source self x n h))),
        (λ t, tab t.1.1 (λ n, tab H (t.2 n))) <$> target_side self x).
Proof.
  intros [Hpos [Hl1 Hl2] [Hr1 Hr2] _ Hal Har _ _ _] [[Hs Hswf] Ht _ _ _ _] H C.
  destruct x as [x|x0 [x1|]]; simpl in *.
  - unfold dim. rewrite Hs. simpl length. rewrite bool_decide_eq_true_2 by done.
    unfold assert. rewrite result_bind_ok.
    rewrite (linear_view3 _ x (nrows x) H C) by done. rewrite result_bind_ok.
    rewrite !mul_sum_tab by done. done.
  - unfold dim. rewrite Hs. simpl length. rewrite bool_decide_eq_true_2 by done.
    unfold assert. rewrite result_bind_ok.
    rewrite (linear_view3 _ x0 (nrows x0) H C) by done. rewrite result_bind_ok.
    destruct (Ht x1 eq_refl) as [Hs1 Hwf1].
    rewrite (linear_view3 _ x1 (nrows x1) H C) by done. rewrite result_bind_ok.
    rewrite !mul_sum_tab by done. done.
  - unfold dim. rewrite Hs. simpl length. rewrite bool_decide_eq_true_2 by done.
    unfold assert. rewrite result_bind_ok.
    rewrite (linear_view3 _ x0 (nrows x0) H C) by done. rewrite result_bind_ok.
    rewrite !mul_sum_tab by done. done.
Qed.

Lemma project_edges (self : gat.t) (x : gat.x_arg) ei ea :
  valid_module self → valid_input self x ei ea →
  let H := gat.heads self in
  let C := gat.out_channels self in
  (y ← linear (gat.lin_e self) ea; view3 y H C)
  = Ok (tab (num_edges ei) (λ e, tab H (projected_edge self ea e))).
Proof.
  intros [Hpos _ _ [He1 He2] _ _ _ _ _] [_ _ _ _ _ [Hs Hwf]] H C.
  by rewrite (linear_view3 _ ea (num_edges ei) H C).
Qed.


Lemma message_mat (self : gat.t) (x : gat.x_arg) ei (d : list R) e :
  valid_module self →
  let H := gat.heads self in
  let C := gat.out_channels self in
  let m := tab H (λ h, map (λ v, (v * default 0 (d !! (e * H + h)%nat))%R)
                         (projected_source self x (edge_src ei e) h)) in
  mat_shape H C m ∧ ∀ h c, h < H → get2 m h c = message self x ei d e h c.
Proof.
  intros [Hpos [Hl1 Hl2] _ _ _ _ _ _ _] H C m. split; [split|].
  - apply length_tab.
  - apply Forall_tab. intros h Hh. rewrite length_map.
    by apply (projected_length _ _ _ _ H).
  - intros h c Hh. unfold m. rewrite get2_tab by done. unfold message.
    rewrite list_lookup_fmap.
    destruct (projected_source self x (edge_src ei e) h !! c); simpl; [done|lra].
Qed.

Lemma attention_soft (self : gat.t) (x : gat.x_arg) ei ea E e h :
  num_edges ei = E →
  soft E (λ e h, leaky_relu (gat.negative_slope self)
                   (dot (att_row (gat.att_l self) h)
                        (projected_source self x (edge_src ei e) h)
                    + from_option (λ t, t.2 (edge_dst ei e) h) 0 (target_side self x)
                    + dot (att_row (gat.att_e self) h) (projected_edge self ea e h))%R)
    (edge_dst ei) e h
  = attention self x ei ea e h.
Proof.
  intros <-. unfold soft, attention, score, incoming, logit, projected_target,
    target_side.
  destruct (target x); reflexivity.
Qed.

(** [forward] computes the attention weights and the output that the
    specification describes, and leaves the cache empty. *)
Theorem forward_spec (self : gat.t) (x : gat.x_arg) (ei : tensor Z)
    (ea : tensor R) (raw : option bool) (g : rng) :
  valid_module self → valid_input self x ei ea →
  ∃ d g',
    torch.dropout (data (attention_tensor self x ei ea))
      (gat.dropout self) (gat.training self) g = (Ok d, g')
    ∧ length d = num_edges ei * gat.heads self
    ∧ gat.forward x ei ea None raw (self, g)
      = (Ok (match raw with
             | Some _ => gat.OutAttention (output_tensor self x ei d) ei
                           (attention_tensor self x ei ea)
             | None => gat.Out (output_tensor self x ei d)
             end),
         (clear_alpha self, g')).
Proof.
  intros Hm Hi.
  pose proof (project_nodes self x ei ea Hm Hi) as Hnodes.
  pose proof (project_edges self x ei ea Hm Hi) as Hedges.
  destruct Hm as [Hpos Hll Hlr Hle Hal Har Hae Hbias Hp].
  destruct Hi as [[Hs Hswf] Ht [Hes Hewf] Hsrc Hdst [Has Hawf]].
  set (E := num_edges ei) in *.
  set (H := gat.heads self) in *. set (C := gat.out_channels self) in *.
  assert (from_option (λ t, t.1.1) (nrows (source x)) (target_side self x)
          = from_option nrows (nrows (source x)) (target x)) as Hnt.
  { unfold target_side. by destruct (target x). }
  destruct (propagate_tab self g ei E H (nrows (source x))
              (projected_source self x)
              (λ n h, dot (att_row (gat.att_l self) h) (projected_source self x n h))
              (λ e h, dot (att_row (gat.att_e self) h) (projected_edge self ea e h))
              (target_side self x) eq_refl Hp Hes Hewf Hsrc)
    as (d & g' & Hd & Hlen & Hprop).
  { intros e He. rewrite Hnt. by apply Hdst. }
  assert (attention_tensor self x ei ea
          = of_rows H (tab E (λ e, tab H (soft E
              (λ e h, leaky_relu (gat.negative_slope self)
                 (dot (att_row (gat.att_l self) h)
                      (projected_source self x (edge_src ei e) h)
                  + from_option (λ t, t.2 (edge_dst ei e) h) 0 (target_side self x)
                  + dot (att_row (gat.att_e self) h) (projected_edge self ea e h))%R)
              (edge_dst ei) e)))) as Hatt.
  { unfold attention_tensor. fold H E. f_equal. apply tab_ext; intros e _.
    apply tab_ext; intros h _. symmetry. by apply attention_soft. }
  exists d, g'. split; [|split; [done|]].
  { rewrite Hatt. exact Hd. }
  unfold gat.forward. rewrite bind_get. cbn [fst].
  erewrite bind_ok;
    [|unfold lift; apply (f_equal2 pair); [exact Hnodes|reflexivity]].
  cbv beta iota zeta.
  erewrite bind_ok;
    [|unfold lift; apply (f_equal2 pair); [exact Hedges|reflexivity]].
  fold H E. rewrite mul_sum_tab by done.
  erewrite bind_ok; [|exact Hprop].
  rewrite bind_get. cbn [fst].
  erewrite bind_ok; [|reflexivity].
  change (gat._alpha (gat.with_alpha self _)) with
    (Some (of_rows H (tab E (λ e, tab H (soft E
              (λ e h, leaky_relu (gat.negative_slope self)
                 (dot (att_row (gat.att_l self) h)
                      (projected_source self x (edge_src ei e) h)
                  + from_option (λ t, t.2 (edge_dst ei e) h) 0 (target_side self x)
                  + dot (att_row (gat.att_e self) h) (projected_edge self ea e h))%R)
              (edge_dst ei) e))))).
  rewrite <-Hatt.
  (* the rows of the output *)
  set (size_i := match target_side self x with Some (S n, _, _) => S n | _ => nrows (source x) end).
  assert (size_i = out_nodes x) as Hsize.
  { unfold size_i, out_nodes, target_side. destruct (target x) as [xt|]; simpl; [|done].
    destruct (nrows xt); simpl; done. }
  set (R3 := scattered _ _ _ _ _).
  assert (∀ t, mat_shape H C (R3 t)
               ∧ ∀ h c, h < H → get2 (R3 t) h c = aggregated self x ei d t h c)
    as HR3.
  { intros t.
    destruct (scattered_mat E H C (edge_dst ei)
                (λ e, tab H (λ h, map (λ v, (v * default 0 (d !! (e * H + h)%nat))%R)
                                    (projected_source self x (edge_src ei e) h))) t)
      as [Hshape Hget].
    { intros e _. apply (message_mat self x ei d e).
      by constructor. }
    split; [exact Hshape|]. intros h c Hh.
    unfold R3. etrans; [apply Hget|]. unfold aggregated, incoming. fold E.
    f_equal. apply map_ext. intros e.
    apply (message_mat self x ei d e); [by constructor|done]. }
  fold C.
  assert ((if gat.concat self
           then of_rows (H * C) (map (@concat R) (tab size_i R3))
           else of_rows C (map (gat.mean_heads H C) (tab size_i R3)))
          = of_rows (out_width self)
              (tab (out_nodes x) (λ n, tab (out_width self) (λ k,
                 if gat.concat self
                 then aggregated self x ei d n (k `div` C) (k `mod` C)
                 else (Rsum (map (λ h, aggregated self x ei d n h k) (seq 0 H))
                       / INR H)%R)))) as ->.
  { rewrite Hsize. unfold out_width. fold H C. destruct (gat.concat self).
    - f_equal. rewrite map_tab. apply tab_ext. intros n _.
      rewrite (concat_mat_tab H C) by apply HR3.
      apply tab_ext. intros k Hk. apply HR3.
      apply Nat.Div0.div_lt_upper_bound. lia.
    - f_equal. rewrite map_tab. apply tab_ext. intros n _.
      rewrite (mean_heads_tab H C) by apply HR3.
      apply tab_ext. intros c _. f_equal. f_equal.
      apply map_ext_in. intros h Hh. apply HR3. apply in_seq in Hh. lia. }
  assert (match gat.bias self with
          | Some b =>
              gat.iadd_bias
                (of_rows (out_width self)
                   (tab (out_nodes x) (λ n, tab (out_width self) (λ k,
                      if gat.concat self
                      then aggregated self x ei d n (k `div` C) (k `mod` C)
                      else (Rsum (map (λ h, aggregated self x ei d n h k) (seq 0 H))
                            / INR H)%R)))) b
          | None =>
              Ok (of_rows (out_width self)
                   (tab (out_nodes x) (λ n, tab (out_width self) (λ k,
                      if gat.concat self
                      then aggregated self x ei d n (k `div` C) (k `mod` C)
                      else (Rsum (map (λ h, aggregated self x ei d n h k) (seq 0 H))
                            / INR H)%R))))
          end = Ok (output_tensor self x ei d)) as ->.
  { unfold output_tensor, out_entry. fold H C.
    destruct (gat.bias self) as [b|] eqn:Hb.
    - rewrite iadd_bias_tab by (by apply Hbias).
      apply (f_equal Ok), (f_equal (of_rows _)).
      apply tab_ext; intros n _. apply tab_ext; intros k _. simpl.
      by destruct (gat.concat self).
    - apply (f_equal Ok), (f_equal (of_rows _)).
      apply tab_ext; intros n _. apply tab_ext; intros k _.
      simpl. destruct (gat.concat self); lra. }
  rewrite bind_lift_ok. by destruct raw.
Qed.

End forward_facts.

Module gat_claims_aux.
Import torch gat_spec torch_facts torch_ops pyg_facts gat_facts post_facts forward_facts.

Lemma at2_of_rows_tab {A} N W (f : nat → nat → A) n k :
  n < N → k < W → at2 (of_rows W (tab N (λ n, tab W (f n)))) n k = Some (f n k).
Proof.
  intros Hn Hk. unfold at2. rewrite rows_of_rows.
  - rewrite lookup_tab by done. simpl. by rewrite lookup_tab.
  - apply Forall_tab. intros; apply length_tab.
Qed.

Lemma shape_of_rows_tab {A} N W (f : nat → list A) :
  shape (of_rows W (tab N f)) = [N; W].
Proof. unfold of_rows; simpl. by rewrite length_tab. Qed.

Lemma wf_of_rows_tab {A} N W (f : nat → nat → A) :
  wf (of_rows W (tab N (λ n, tab W (f n)))).
Proof. apply wf_of_rows. apply Forall_tab. intros; apply length_tab. Qed.

(** Sums of positive terms, and the sum of softmax weights over a group. *)
Lemma Rsum_map_div {A} (f : A → R) (s : R) (l : list A) :
  Rsum (map (λ e, (f e / s)%R) l) = (Rsum (map f l) / s)%R.
Proof. induction l as [|a l IH]; simpl; [lra|]. rewrite IH. lra. Qed.

Lemma Rsum_map_pos {A} (f : A → R) (l : list A) :
  l ≠ [] → (∀ e, (0 < f e)%R) → (0 < Rsum (map f l))%R.
Proof.
  intros Hl Hf. destruct l as [|a l]; [done|]. clear Hl. simpl.
  assert (0 <= Rsum (map f l))%R.
  { induction l as [|b l IH]; simpl; [lra|]. specialize (Hf b). lra. }
  specialize (Hf a). lra.
Qed.

Lemma soft_pos E z grp e h : e < E → (0 < soft E z grp e h)%R.
Proof.
  intros He. unfold soft. apply Rdiv_lt_0_compat; [apply exp_pos|].
  apply Rsum_map_pos; [|intros; apply exp_pos].
  intros Hnil. assert (e ∈ filter (λ e', grp e' = grp e) (seq 0 E)) as Hin.
  { apply list_elem_of_filter. split; [done|]. apply elem_of_seq. lia. }
  rewrite Hnil in Hin. by apply elem_of_nil in Hin.
Qed.

Lemma soft_sum E z grp n h :
  filter (λ e, grp e = n) (seq 0 E) ≠ [] →
  Rsum (map (λ e, soft E z grp e h) (filter (λ e, grp e = n) (seq 0 E))) = 1%R.
Proof.
  intros Hne. set (l := filter _ _) in *.
  assert (0 < Rsum (map (λ e', exp (z e' h)) l))%R as Hpos
    by (apply Rsum_map_pos; [done|intros; apply exp_pos]).
  rewrite (map_ext_in _ (λ e, (exp (z e h) / Rsum (map (λ e', exp (z e' h)) l))%R)).
  - rewrite Rsum_map_div. field. lra.
  - intros e He. unfold soft. f_equal. f_equal. f_equal.
    apply list_elem_of_In, list_elem_of_filter in He as [-> _]. done.
Qed.

(** Inversion of a successful sequence. *)
Lemma bind_inv {S A B} (m : St S A) (f : A → St S B) (s s' : S) (b : B) :
  (m ≫= f) s = (Ok b, s') → ∃ a s1, m s = (Ok a, s1) ∧ f a s1 = (Ok b, s').
Proof.
  unfold mbind, St_bind. destruct (m s) as [[a|e] s1]; [|done]. intros. by exists a, s1.
Qed.

Lemma lift_inv {S A} (r : result A) (s s' : S) (a : A) :
  lift r s = (Ok a, s') → r = Ok a ∧ s' = s.
Proof. unfold lift. by intros [= -> ->]. Qed.

(** Whatever the inputs, a pass that returns has emptied the cache, and
    what it returns depends only on whether the last argument is [None]. *)
Lemma forward_inv (x : gat.x_arg) ei ea size raw (s s' : gat.t * rng) (o : gat.output) :
  gat.forward x ei ea size raw s = (Ok o, s') →
  gat._alpha s'.1 = None
  ∧ match raw with
    | Some _ => ∃ out alpha, o = gat.OutAttention out ei alpha
    | None => ∃ out, o = gat.Out out
    end.
Proof.
  unfold gat.forward. intros Hf.
  apply bind_inv in Hf as (s0 & s1 & Hget & Hf). injection Hget as <- <-.
  apply bind_inv in Hf as (xa & s1 & Hxa & Hf). apply lift_inv in Hxa as [_ ->].
  destruct xa as [[[x_l x_r] alpha_l] alpha_r].
  apply bind_inv in Hf as (e & s1 & He & Hf). apply lift_inv in He as [_ ->].
  apply bind_inv in Hf as (out & s1 & _ & Hf).
  apply bind_inv in Hf as (s2 & s3 & Hget & Hf). injection Hget as <- <-.
  apply bind_inv in Hf as ([] & s3 & Hset & Hf).
  destruct s1 as [self1 g1]. injection Hset as <-.
  apply bind_inv in Hf as (out' & s4 & Hout & Hf). apply lift_inv in Hout as [_ ->].
  destruct raw as [b|].
  - destruct (gat._alpha (self1, g1).1) as [alpha|]; [|done].
    injection Hf as <- <-. split; [done|]. by eexists _, _.
  - injection Hf as <- <-. split; [done|]. by eexists.
Qed.

(** [__init__] builds a valid module. *)
Lemma init_valid ic oc ec h c ns p asl b (g : rng) :
  h * oc ≠ 0 → (0 <= p <= 1)%R →
  let self := (gat.__init__ ic oc ec h c ns p asl b g).1 in
  valid_module self
  ∧ gat.heads self = h ∧ gat.out_channels self = oc ∧ gat.concat self = c
  ∧ gat.add_self_loops self = asl ∧ gat._alpha self = None
  ∧ gat.dropout self = p ∧ gat.negative_slope self = ns
  ∧ in_features (gat.lin_l self) = match ic with gat.Int n => n | gat.Pair a _ => a end
  ∧ in_features (gat.lin_r self) = match ic with gat.Int n => n | gat.Pair _ a => a end
  ∧ in_features (gat.lin_e self) = ec.
Proof.
  intros Hpos Hp self. unfold self.
  unfold gat.__init__, gat.Linear_new, gat.reglorot, gat.glorot, draw,
    mbind, mret, Gen_bind, Gen_ret.
  destruct ic as [n|a a']; simpl; (split; [|done]).
  - split; simpl; rewrite ?length_chunks; try done.
    intros b0. unfold out_width; simpl. destruct b, c; simpl; intros [= <-];
      by rewrite length_replicate.
  - split; simpl; rewrite ?length_chunks; try done.
    intros b0. unfold out_width; simpl. destruct b, c; simpl; intros [= <-];
      by rewrite length_replicate.
Qed.

End gat_claims_aux.

Module gat_claims.
Import torch gat_spec torch_facts torch_ops pyg_facts gat_facts post_facts
  forward_facts gat_claims_aux.

Lemma example_valid_module : valid_module example.conv.
Proof. apply init_valid; [lia|lra]. Qed.

Lemma example_valid_input :
  valid_input example.conv (gat.XTensor example.x) example.edge_index
    example.edge_attr.
Proof.
  split.
  - split; reflexivity.
  - intros xt [= <-]. split; reflexivity.
  - split; reflexivity.
  - intros e He. change (num_edges example.edge_index) with 2 in He.
    change (nrows (source (gat.XTensor example.x))) with 3.
    destruct e as [|[|e]]; simpl; lia.
  - intros e He. change (num_edges example.edge_index) with 2 in He.
    change (from_option nrows (nrows (source (gat.XTensor example.x)))
              (target (gat.XTensor example.x))) with 3.
    destruct e as [|[|e]]; simpl; lia.
  - split; reflexivity.
Qed.

(** C2.  For every valid input, the attention weights that [forward]
    returns are a softmax grouped by target node and head: every weight is
    non-negative, and for every head the weights of the edges arriving at
    a node that has an incoming edge sum to 1. *)
Theorem attention_row_stochastic (self : gat.t) (x : gat.x_arg)
    (edge_index : tensor Z) (edge_attr : tensor R) (b : bool) (g : rng) :
  valid_module self → valid_input self x edge_index edge_attr →
  ∃ out alpha st,
    gat.forward x edge_index edge_attr None (Some b) (self, g)
    = (Ok (gat.OutAttention out edge_index alpha), st)
    ∧ (∀ e h, e < num_edges edge_index → h < gat.heads self →
         ∃ a, at2 alpha e h = Some a ∧ (0 <= a)%R
              ∧ a = soft (num_edges edge_index)
                      (λ e h, leaky_relu (gat.negative_slope self)
                                (logit self x edge_index edge_attr e h))
                      (edge_dst edge_index) e h)
    ∧ (∀ n h, h < gat.heads self → incoming edge_index n ≠ [] →
         Rsum (map (λ e, default 0%R (at2 alpha e h)) (incoming edge_index n))
         = 1%R).
Proof.
  intros Hm Hi.
  destruct (forward_spec self x edge_index edge_attr (Some b) g Hm Hi)
    as (d & g' & _ & _ & Hf).
  eexists _, _, _. split; [exact Hf|]. split.
  - intros e h He Hh. exists (attention self x edge_index edge_attr e h).
    split; [by apply at2_of_rows_tab|]. split; [|done].
    apply Rlt_le.
    exact (soft_pos (num_edges edge_index)
             (λ e h, leaky_relu (gat.negative_slope self)
                       (logit self x edge_index edge_attr e h))
             (edge_dst edge_index) e h He).
  - intros n h Hh Hne.
    rewrite (map_ext_in _ (λ e, soft (num_edges edge_index)
                                  (λ e h, leaky_relu (gat.negative_slope self)
                                            (logit self x edge_index edge_attr e h))
                                  (edge_dst edge_index) e h)).
    + by apply soft_sum.
    + intros e He. unfold attention_tensor.
      apply list_elem_of_In, list_elem_of_filter in He as [_ He].
      apply elem_of_seq in He.
      rewrite at2_of_rows_tab by (done || lia). done.
Qed.

Lemma attention_row_stochastic_witness :
  valid_module example.conv
  ∧ valid_input example.conv (gat.XTensor example.x) example.edge_index
      example.edge_attr
  ∧ ∃ out alpha st,
      gat.forward (gat.XTensor example.x) example.edge_index example.edge_attr
        None (Some true) (example.conv, example.g1)
      = (Ok (gat.OutAttention out example.edge_index alpha), st)
      ∧ (∀ e h, e < num_edges example.edge_index → h < gat.heads example.conv →
           ∃ a, at2 alpha e h = Some a ∧ (0 <= a)%R
                ∧ a = soft (num_edges example.edge_index)
                        (λ e h, leaky_relu (gat.negative_slope example.conv)
                                  (logit example.conv (gat.XTensor example.x)
                                     example.edge_index example.edge_attr e h))
                        (edge_dst example.edge_index) e h)
      ∧ (∀ n h, h < gat.heads example.conv →
           incoming example.edge_index n ≠ [] →
           Rsum (map (λ e, default 0%R (at2 alpha e h))
                   (incoming example.edge_index n)) = 1%R).
Proof.
  split; [exact example_valid_module|]. split; [exact example_valid_input|].
  exact (attention_row_stochastic example.conv (gat.XTensor example.x)
           example.edge_index example.edge_attr true example.g1
           example_valid_module example_valid_input).
Defined.


(** C1.  In the scenario of the specification (3 nodes, edges 0 → 1 and
    1 → 2, 2 heads, 5 output channels, no concatenation, [add_self_loops]
    set), [forward] returns the edge list it was given: no self-loop is
    added, the attention weights have shape [2, 2] and not [5, 2], and node
    0 has no incoming edge at all.  The output has shape [3, 5]. *)
Theorem self_loops_not_added :
  gat.add_self_loops example.conv = true
  ∧ ∃ out alpha st,
      gat.forward (gat.XTensor example.x) example.edge_index example.edge_attr
        None (Some true) (example.conv, example.g1)
      = (Ok (gat.OutAttention out example.edge_index alpha), st)
      ∧ shape out = [3; 5]
      ∧ shape alpha = [2; 2]
      ∧ (∀ n, ¬ has_self_loop example.edge_index n)
      ∧ incoming example.edge_index 0 = [].
Proof.
  split; [reflexivity|].
  destruct (forward_spec example.conv (gat.XTensor example.x) example.edge_index
              example.edge_attr (Some true) example.g1
              example_valid_module example_valid_input)
    as (d & g' & _ & _ & Hf).
  eexists _, _, _. split; [exact Hf|]. split; [|split; [|split]].
  - apply shape_of_rows_tab.
  - apply shape_of_rows_tab.
  - intros n (e & He & Hsrc & Hdst).
    change (num_edges example.edge_index) with 2 in He.
    destruct e as [|[|e]]; [| |lia]; vm_compute in Hsrc, Hdst; congruence.
  - reflexivity.
Qed.

(** C3.  For every edge [e = (i → j)] and head [h], the weight returned
    for [(e, h)] is the softmax, over the edges arriving at [j], of the
    LeakyReLU of the logit
    [dot att_l[h] (projected source i) + dot att_r[h] (projected target j)
     + dot att_e[h] (projected edge e)]; the source is projected with
    [lin_l], the edge with [lin_e], and the target with [lin_l] for a
    homogeneous input and with [lin_r] for a pair. *)
Theorem attention_logit_formula (self : gat.t) (x : gat.x_arg) (xt : tensor R)
    (edge_index : tensor Z) (edge_attr : tensor R) (b : bool) (g : rng) :
  valid_module self → valid_input self x edge_index edge_attr →
  target x = Some xt →
  let C := gat.out_channels self in
  let raw_logit e h :=
    (dot (att_row (gat.att_l self) h)
       (projected C (gat.lin_l self) (row (source x) (edge_src edge_index e)) h)
     + dot (att_row (gat.att_r self) h)
         (projected C
            (match x with
             | gat.XTensor _ => gat.lin_l self
             | gat.XPair _ _ => gat.lin_r self
             end)
            (row xt (edge_dst edge_index e)) h)
     + dot (att_row (gat.att_e self) h)
         (projected C (gat.lin_e self) (row edge_attr e) h))%R in
  ∃ out alpha st,
    gat.forward x edge_index edge_attr None (Some b) (self, g)
    = (Ok (gat.OutAttention out edge_index alpha), st)
    ∧ ∀ e h, e < num_edges edge_index → h < gat.heads self →
        at2 alpha e h
        = Some (exp (leaky_relu (gat.negative_slope self) (raw_logit e h))
                / Rsum (map (λ e', exp (leaky_relu (gat.negative_slope self)
                                          (raw_logit e' h)))
                          (incoming edge_index (edge_dst edge_index e))))%R.
Proof.
  intros Hm Hi Ht C raw_logit.
  destruct (forward_spec self x edge_index edge_attr (Some b) g Hm Hi)
    as (d & g' & _ & _ & Hf).
  eexists _, _, _. split; [exact Hf|].
  intros e h He Hh. unfold attention_tensor. rewrite at2_of_rows_tab by done.
  f_equal. unfold attention, score, logit, projected_target, projected_source,
    projected_edge, target_lin. rewrite Ht. reflexivity.
Qed.

Lemma attention_logit_formula_witness :
  valid_module example.conv
  ∧ valid_input example.conv (gat.XTensor example.x) example.edge_index
      example.edge_attr
  ∧ target (gat.XTensor example.x) = Some example.x
  ∧ ∃ out alpha st,
      gat.forward (gat.XTensor example.x) example.edge_index example.edge_attr
        None (Some true) (example.conv, example.g1)
      = (Ok (gat.OutAttention out example.edge_index alpha), st)
      ∧ ∀ e h, e < num_edges example.edge_index → h < gat.heads example.conv →
          ∃ a, at2 alpha e h = Some a.
Proof.
  split; [exact example_valid_module|]. split; [exact example_valid_input|].
  split; [reflexivity|].
  destruct (attention_logit_formula example.conv (gat.XTensor example.x)
              example.x example.edge_index example.edge_attr true example.g1
              example_valid_module example_valid_input eq_refl)
    as (out & alpha & st & Hf & Ha).
  exists out, alpha, st. split; [exact Hf|].
  intros e h He Hh. eexists. exact (Ha e h He Hh).
Defined.

(** C4.  For every valid input the message of edge [e] is the projected
    source feature times the weight of [e] after dropout, per head and
    channel; the messages are summed into their target node; the output
    has shape [N, heads * out_channels] when [concat] is set and
    [N, out_channels], the mean over the heads, when it is not; the bias
    is added when there is one. *)
Theorem forward_output (self : gat.t) (x : gat.x_arg)
    (edge_index : tensor Z) (edge_attr : tensor R) (g : rng) :
  valid_module self → valid_input self x edge_index edge_attr →
  let H := gat.heads self in
  let C := gat.out_channels self in
  ∃ alpha d out g',
    gat.forward x edge_index edge_attr None (Some true) (self, g)
    = (Ok (gat.OutAttention out edge_index alpha), (clear_alpha self, g'))
    ∧ gat.forward x edge_index edge_attr None None (self, g)
      = (Ok (gat.Out out), (clear_alpha self, g'))
    ∧ torch.dropout (data alpha) (gat.dropout self) (gat.training self) g
      = (Ok d, g')
    ∧ shape out = [out_nodes x; if gat.concat self then H * C else C]
    ∧ wf out
    ∧ (∀ e h c,
         message self x edge_index d e h c
         = (default 0 (projected C (gat.lin_l self)
                         (row (source x) (edge_src edge_index e)) h !! c)
            * default 0 (d !! (e * H + h)%nat))%R)
    ∧ (∀ n h c,
         aggregated self x edge_index d n h c
         = Rsum (map (λ e, message self x edge_index d e h c)
                   (incoming edge_index n)))
    ∧ ∀ n k, n < out_nodes x → k < (if gat.concat self then H * C else C) →
        at2 out n k
        = Some ((if gat.concat self
                 then aggregated self x edge_index d n (k `div` C) (k `mod` C)
                 else Rsum (map (λ h, aggregated self x edge_index d n h k)
                              (seq 0 H)) / INR H)
                + match gat.bias self with
                  | Some bias => default 0 (bias !! k)
                  | None => 0
                  end)%R.
Proof.
  intros Hm Hi H C.
  destruct (forward_spec self x edge_index edge_attr (Some true) g Hm Hi)
    as (d & g' & Hd & _ & Hf).
  destruct (forward_spec self x edge_index edge_attr None g Hm Hi)
    as (d' & g'' & Hd' & _ & Hf').
  rewrite Hd in Hd'. injection Hd' as <- <-.
  exists (attention_tensor self x edge_index edge_attr), d,
    (output_tensor self x edge_index d), g'.
  split; [exact Hf|]. split; [exact Hf'|]. split; [exact Hd|].
  split; [apply shape_of_rows_tab|]. split; [apply wf_of_rows_tab|].
  split; [done|]. split; [done|].
  intros n k Hn Hk. unfold output_tensor. rewrite at2_of_rows_tab by done.
  unfold out_entry. by destruct (gat.bias self).
Qed.

Lemma forward_output_witness :
  valid_module example.conv
  ∧ valid_input example.conv (gat.XTensor example.x) example.edge_index
      example.edge_attr
  ∧ ∃ out st,
      gat.forward (gat.XTensor example.x) example.edge_index example.edge_attr
        None None (example.conv, example.g1) = (Ok (gat.Out out), st)
      ∧ shape out = [3; 5].
Proof.
  split; [exact example_valid_module|]. split; [exact example_valid_input|].
  destruct (forward_output example.conv (gat.XTensor example.x)
              example.edge_index example.edge_attr example.g1
              example_valid_module example_valid_input)
    as (alpha & d & out & g' & _ & Hf & _ & Hs & _).
  exists out, (clear_alpha example.conv, g'). split; [exact Hf|exact Hs].
Defined.





(** C8.  A pass over a valid input returns with the cache [_alpha]
    emptied, whether or not the weights were requested; when they were, it
    returns the edge list it was given with a weight tensor of shape
    [E, heads], one row per edge of that list.  More generally every pass
    that returns, on any input, leaves [_alpha] at [None]. *)
Theorem alpha_cache_cleared (self : gat.t) (x : gat.x_arg)
    (edge_index : tensor Z) (edge_attr : tensor R) (raw : option bool) (g : rng) :
  valid_module self → valid_input self x edge_index edge_attr →
  ∃ out alpha st,
    gat.forward x edge_index edge_attr None raw (self, g)
    = (Ok (match raw with
           | Some _ => gat.OutAttention out edge_index alpha
           | None => gat.Out out
           end), st)
    ∧ gat._alpha st.1 = None
    ∧ shape alpha = [num_edges edge_index; gat.heads self]
    ∧ wf alpha
    ∧ (∀ e h, e < num_edges edge_index → h < gat.heads self →
         is_Some (at2 alpha e h))
    ∧ ∀ x' edge_index' edge_attr' size' raw' s o st',
        gat.forward x' edge_index' edge_attr' size' raw' s = (Ok o, st') →
        gat._alpha st'.1 = None.
Proof.
  intros Hm Hi.
  destruct (forward_spec self x edge_index edge_attr raw g Hm Hi)
    as (d & g' & _ & _ & Hf).
  eexists _, _, _. split; [exact Hf|]. split; [done|].
  split; [apply shape_of_rows_tab|]. split; [apply wf_of_rows_tab|]. split.
  - intros e h He Hh. unfold attention_tensor. by rewrite at2_of_rows_tab.
  - intros x' ei' ea' size' raw' s o st' Hf'.
    by destruct (forward_inv x' ei' ea' size' raw' s st' o Hf').
Qed.

Lemma alpha_cache_cleared_witness :
  valid_module example.conv
  ∧ valid_input example.conv (gat.XTensor example.x) example.edge_index
      example.edge_attr
  ∧ ∃ out alpha st,
      gat.forward (gat.XTensor example.x) example.edge_index example.edge_attr
        None (Some true) (example.conv, example.g1)
      = (Ok (gat.OutAttention out example.edge_index alpha), st)
      ∧ gat._alpha st.1 = None
      ∧ shape alpha = [2; 2].
Proof.
  split; [exact example_valid_module|]. split; [exact example_valid_input|].
  destruct (alpha_cache_cleared example.conv (gat.XTensor example.x)
              example.edge_index example.edge_attr (Some true) example.g1
              example_valid_module example_valid_input)
    as (out & alpha & st & Hf & Hnone & Hs & _).
  exists out, alpha, st. split; [exact Hf|]. split; [exact Hnone|exact Hs].
Defined.

(** C10.  On a valid input [forward] returns the output paired with
    [(edge_index, attention_weights)] for [return_attention_weights = True]
    and for [False] alike, and the bare output when the argument is left at
    [None]; on any input, what kind of value a returning pass yields depends
    only on whether the argument is [None]. *)
Theorem attention_returned_for_any_bool (self : gat.t) (x : gat.x_arg)
    (edge_index : tensor Z) (edge_attr : tensor R) (g : rng) :
  valid_module self → valid_input self x edge_index edge_attr →
  ∃ out alpha st,
    (∀ b : bool,
       gat.forward x edge_index edge_attr None (Some b) (self, g)
       = (Ok (gat.OutAttention out edge_index alpha), st))
    ∧ gat.forward x edge_index edge_attr None None (self, g)
      = (Ok (gat.Out out), st)
    ∧ ∀ x' edge_index' edge_attr' size' raw' s o st',
        gat.forward x' edge_index' edge_attr' size' raw' s = (Ok o, st') →
        match raw' with
        | Some _ => ∃ out' alpha', o = gat.OutAttention out' edge_index' alpha'
        | None => ∃ out', o = gat.Out out'
        end.
Proof.
  intros Hm Hi.
  destruct (forward_spec self x edge_index edge_attr None g Hm Hi)
    as (d & g' & Hd & _ & Hf).
  exists (output_tensor self x edge_index d),
    (attention_tensor self x edge_index edge_attr), (clear_alpha self, g').
  split; [|split; [exact Hf|]].
  - intros b.
    destruct (forward_spec self x edge_index edge_attr (Some b) g Hm Hi)
      as (d' & g'' & Hd' & _ & Hf').
    rewrite Hd in Hd'. injection Hd' as <- <-. exact Hf'.
  - intros x' ei' ea' size' raw' s o st' Hf'.
    by destruct (forward_inv x' ei' ea' size' raw' s st' o Hf').
Qed.

Lemma attention_returned_for_any_bool_witness :
  valid_module example.conv
  ∧ valid_input example.conv (gat.XTensor example.x) example.edge_index
      example.edge_attr
  ∧ ∃ out alpha st,
      gat.forward (gat.XTensor example.x) example.edge_index example.edge_attr
        None (Some false) (example.conv, example.g1)
      = (Ok (gat.OutAttention out example.edge_index alpha), st)
      ∧ gat.forward (gat.XTensor example.x) example.edge_index
          example.edge_attr None None (example.conv, example.g1)
        = (Ok (gat.Out out), st).
Proof.
  split; [exact example_valid_module|]. split; [exact example_valid_input|].
  destruct (attention_returned_for_any_bool example.conv (gat.XTensor example.x)
              example.edge_index example.edge_attr example.g1
              example_valid_module example_valid_input)
    as (out & alpha & st & Hb & Hnone & _).
  exists out, alpha, st. split; [exact (Hb false)|exact Hnone].
Defined.

End gat_claims.

Module gat_seq_facts.
Import torch gat_spec gat_seq_spec torch_facts torch_ops post_facts
  forward_facts gat_facts gat_claims_aux.

(** The laws of the state-and-exception monad, state by state. *)
Lemma bind_ext {S A B} (m : St S A) (f f' : A → St S B) (s : S) :
  (∀ a s1, f a s1 = f' a s1) → (m ≫= f) s = (m ≫= f') s.
Proof. intros Hf. unfold mbind, St_bind. destruct (m s) as [[a|e] s1]; [apply Hf|done]. Qed.


Lemma bind_assoc {S A B D} (m : St S A) (f : A → St S B) (k : B → St S D) (s : S) :
  ((m ≫= f) ≫= k) s = (m ≫= λ a, f a ≫= k) s.
Proof. unfold mbind, St_bind. by destruct (m s) as [[a|e] s1]. Qed.

Lemma bind_ret_r {S A} (m : St S A) (s : S) : (m ≫= mret) s = m s.
Proof. unfold mbind, St_bind, mret, St_ret. by destruct (m s) as [[a|e] s1]. Qed.

Section loop.
Context {S A I : Type}.
Implicit Types (body : I → A → St S A) (l : list I).

Lemma for_each_app l1 l2 body a s :
  gat_seq.for_each (l1 ++ l2) body a s
  = (a' ← gat_seq.for_each l1 body a; gat_seq.for_each l2 body a') s.
Proof.
  revert a s. induction l1 as [|i l1 IH]; intros a s; simpl; [done|].
  rewrite bind_assoc. apply bind_ext. intros a1 s1. apply IH.
Qed.

End loop.

Section layers.
Context (edge_index : tensor Z) (edge_attr instr_vectors : tensor R)
        (batch : tensor Z).

Lemma layer_hidden L i h s :
  i ≠ L - 1 →
  gat_seq.layer L edge_index edge_attr instr_vectors batch i h s
  = hidden_layer edge_index edge_attr instr_vectors batch i h s.
Proof.
  intros Hi. unfold gat_seq.layer, hidden_layer, residual_layer, post_process.
  rewrite !bind_get. cbn [fst].
  rewrite !bind_assoc. apply bind_ext. intros xe s1.
  rewrite !bind_assoc. apply bind_ext. intros conv_res s2.
  apply bind_ext. intros h' s3. by rewrite decide_True.
Qed.

Lemma layer_last L i h s :
  i = L - 1 →
  gat_seq.layer L edge_index edge_attr instr_vectors batch i h s
  = residual_layer edge_index edge_attr instr_vectors batch i h s.
Proof.
  intros Hi. unfold gat_seq.layer, residual_layer.
  rewrite !bind_get. cbn [fst].
  apply bind_ext. intros xe s1. apply bind_ext. intros conv_res s2.
  etrans; [|apply bind_ret_r].
  apply bind_ext. intros h' s3. by rewrite decide_False by (intros ?; done).
Qed.
End layers.


(** Indexing. *)
Lemma take_drop_take {A} (l : list A) w m n :
  m + w ≤ n → take w (drop m (take n l)) = take w (drop m l).
Proof.
  intros Hle. rewrite !take_drop_commute, take_take.
  by replace (min (m + w) n) with (m + w) by lia.
Qed.

Lemma norm_index_in_range n (i : Z) :
  (0 ≤ i < Z.of_nat n)%Z → norm_index n i = Ok (Z.to_nat i).
Proof. intros Hi. unfold norm_index. by rewrite decide_True. Qed.

Lemma getitem_int_first {A} (t : tensor A) n s (i : nat) :
  shape t = n :: s → i < n →
  getitem_int t (Z.of_nat i)
  = Ok (Tensor s (take (numel s) (drop (i * numel s) (data t)))).
Proof.
  intros Hs Hi. unfold getitem_int, slices. rewrite Hs.
  rewrite norm_index_in_range by lia. rewrite result_bind_ok.
  rewrite Nat2Z.id. by rewrite lookup_chunks.
Qed.

Lemma getitem_tab {A} (t : tensor A) (idx : tensor Z) n s E (f : nat → Z) :
  shape t = n :: s → data idx = tab E f →
  (∀ e, e < E → (0 ≤ f e < Z.of_nat n)%Z) →
  getitem t idx
  = Ok (Tensor (shape idx ++ s)
          (concat (tab E (λ e, take (numel s)
                                 (drop (Z.to_nat (f e) * numel s) (data t)))))).
Proof.
  intros Hs Hd Hf. unfold getitem, slices. rewrite Hs, Hd.
  rewrite (mapM_tab_ok _ (λ i : Z, take (numel s) (drop (Z.to_nat i * numel s) (data t)))).
  - done.
  - intros e He. specialize (Hf e He).
    rewrite norm_index_in_range by done. rewrite result_bind_ok.
    rewrite lookup_chunks by lia. done.
Qed.

Lemma concat_tab_singleton {A} E (f : nat → A) : concat (tab E (λ e, [f e])) = tab E f.
Proof. unfold tab. induction (seq 0 E) as [|e l IH]; simpl; by f_equal. Qed.

Lemma take_1_drop {A} (d : A) (l : list A) k :
  k < length l → take 1 (drop k l) = [default d (l !! k)].
Proof.
  intros Hk. destruct (lookup_lt_is_Some_2 l k Hk) as [y Hy]. rewrite Hy. simpl.
  rewrite (drop_S l y k Hy). done.
Qed.

(** [torch.cat((a, b), dim=-1)] on two matrices with as many rows. *)
Lemma cat_last_tab (a b : tensor R) E Wa Wb (fb : nat → list R) :
  shape a = [E; Wa] → shape b = [E; Wb] → rows b = tab E fb →
  cat_last a b = Ok (of_rows (Wa + Wb) (tab E (λ e, row a e ++ fb e))).
Proof.
  intros Ha Hb Hrb. unfold cat_last. rewrite Ha, Hb. cbn.
  rewrite decide_True by done. f_equal. unfold of_rows. rewrite length_tab.
  f_equal. rewrite (rows_tab a E Wa Ha), Hrb. by rewrite zip_with_tab.
Qed.

Lemma row_of_rows_tab W E (f : nat → list R) e :
  (∀ e, e < E → length (f e) = W) → e < E →
  row (of_rows W (tab E f)) e = f e.
Proof.
  intros Hf He. unfold row. rewrite rows_of_rows by (by apply Forall_tab).
  by rewrite lookup_tab.
Qed.

Lemma flat_index_bound i L b B : i < L → b < B → i * B + b < L * B.
Proof.
  intros Hi Hb. apply Nat.lt_le_trans with ((i + 1) * B); [lia|].
  apply Nat.mul_le_mono_r. lia.
Qed.

Lemma instruction_eq (iv : tensor R) L B Fi i b :
  shape iv = [L; B; Fi] → i < L → b < B →
  instruction iv i b = take Fi (drop ((i * B + b) * Fi) (data iv)).
Proof.
  intros Hs Hi Hb. unfold instruction, rows. rewrite Hs. cbn.
  pose proof (flat_index_bound i L b B Hi Hb).
  rewrite lookup_chunks by lia. done.
Qed.

Lemma instruction_length (iv : tensor R) L B Fi i b :
  shape iv = [L; B; Fi] → wf iv → i < L → b < B →
  length (instruction iv i b) = Fi.
Proof.
  intros Hs Hwf Hi Hb. rewrite (instruction_eq iv L B Fi) by done.
  unfold wf in Hwf. rewrite Hs in Hwf. unfold numel in Hwf; simpl in Hwf.
  pose proof (flat_index_bound i L b B Hi Hb).
  rewrite length_take, length_drop. nia.
Qed.

(** The concatenated inputs of a layer. *)
Lemma concat_inputs_spec (i N F E Fe L B Fi : nat) (h : tensor R)
    (edge_index : tensor Z) (edge_attr instr_vectors : tensor R)
    (batch : tensor Z) :
  valid_inputs i N F E Fe L B Fi h edge_index edge_attr instr_vectors batch →
  gat_seq.concat_inputs i h edge_index edge_attr instr_vectors batch
  = Ok (of_rows (F + Fi)
          (tab N (λ n, row h n ++ instruction instr_vectors i (graph_of batch n))),
        of_rows (Fe + Fi)
          (tab E (λ e, row edge_attr e
                       ++ instruction instr_vectors i
                            (graph_of batch (edge_src edge_index e))))).
Proof.
  intros [[Hh Hhwf] [Hb Hbwf] Hgraph [Hei Heiwf] Hsrc [Hea Heawf] [Hiv Hivwf] Hi].
  unfold gat_seq.concat_inputs.
  rewrite (getitem_int_first instr_vectors L [B; Fi] i) by done.
  rewrite result_bind_ok.
  change (Z0) with (Z.of_nat 0).
  rewrite (getitem_int_first edge_index 2 [E] 0) by (done || lia).
  rewrite result_bind_ok.
  replace (numel [E]) with E by (unfold numel; simpl; lia).
  replace (numel [B; Fi]) with (B * Fi) by (unfold numel; simpl; lia).
  assert (length (data batch) = N) as HbN.
  { unfold wf in Hbwf. rewrite Hb in Hbwf. unfold numel in Hbwf; simpl in Hbwf. lia. }
  assert (length (data edge_index) = 2 * E) as HeiN.
  { unfold wf in Heiwf. rewrite Hei in Heiwf. unfold numel in Heiwf; simpl in Heiwf. lia. }
  assert (length (data instr_vectors) = L * (B * Fi)) as HivN.
  { unfold wf in Hivwf. rewrite Hiv in Hivwf. unfold numel in Hivwf; simpl in Hivwf. lia. }
  assert (take E (drop (0 * E) (data edge_index))
          = tab E (λ e, default 0%Z (data edge_index !! e))) as Hsrcs.
  { rewrite (list_as_tab 0%Z E (take E _)).
    - apply tab_ext; intros e He. by rewrite lookup_take_lt, lookup_drop.
    - rewrite length_take, length_drop. lia. }
  rewrite Hsrcs.
  (* edge_batch = batch[edge_index[0]] *)
  rewrite (getitem_tab batch _ N [] E (λ e, default 0%Z (data edge_index !! e)))
    by done.
  rewrite result_bind_ok. cbn [shape app].
  assert (concat (tab E (λ e, take (numel [])
                    (drop (Z.to_nat (default 0%Z (data edge_index !! e)) * numel [])
                       (data batch))))
          = tab E (λ e, default 0%Z (data batch
                     !! Z.to_nat (default 0%Z (data edge_index !! e))))) as ->.
  { rewrite <-(concat_tab_singleton E (λ e, default 0%Z (data batch
                     !! Z.to_nat (default 0%Z (data edge_index !! e))))).
    f_equal. apply tab_ext; intros e He.
    change (numel []) with 1. rewrite Nat.mul_1_r. apply take_1_drop.
    specialize (Hsrc e He). lia. }
  rewrite Hei. simpl (_ !! 1). cbn [shape]. simpl (last _).
  cbn [from_option]. rewrite !result_bind_ok.
  (* repeated_ins_edge = ins[edge_batch] *)
  set (ins := Tensor [B; Fi] _).
  assert (∀ b, b < B →
            take (numel [Fi]) (drop (b * numel [Fi]) (data ins))
            = instruction instr_vectors i b) as Hins.
  { intros b Hlt. rewrite (instruction_eq instr_vectors L B Fi) by done.
    unfold ins; cbn [data]. replace (numel [Fi]) with Fi by (unfold numel; simpl; lia).
    rewrite take_drop_take by nia. rewrite drop_drop. do 2 f_equal. lia. }
  rewrite (getitem_tab ins
             (Tensor [E] (tab E (λ e, default 0%Z (data batch
                     !! Z.to_nat (default 0%Z (data edge_index !! e))))))
             B [Fi] E
             (λ e, default 0%Z (data batch
                     !! Z.to_nat (default 0%Z (data edge_index !! e))))); cycle 1.
  { done. } { done. }
  { intros e He. apply Hgraph. specialize (Hsrc e He). lia. }
  rewrite result_bind_ok. cbn [shape app].
  erewrite (cat_last_tab edge_attr _ E Fe Fi); [| done | done |]; cycle 1.
  { rewrite rows_rank2. apply chunks_concat_tab. intros e He.
    specialize (Hsrc e He).
    pose proof (Hgraph (Z.to_nat (default 0%Z (data edge_index !! e)))
                  ltac:(lia)).
    rewrite Hins by lia. apply (instruction_length _ L B Fi); (done || lia). }
  rewrite result_bind_ok.
  (* repeated_ins_node = ins[batch] *)
  rewrite (getitem_tab ins batch B [Fi] N (λ n, default 0%Z (data batch !! n)));
    cycle 1.
  { done. } { by apply (list_as_tab 0%Z). } { done. }
  rewrite result_bind_ok. rewrite Hb. cbn [app].
  erewrite (cat_last_tab h _ N F Fi); [| done | done |]; cycle 1.
  { rewrite rows_rank2. apply chunks_concat_tab. intros n Hn.
    specialize (Hgraph n Hn).
    rewrite Hins by lia. apply (instruction_length _ L B Fi); (done || lia). }
  rewrite result_bind_ok. f_equal. f_equal.
  - f_equal. apply tab_ext; intros n Hn. f_equal. apply Hins.
    specialize (Hgraph n Hn). unfold graph_of. lia.
  - f_equal. apply tab_ext; intros e He. f_equal.
    unfold graph_of, edge_src. apply Hins.
    specialize (Hsrc e He).
    pose proof (Hgraph (Z.to_nat (default 0%Z (data edge_index !! e)))
                  ltac:(lia)). lia.
Qed.


(** ** The layers return *)

(** A well-formed matrix is the table of its entries. *)
Lemma matrix_as_tab (h : tensor R) N F :
  shape h = [N; F] → wf h →
  h = of_rows F (tab N (λ n, tab F (λ c, default 0%R (row h n !! c)))).
Proof.
  intros Hs Hwf.
  assert (rows h = tab N (λ n, tab F (λ c, default 0%R (row h n !! c)))) as Hr.
  { rewrite (rows_tab h N F Hs). apply tab_ext. intros n Hn.
    apply (list_as_tab 0%R). by apply (row_length h N F). }
  destruct h as [s d]; unfold wf in *; simpl in *; subst s.
  unfold of_rows. rewrite length_tab. f_equal.
  rewrite <-Hr, rows_rank2. symmetry. apply concat_chunks.
  unfold numel in Hwf; simpl in Hwf. lia.
Qed.

Lemma zip_with_concat_tab (g : R → R → R) N W (F1 F2 : nat → list R) :
  (∀ n, n < N → length (F1 n) = W) → (∀ n, n < N → length (F2 n) = W) →
  zip_with g (concat (tab N F1)) (concat (tab N F2))
  = concat (tab N (λ n, zip_with g (F1 n) (F2 n))).
Proof.
  intros H1 H2. unfold tab.
  assert (∀ n, n ∈ seq 0 N → n < N) as Hin by (intros n Hn; apply elem_of_seq in Hn; lia).
  induction (seq 0 N) as [|n l IH]; simpl; [done|].
  rewrite zip_with_app.
  - rewrite IH; [done|]. intros; apply Hin. by right.
  - rewrite H1, H2; [done| |]; apply Hin; by left.
Qed.

Lemma expand_mat_tab N W (f : nat → nat → R) :
  expand [N; W] [N; W] (concat (tab N (λ n, tab W (f n))))
  = concat (tab N (λ n, tab W (f n))).
Proof.
  cbn [expand]. rewrite decide_True by done.
  replace (numel [W]) with W by (unfold numel; simpl; lia).
  rewrite chunks_concat_tab by (intros; apply length_tab).
  f_equal. rewrite map_tab. apply tab_ext. intros n _.
  apply expand_vec, length_tab.
Qed.

(** [a + b] on two matrices of the same shape. *)
Lemma add_tab N W (f f' : nat → nat → R) :
  add (of_rows W (tab N (λ n, tab W (f n)))) (of_rows W (tab N (λ n, tab W (f' n))))
  = Ok (of_rows W (tab N (λ n, tab W (λ k, (f n k + f' n k)%R)))).
Proof.
  unfold add, of_rows. cbn [shape data]. rewrite !length_tab.
  assert (broadcast_shapes [N; W] [N; W] = Some [N; W]) as ->.
  { unfold broadcast_shapes. cbn. rewrite decide_True by done. cbn. by rewrite decide_True by done. }
  cbn [length pad_shape replicate app Nat.sub].
  rewrite !expand_mat_tab. f_equal. f_equal.
  rewrite (zip_with_concat_tab Rplus N W) by (intros; apply length_tab).
  f_equal. apply tab_ext. intros n _. apply zip_with_tab.
Qed.


Lemma add_tab_r N W (f : nat → nat → R) (h : tensor R) :
  shape h = [N; W] → wf h →
  add (of_rows W (tab N (λ n, tab W (f n)))) h
  = Ok (of_rows W (tab N (λ n, tab W (λ k, (f n k + default 0 (row h n !! k))%R)))).
Proof.
  intros Hs Hwf. pose proof (matrix_as_tab h N W Hs Hwf) as Hm.
  set (h2 := of_rows _ _) in Hm.
  transitivity (add (of_rows W (tab N (λ n, tab W (f n)))) h2); [by rewrite <-Hm|].
  apply add_tab.
Qed.

Lemma at2_row (h : tensor R) N F n c :
  shape h = [N; F] → wf h → n < N → c < F →
  at2 h n c = Some (default 0%R (row h n !! c)).
Proof.
  intros Hs Hwf Hn Hc. pose proof (row_length h N F n Hs Hwf Hn) as Hlen.
  unfold at2. rewrite (rows_tab h N F Hs), lookup_tab by done. simpl.
  destruct (lookup_lt_is_Some_2 (row h n) c) as [y Hy]; [lia|]. by rewrite Hy.
Qed.

(** One layer on inputs that fit together: the attention operator of the
    layer returns, and the hidden state after the skip connection is its
    output plus the hidden state before the layer, entry by entry. *)
Lemma residual_sum (i N F E Fe L B Fi : nat) (h : tensor R)
    (edge_index : tensor Z) (edge_attr instr_vectors : tensor R)
    (batch : tensor Z) (self : gat_seq.t) (conv : gat.t) (g : rng) :
  valid_inputs i N F E Fe L B Fi h edge_index edge_attr instr_vectors batch →
  (∀ e, e < E →
     (0 ≤ default 0 (data edge_index !! (E + e)%nat) < Z.of_nat N)%Z) →
  gat_seq.convs self !! i = Some conv →
  valid_module conv →
  gat.concat conv = false →
  gat.out_channels conv = F →
  in_features (gat.lin_l conv) = F + Fi →
  in_features (gat.lin_e conv) = Fe + Fi →
  ∃ x_cat edge_cat conv_out h' g',
    gat_seq.concat_inputs i h edge_index edge_attr instr_vectors batch
    = Ok (x_cat, edge_cat)
    ∧ gat.forward (gat.XTensor x_cat) edge_index edge_cat None None (conv, g)
      = (Ok (gat.Out conv_out), (clear_alpha conv, g'))
    ∧ residual_layer edge_index edge_attr instr_vectors batch i h (self, g)
      = (Ok h',
         (gat_seq.mk (<[i := clear_alpha conv]> (gat_seq.convs self))
            (gat_seq.bns self) (gat_seq.dropout self) (gat_seq.training self),
          g'))
    ∧ shape h' = [N; F] ∧ wf h'
    ∧ ∀ n c, n < N → c < F →
        ∃ a b, at2 conv_out n c = Some a ∧ at2 h n c = Some b
               ∧ at2 h' n c = Some (a + b)%R.
Proof.
  intros Hv Hdst Hconv Hm Hcat HC Hinl Hine.
  pose proof (concat_inputs_spec _ _ _ _ _ _ _ _ _ _ _ _ _ Hv) as Hc.
  destruct Hv as [[Hh Hhwf] [Hb Hbwf] Hgraph [Hei Heiwf] Hsrc [Hea Heawf] [Hiv Hivwf] Hi].
  assert (∀ b, b < B → length (instruction instr_vectors i b) = Fi) as Hlen
    by (intros; by apply (instruction_length _ L B Fi)).
  set (x_cat := of_rows (F + Fi) _) in Hc. set (edge_cat := of_rows (Fe + Fi) _) in Hc.
  assert (num_edges edge_index = E) as HE by (unfold num_edges; by rewrite Hei).
  assert (nrows x_cat = N) as HN by (unfold nrows, x_cat, of_rows; simpl; by rewrite length_tab).
  assert (valid_input conv (gat.XTensor x_cat) edge_index edge_cat) as Hvi.
  { assert (shape x_cat = [nrows x_cat; in_features (gat.lin_l conv)] ∧ wf x_cat) as Hx.
    { split.
      - rewrite HN, Hinl. apply shape_of_rows_tab.
      - apply wf_of_rows, Forall_tab. intros n Hn.
        rewrite length_app, (row_length h N F) by done.
        rewrite Hlen; [done|]. specialize (Hgraph n Hn). unfold graph_of. lia. }
    split.
    - exact Hx.
    - intros xt [= <-]. exact Hx.
    - rewrite HE. by split.
    - rewrite HE. simpl source. rewrite HN. exact Hsrc.
    - rewrite HE. simpl. rewrite HN. exact Hdst.
    - rewrite HE, Hine. split; [apply shape_of_rows_tab|].
      apply wf_of_rows, Forall_tab. intros e He.
      rewrite length_app, (row_length edge_attr E Fe) by done.
      rewrite Hlen; [done|]. specialize (Hsrc e He).
      pose proof (Hgraph (Z.to_nat (default 0%Z (data edge_index !! e)))
                    ltac:(lia)).
      unfold graph_of, edge_src. lia. }
  destruct (forward_spec conv (gat.XTensor x_cat) edge_index edge_cat None g Hm Hvi)
    as (d & g' & _ & _ & Hf).
  assert (out_nodes (gat.XTensor x_cat) = N) as Hon.
  { unfold out_nodes. simpl. by destruct (decide _). }
  assert (out_width conv = F) as How by (unfold out_width; by rewrite Hcat).
  pose proof (add_tab_r N F (out_entry conv (gat.XTensor x_cat) edge_index d) h Hh Hhwf)
    as Hadd.
  eexists x_cat, edge_cat, _, _, g'.
  split; [exact Hc|]. split; [exact Hf|]. split; [|split; [|split]].
  - unfold residual_layer. rewrite Hc, bind_lift_ok. cbn [fst snd].
    erewrite bind_ok; cycle 1.
    { unfold gat_seq.call_conv. rewrite Hconv, Hf. reflexivity. }
    cbn [gat_seq.out_tensor]. unfold output_tensor. rewrite Hon, How, Hadd.
    reflexivity.
  - apply shape_of_rows_tab.
  - apply wf_of_rows_tab.
  - intros n c Hn Hc'. eexists _, _. split; [|split].
    + unfold output_tensor. rewrite Hon, How. by apply at2_of_rows_tab.
    + by apply (at2_row h N F).
    + by rewrite at2_of_rows_tab.
Qed.

Lemma valid_layer_clear F Fe Fi conv :
  valid_layer F Fe Fi conv → valid_layer F Fe Fi (clear_alpha conv).
Proof.
  intros [[] ? ? ? ?]. split; [split|..]; done.
Qed.

Lemma normalize_length (bn : BatchNorm1d.t) N F (mu sigma2 r : list R) :
  valid_norm N F bn → length mu = F → length sigma2 = F → length r = F →
  length (BatchNorm1d.normalize bn mu sigma2 r) = F.
Proof.
  intros [? Hw Hb _ _ _] Hmu Hs Hr. unfold BatchNorm1d.normalize.
  rewrite length_zip_with, !length_zip. lia.
Qed.

Lemma batch_norm_returns (bn : BatchNorm1d.t) N F (h : tensor R) :
  valid_norm N F bn → shape h = [N; F] → wf h →
  ∃ h' bn', BatchNorm1d.forward h bn = (Ok h', bn')
            ∧ shape h' = [N; F] ∧ wf h' ∧ valid_norm N F bn'.
Proof.
  intros Hbn Hs Hwf. pose proof Hbn as [Hf Hw Hb Hm Hv Hn].
  assert (Forall (λ r, length r = F) (rows h)) as Hrows.
  { rewrite (rows_tab h N F Hs). apply Forall_tab. intros n Hn'.
    by apply (row_length h N F). }
  assert (length (rows h) = N) as HN by (by rewrite (rows_tab h N F Hs), length_tab).
  assert (∀ mu sigma2, length mu = F → length sigma2 = F →
            wf (Tensor [N; F] (concat (map (BatchNorm1d.normalize bn mu sigma2) (rows h)))))
    as Hout.
  { intros mu sigma2 Hmu Hsig. unfold wf. cbn [data shape].
    rewrite (length_concat_uniform F).
    - rewrite length_map, HN. unfold numel; simpl; lia.
    - apply Forall_map. eapply Forall_impl; [exact Hrows|].
      intros r Hr. simpl. by apply (normalize_length bn N F). }
  unfold BatchNorm1d.forward. rewrite Hs, decide_True by done.
  destruct (BatchNorm1d.training bn) eqn:Htr.
  - rewrite decide_False by (specialize (Hn eq_refl); lia).
    eexists _, _. split; [reflexivity|]. split; [done|]. split.
    + apply Hout; by rewrite length_map, length_map, length_seq.
    + split; cbn; try done;
        rewrite length_zip_with, !length_map, length_seq; lia.
  - eexists _, _. split; [reflexivity|]. split; [done|]. split; [|done].
    by apply Hout.
Qed.


Lemma post_process_returns N F Fe Fi (self : gat_seq.t) (g : rng) (p : R)
    (tr : bool) i (h : tensor R) :
  valid_stack N F Fe Fi self → (0 <= p <= 1)%R →
  i < length (gat_seq.bns self) → shape h = [N; F] → wf h →
  ∃ h' st,
    post_process p tr i h (self, g) = (Ok h', st)
    ∧ shape h' = [N; F] ∧ wf h'
    ∧ valid_stack N F Fe Fi st.1
    ∧ length (gat_seq.convs st.1) = length (gat_seq.convs self).
Proof.
  intros [Hconvs Hbns Hcount Hdrop] Hp Hi Hs Hwf.
  destruct (lookup_lt_is_Some_2 _ _ Hi) as [bn Hbn].
  pose proof (proj1 (Forall_lookup _ _) Hbns i bn Hbn) as Hvn.
  destruct (batch_norm_returns bn N F h Hvn Hs Hwf) as (h1 & bn' & Hf & Hs1 & Hwf1 & Hvn').
  destruct (dropout_ok (map relu (data h1)) p tr g Hp) as (d & g' & Hd & Hlen & _).
  unfold post_process.
  erewrite bind_ok; cycle 1.
  { unfold gat_seq.call_bn. rewrite Hbn, Hf. reflexivity. }
  cbn [shape data].
  erewrite bind_ok; cycle 1.
  { apply with_rng_ok. exact Hd. }
  eexists _, _. split; [reflexivity|]. cbn [fst shape]. split; [done|]. split.
  - unfold wf in *. cbn [shape data]. by rewrite Hlen, length_map.
  - split; [|done]. split; cbn; try done.
    + by apply Forall_insert.
    + by rewrite length_insert.
Qed.

Lemma layer_returns (N F E Fe L B Fi Ltot : nat) (x : tensor R)
    (edge_index : tensor Z) (edge_attr instr_vectors : tensor R)
    (batch : tensor Z) (self : gat_seq.t) (g : rng) (i : nat) (h : tensor R) :
  valid_inputs 0 N F E Fe L B Fi x edge_index edge_attr instr_vectors batch →
  (∀ e, e < E →
     (0 ≤ default 0 (data edge_index !! (E + e)%nat) < Z.of_nat N)%Z) →
  valid_stack N F Fe Fi self →
  length (gat_seq.convs self) = Ltot → Ltot ≤ L → i < Ltot →
  shape h = [N; F] → wf h →
  ∃ h' st,
    gat_seq.layer Ltot edge_index edge_attr instr_vectors batch i h (self, g)
    = (Ok h', st)
    ∧ shape h' = [N; F] ∧ wf h'
    ∧ valid_stack N F Fe Fi st.1
    ∧ length (gat_seq.convs st.1) = Ltot.
Proof.
  intros Hv Hdst Hstack HL HLL Hi Hs Hwf.
  assert (valid_inputs i N F E Fe L B Fi h edge_index edge_attr instr_vectors batch)
    as Hvi by (destruct Hv; split; (done || lia)).
  pose proof Hstack as [Hconvs Hbns Hcount Hdrop].
  destruct (lookup_lt_is_Some_2 (gat_seq.convs self) i) as [conv Hconv]; [lia|].
  destruct (proj1 (Forall_lookup _ _) Hconvs i conv Hconv) as [Hm Hcat HC Hinl Hine].
  destruct (residual_sum i N F E Fe L B Fi h edge_index edge_attr instr_vectors
              batch self conv g Hvi Hdst Hconv Hm Hcat HC Hinl Hine)
    as (x_cat & edge_cat & conv_out & h1 & g1 & _ & _ & Hres & Hs1 & Hwf1 & _).
  set (self1 := gat_seq.mk _ _ _ _) in Hres.
  assert (valid_stack N F Fe Fi self1) as Hstack1.
  { split; cbn; try done.
    - apply Forall_insert; [done|]. by apply valid_layer_clear.
    - by rewrite length_insert. }
  assert (length (gat_seq.convs self1) = Ltot) as HL1
    by (cbn; by rewrite length_insert).
  destruct (decide (i = Ltot - 1)) as [Hlast|Hlast].
  - rewrite layer_last by done. rewrite Hres. by eexists _, _.
  - rewrite layer_hidden by done. unfold hidden_layer. rewrite bind_get.
    erewrite bind_ok by exact Hres. cbn [fst].
    destruct (post_process_returns N F Fe Fi self1 g1 (gat_seq.dropout self)
                (gat_seq.training self) i h1 Hstack1 Hdrop)
      as (h2 & st & Hpost & Hs2 & Hwf2 & Hstack2 & HL2); [cbn; lia|done|done|].
    rewrite Hpost. exists h2, st. by rewrite HL2.
Qed.

Lemma loop_returns (N F E Fe L B Fi Ltot : nat) (x : tensor R)
    (edge_index : tensor Z) (edge_attr instr_vectors : tensor R)
    (batch : tensor Z) (k : nat) :
  valid_inputs 0 N F E Fe L B Fi x edge_index edge_attr instr_vectors batch →
  (∀ e, e < E →
     (0 ≤ default 0 (data edge_index !! (E + e)%nat) < Z.of_nat N)%Z) →
  Ltot ≤ L →
  ∀ j h self g,
    j + k ≤ Ltot → valid_stack N F Fe Fi self →
    length (gat_seq.convs self) = Ltot → shape h = [N; F] → wf h →
    ∃ h' st,
      gat_seq.for_each (seq j k)
        (gat_seq.layer Ltot edge_index edge_attr instr_vectors batch) h (self, g)
      = (Ok h', st)
      ∧ shape h' = [N; F] ∧ wf h'
      ∧ valid_stack N F Fe Fi st.1
      ∧ length (gat_seq.convs st.1) = Ltot.
Proof.
  intros Hv Hdst HLL. induction k as [|k IH]; intros j h self g Hj Hstack HL Hs Hwf.
  - by eexists _, _.
  - destruct (layer_returns N F E Fe L B Fi Ltot x edge_index edge_attr
                instr_vectors batch self g j h)
      as (h1 & [self1 g1] & Hlayer & Hs1 & Hwf1 & Hstack1 & HL1); try (done || lia).
    destruct (IH (S j) h1 self1 g1) as (h2 & st & Hloop & ?); try (done || lia).
    exists h2, st. split; [|done].
    cbn [seq gat_seq.for_each]. by erewrite bind_ok by exact Hlayer.
Qed.

(** On inputs that fit together, a pass over the stack returns a hidden
    state of the shape of the one it was given. *)
Lemma forward_returns (N F E Fe L B Fi : nat) (x : tensor R)
    (edge_index : tensor Z) (edge_attr instr_vectors : tensor R)
    (batch : tensor Z) (self : gat_seq.t) (g : rng) :
  valid_inputs 0 N F E Fe L B Fi x edge_index edge_attr instr_vectors batch →
  (∀ e, e < E →
     (0 ≤ default 0 (data edge_index !! (E + e)%nat) < Z.of_nat N)%Z) →
  valid_stack N F Fe Fi self → length (gat_seq.convs self) ≤ L →
  ∃ h st,
    gat_seq.forward x edge_index edge_attr instr_vectors batch (self, g)
    = (Ok h, st)
    ∧ shape h = [N; F] ∧ wf h.
Proof.
  intros Hv Hdst Hstack HL. unfold gat_seq.forward. rewrite bind_get. cbn [fst].
  destruct (loop_returns N F E Fe L B Fi (length (gat_seq.convs self)) x
              edge_index edge_attr instr_vectors batch
              (length (gat_seq.convs self)) Hv Hdst HL 0 x self g)
    as (h & st & Hloop & Hs & Hwf & _); try (done || lia).
  - by destruct Hv as [[? ?] _ _ _ _ _ _ _].
  - by destruct Hv as [[? ?] _ _ _ _ _ _ _].
  - by exists h, st.
Qed.

Lemma repeatM_Forall {G A} (P : A → Prop) (m : Gen G A) n g :
  (∀ g, P (m g).1) →
  Forall P (gat_seq.repeatM n m g).1 ∧ length (gat_seq.repeatM n m g).1 = n.
Proof.
  intros Hm. revert g. induction n as [|n IH]; intros g; simpl; [done|].
  unfold mbind, Gen_bind, mret, Gen_ret.
  pose proof (Hm g) as Ha. destruct (m g) as [a g1].
  destruct (IH g1) as [Hl Hn]. destruct (gat_seq.repeatM n m g1) as [l g2].
  simpl in *. split; [by constructor|by rewrite Hn].
Qed.

(** [__init__] builds a valid stack, the hidden width being the output
    width of every layer. *)
Lemma init_stack_valid (N F Fe Fi num_ins : nat) (p : R) (heads : nat) (ns : R)
    (bias : bool) (g : rng) :
  heads * F ≠ 0 → (0 <= p <= 1)%R → 1 < N →
  let self := (gat_seq.__init__ F F Fe Fi num_ins p heads ns bias g).1 in
  valid_stack N F Fe Fi self ∧ length (gat_seq.convs self) = num_ins.
Proof.
  intros Hpos Hp HN. unfold gat_seq.__init__, mbind, Gen_bind, mret, Gen_ret.
  destruct (repeatM_Forall (valid_layer F Fe Fi)
              (gat.__init__ (gat.Int (F + Fi)) F (Fe + Fi) heads false ns p true bias)
              num_ins g) as [Hl Hn].
  { intros g1.
    destruct (init_valid (gat.Int (F + Fi)) F (Fe + Fi) heads false ns p true bias g1
                Hpos Hp) as (Hm & _ & HC & Hcat & _ & _ & _ & _ & Hinl & _ & Hine).
    by split. }
  destruct (gat_seq.repeatM _ _ _) as [convs g1]. simpl in *.
  split; [|done]. split; cbn; try done.
  - apply Forall_replicate. split; cbn; by rewrite ?length_replicate.
  - rewrite length_replicate. lia.
Qed.

Lemma example_stack_valid :
  valid_stack 5 2 2 3 example.stack ∧ length (gat_seq.convs example.stack) = 2.
Proof. apply init_stack_valid; [lia|lra|lia]. Qed.

Lemma example_stack_inputs :
  valid_inputs 0 5 2 3 2 2 2 3 example.hidden example.batch_edges
    example.batch_edge_attr example.instr_vectors2 example.batch.
Proof.
  split; try (split; reflexivity); try lia.
  - intros n Hn. destruct n as [|[|[|[|[|n]]]]]; simpl; lia.
  - intros e He. destruct e as [|[|[|e]]]; simpl; lia.
Qed.

Lemma example_stack_returns :
  ∃ h st,
    gat_seq.forward example.hidden example.batch_edges example.batch_edge_attr
      example.instr_vectors2 example.batch (example.stack, example.stack_rng)
    = (Ok h, st)
    ∧ shape h = [5; 2].
Proof.
  destruct example_stack_valid as [Hstack HL].
  destruct (forward_returns 5 2 3 2 2 2 3 example.hidden example.batch_edges
              example.batch_edge_attr example.instr_vectors2 example.batch
              example.stack example.stack_rng example_stack_inputs)
    as (h & st & Hf & Hs & _); [|done|lia|by exists h, st].
  intros e He. destruct e as [|[|[|e]]]; simpl; lia.
Qed.



(** C6.  In layer [i] the attention operator is called on node features
    whose row [n] is the hidden state of [n] followed by layer [i]'s
    instruction vector for the graph instance [batch[n]], and on edge
    features whose row [e] is the feature vector of [e] followed by layer
    [i]'s instruction vector for the graph instance of the source of
    [e]. *)
Theorem instruction_broadcast (i N F E Fe L B Fi : nat) (h : tensor R)
    (edge_index : tensor Z) (edge_attr instr_vectors : tensor R)
    (batch : tensor Z) :
  valid_inputs i N F E Fe L B Fi h edge_index edge_attr instr_vectors batch →
  ∃ x_cat edge_cat,
    gat_seq.concat_inputs i h edge_index edge_attr instr_vectors batch
    = Ok (x_cat, edge_cat)
    ∧ shape x_cat = [N; F + Fi]
    ∧ shape edge_cat = [E; Fe + Fi]
    ∧ (∀ n, n < N →
         row x_cat n = row h n ++ instruction instr_vectors i (graph_of batch n))
    ∧ (∀ e, e < E →
         row edge_cat e
         = row edge_attr e
           ++ instruction instr_vectors i (graph_of batch (edge_src edge_index e)))
    ∧ ∀ num_conv_layers s,
        gat_seq.layer num_conv_layers edge_index edge_attr instr_vectors batch i h s
        = (conv_res ← gat_seq.call_conv i
                         (gat.forward (gat.XTensor x_cat) edge_index edge_cat
                            None None);
           h' ← lift (add (gat_seq.out_tensor conv_res) h);
           if decide (i ≠ num_conv_layers - 1)
           then post_process (gat_seq.dropout s.1) (gat_seq.training s.1) i h'
           else mret h') s.
Proof.
  intros Hv. pose proof (concat_inputs_spec _ _ _ _ _ _ _ _ _ _ _ _ _ Hv) as Hc.
  destruct Hv as [[Hh Hhwf] [Hb Hbwf] Hgraph [Hei Heiwf] Hsrc [Hea Heawf] [Hiv Hivwf] Hi].
  eexists _, _. split; [exact Hc|].
  split; [apply gat_claims_aux.shape_of_rows_tab|].
  split; [apply gat_claims_aux.shape_of_rows_tab|].
  assert (∀ b, b < B → length (instruction instr_vectors i b) = Fi) as Hlen
    by (intros; by apply (instruction_length _ L B Fi)).
  split; [|split].
  - intros n Hn. rewrite (row_of_rows_tab (F + Fi) N); [done| |done].
    intros n' Hn'. rewrite length_app, (row_length h N F) by done.
    rewrite Hlen; [done|]. specialize (Hgraph n' Hn'). unfold graph_of. lia.
  - intros e He. rewrite (row_of_rows_tab (Fe + Fi) E); [done| |done].
    intros e' He'. rewrite length_app, (row_length edge_attr E Fe) by done.
    rewrite Hlen; [done|]. specialize (Hsrc e' He').
    pose proof (Hgraph (Z.to_nat (default 0%Z (data edge_index !! e')))
                  ltac:(lia)).
    unfold graph_of, edge_src. lia.
  - intros L' s. unfold gat_seq.layer. rewrite bind_get. cbn [fst].
    rewrite Hc, bind_lift_ok. done.
Qed.

Lemma example_batch_valid :
  valid_inputs 0 5 2 3 2 1 2 3 example.hidden example.batch_edges
    example.batch_edge_attr example.instr_vectors example.batch.
Proof.
  split; try (split; reflexivity); try lia.
  - intros n Hn. destruct n as [|[|[|[|[|n]]]]]; simpl; lia.
  - intros e He. destruct e as [|[|[|e]]]; simpl; lia.
Qed.

Lemma instruction_broadcast_witness :
  valid_inputs 0 5 2 3 2 1 2 3 example.hidden example.batch_edges
    example.batch_edge_attr example.instr_vectors example.batch
  ∧ ∃ x_cat edge_cat,
      gat_seq.concat_inputs 0 example.hidden example.batch_edges
        example.batch_edge_attr example.instr_vectors example.batch
      = Ok (x_cat, edge_cat)
      ∧ (∀ n, n < 2 →
           row x_cat n
           = row example.hidden n ++ instruction example.instr_vectors 0 0)
      ∧ (∀ n, 2 ≤ n < 5 →
           row x_cat n
           = row example.hidden n ++ instruction example.instr_vectors 0 1)
      ∧ row edge_cat 0
        = row example.batch_edge_attr 0 ++ instruction example.instr_vectors 0 0
      ∧ (∀ e, 1 ≤ e < 3 →
           row edge_cat e
           = row example.batch_edge_attr e
             ++ instruction example.instr_vectors 0 1).
Proof.
  split; [exact example_batch_valid|].
  destruct (instruction_broadcast 0 5 2 3 2 1 2 3 example.hidden
              example.batch_edges example.batch_edge_attr example.instr_vectors
              example.batch example_batch_valid)
    as (x_cat & edge_cat & Hc & _ & _ & Hn & He & _).
  exists x_cat, edge_cat. split; [exact Hc|]. split; [|split; [|split]].
  - intros n Hlt. rewrite Hn by lia. by destruct n as [|[|n]]; [| |lia].
  - intros n Hlt. rewrite Hn by lia.
    by destruct n as [|[|[|[|[|n]]]]]; [lia|lia| | | |lia].
  - by rewrite He by lia.
  - intros e Hlt. rewrite He by lia. by destruct e as [|[|[|e]]]; [lia| | |lia].
Defined.

End gat_seq_facts.

Module restore_facts.
Import torch pytorch_misc restore_spec.

Section restore.
Context (own : gmap string nat) (st0 : nat → tensor R)
        (names_map : option (list (string * string))).
Implicit Types (item : string * tensor R) (sd : list (string * tensor R)).

Local Abbreviation via := (via_detector own names_map).
Local Abbreviation res := (resolved own names_map).
Local Abbreviation ren := (renamed names_map).
Local Abbreviation run := (restore_spec.run own st0 names_map).
Local Abbreviation invariant := (restore_spec.invariant own st0 names_map).

Lemma run_snoc sd item :
  run (sd ++ [item]) = restore_item own names_map (run sd) item.
Proof. unfold restore_spec.run. by rewrite foldl_snoc. Qed.

Lemma ends_via_detector_snoc sd item :
  ends_via_detector own names_map (sd ++ [item]) = via item.
Proof. unfold ends_via_detector. by rewrite last_snoc. Qed.

Lemma detector_then_plain_snoc sd item :
  detector_then_plain own names_map (sd ++ [item])
  ↔ detector_then_plain own names_map sd
    ∨ (ends_via_detector own names_map sd = true ∧ via item = false).
Proof.
  unfold detector_then_plain, ends_via_detector. split.
  - intros (i & x & y & Hx & Hy & Vx & Vy).
    apply lookup_snoc_Some in Hy as [[Hlt Hy]|[Hlen ->]].
    + left. exists i, x, y. rewrite lookup_app_l in Hx by lia. done.
    + right. rewrite lookup_app_l in Hx by lia.
      rewrite last_lookup. replace (pred (length sd)) with i by lia.
      rewrite Hx. done.
  - intros [(i & x & y & Hx & Hy & Vx & Vy)|[Hlast Hv]].
    + exists i, x, y. split; [by apply lookup_app_l_Some|].
      split; [by apply lookup_app_l_Some|done].
    + destruct (last sd) as [x|] eqn:Hx; [|done]. simpl in Hlast.
      rewrite last_lookup in Hx.
      assert (0 < length sd) by (apply lookup_lt_Some in Hx; lia).
      exists (pred (length sd)), x, item.
      split; [by apply lookup_app_l_Some|]. split; [|done].
      replace (S (pred (length sd))) with (length sd) by lia.
      apply list_lookup_middle. done.
Qed.

Lemma restored_snoc sd item l :
  restored own st0 names_map (sd ++ [item]) l
  = if decide (copied_to own st0 names_map l item)
    then Tensor (shape (st0 l)) (data item.2)
    else restored own st0 names_map sd l.
Proof.
  unfold restored, copied_to. rewrite filter_app, filter_cons, filter_nil.
  destruct (decide _) as [Hc|Hc].
  - by rewrite last_snoc.
  - by rewrite app_nil_r.
Qed.

Lemma via_true item :
  via item = true
  ↔ is_Some (own !! ("detector." +:+ ren item)) ∧ own !! ren item = None.
Proof. unfold via_detector. apply bool_decide_eq_true. Qed.

Lemma missing_snoc_keys sd item :
  list_to_set (C:=gset string) (ren <$> (sd ++ [item]))
  = list_to_set (ren <$> sd) ∪ {[ ren item ]}.
Proof.
  rewrite fmap_app, list_to_set_app_L. simpl. by rewrite union_empty_r_L.
Qed.

Lemma invariant_nil : invariant [] (run []).
Proof.
  split; simpl; try done.
  - split; [done|]. intros [(item & Hin & _)|(i & x & y & Hx & _)].
    + by apply elem_of_nil in Hin.
    + by rewrite lookup_nil in Hx.
  - intros item Hin. by apply elem_of_nil in Hin.
  - intros item l Hin. by apply elem_of_nil in Hin.
  - intros (i & x & y & Hx & _). by rewrite lookup_nil in Hx.
  - intros m Hm. by apply elem_of_nil in Hm.
Qed.


Lemma elem_of_snoc {A} (l : list A) (x y : A) :
  y ∈ l ++ [x] ↔ y ∈ l ∨ y = x.
Proof. rewrite elem_of_app, list_elem_of_singleton. done. Qed.

Lemma copied_to_unique item l l' :
  own !! res item = Some l' → copied_to own st0 names_map l item → l = l'.
Proof. intros Hl' [Hl _]. congruence. Qed.

(** One turn of the loop keeps the invariant. *)
Lemma invariant_step sd v item :
  invariant sd v →
  invariant (sd ++ [item]) (restore_item own names_map v item).
Proof.
  intros [Hkeys Hdet Hshape Hstate Hmm Hunx Hsize Hcnr Hsound].
  pose proof (detector_then_plain_snoc sd item) as Hdtp.
  unfold restore_item. fold (ren item).
  destruct (decide (is_Some (own !! ("detector." +:+ ren item))
                    ∧ own !! ren item = None)) as [Hv|Hv].
  - (* restored through the prefix *)
    assert (via item = true) as Hvia by (by apply via_true).
    assert (res item = "detector." +:+ ren item) as Hres
      by (unfold resolved; by rewrite Hvia).
    destruct Hv as [[l0 Hl0] Hnone]. rewrite Hl0.
    assert (own !! res item = Some l0) as Hr0 by (by rewrite Hres).
    rewrite (Hshape l0).
    destruct (decide (shape item.2 = shape (st0 l0))) as [Hsh|Hsh].
    + split; simpl.
      * by rewrite Hkeys, missing_snoc_keys.
      * by rewrite ends_via_detector_snoc.
      * intros l. destruct (decide (l = l0)) as [->|Hne].
        -- rewrite fn_lookup_insert. done.
        -- rewrite fn_lookup_insert_ne by done. apply Hshape.
      * intros l. rewrite restored_snoc. destruct (decide (l = l0)) as [->|Hne].
        -- rewrite fn_lookup_insert, decide_True by done. done.
        -- rewrite fn_lookup_insert_ne by done.
           rewrite decide_False; [apply Hstate|].
           intros Hc. by apply Hne, (copied_to_unique item).
      * rewrite Hmm, Hdtp. split.
        -- intros [(it & Hin & Hbad)|Hd]; [left|by right; left].
           exists it. split; [apply elem_of_snoc; by left|done].
        -- intros [(it & Hin & Hbad)|[Hd|[_ Hf]]]; [|by right|congruence].
           apply elem_of_snoc in Hin as [Hin| ->]; [left; by exists it|].
           destruct Hbad as [Hu|(l & Hl & Hne)].
           ++ unfold unexpected in Hu. congruence.
           ++ assert (l = l0) as -> by congruence. done.
      * intros it Hin Hu. apply elem_of_snoc in Hin as [Hin| ->]; [by apply Hunx|].
        unfold unexpected in Hu. congruence.
      * intros it l Hin Hl Hne. apply elem_of_snoc in Hin as [Hin| ->];
          [by apply Hsize|].
        assert (l = l0) as -> by congruence. done.
      * intros Hd. apply Hdtp in Hd as [Hd|[_ Hf]]; [by apply Hcnr|congruence].
      * intros m Hm. destruct (Hsound m Hm) as [?|[(it & ? & ? & ?)|(it & l & ? & ? & ? & ?)]].
        -- by left.
        -- right; left. exists it. split; [apply elem_of_snoc; by left|done].
        -- right; right. exists it, l. split; [apply elem_of_snoc; by left|done].
    + split; simpl.
      * by rewrite Hkeys, missing_snoc_keys.
      * by rewrite ends_via_detector_snoc.
      * apply Hshape.
      * intros l. rewrite restored_snoc. rewrite decide_False; [apply Hstate|].
        intros Hc. assert (l = l0) as -> by (by apply (copied_to_unique item)).
        by destruct Hc.
      * split; [|done]. intros _. left. exists item.
        split; [apply elem_of_snoc; by right|]. right. by exists l0.
      * intros it Hin Hu. apply elem_of_app. left.
        apply elem_of_snoc in Hin as [Hin| ->]; [by apply Hunx|].
        unfold unexpected in Hu. congruence.
      * intros it l Hin Hl Hne. apply elem_of_snoc in Hin as [Hin| ->].
        -- apply elem_of_app. left. by apply Hsize.
        -- assert (l = l0) as -> by congruence.
           apply elem_of_snoc. right. by rewrite Hres.
      * intros Hd. apply elem_of_app. left.
        apply Hdtp in Hd as [Hd|[_ Hf]]; [by apply Hcnr|congruence].
      * intros m Hm. apply elem_of_snoc in Hm as [Hm| ->].
        -- destruct (Hsound m Hm) as [?|[(it & ? & ? & ?)|(it & l & ? & ? & ? & ?)]].
           ++ by left.
           ++ right; left. exists it. split; [apply elem_of_snoc; by left|done].
           ++ right; right. exists it, l. split; [apply elem_of_snoc; by left|done].
        -- right; right. exists item, l0.
           split; [apply elem_of_snoc; by right|]. by rewrite Hres.
  - (* restored under its own key *)
    assert (via item = false) as Hvia.
    { destruct (via item) eqn:Hb; [|done]. by apply via_true in Hb. }
    assert (res item = ren item) as Hres by (unfold resolved; by rewrite Hvia).
    set (mm := if only_detector v then true else mismatch v).
    set (pr := if only_detector v then printed v ++ [CouldNotRestore] else printed v).
    assert ((if only_detector v
             then (ren item, true, false, printed v ++ [CouldNotRestore])
             else (ren item, mismatch v, false, printed v))
            = (ren item, mm, false, pr)) as ->
      by (unfold mm, pr; by destruct (only_detector v)).
    assert (mm = true
            ↔ (∃ it, it ∈ sd ∧ (unexpected own names_map it
                                ∨ size_mismatch own st0 names_map it))
              ∨ detector_then_plain own names_map (sd ++ [item])) as Hmm'.
    { unfold mm. rewrite Hdtp, <-Hdet. destruct (only_detector v).
      - split; [intros _; right; by right|done].
      - rewrite Hmm. split; [intros [?|?]; [by left|by right; left]|].
        intros [?|[?|[? _]]]; [by left|by right|done]. }
    assert (∀ m, m ∈ printed v → m ∈ pr) as Hpr.
    { intros m Hm. unfold pr. destruct (only_detector v); [|done].
      apply elem_of_app. by left. }
    assert (detector_then_plain own names_map (sd ++ [item]) → CouldNotRestore ∈ pr)
      as Hcnr'.
    { intros Hd. apply Hdtp in Hd as [Hd|[Hl _]]; [by apply Hpr, Hcnr|].
      unfold pr. rewrite Hdet, Hl. apply elem_of_snoc. by right. }
    assert (∀ m, m ∈ pr → m = CouldNotRestore ∨ m ∈ printed v) as Hpr_inv.
    { intros m. unfold pr. destruct (only_detector v); [|by right].
      intros Hm. apply elem_of_snoc in Hm as [?| ->]; [by right|by left]. }
    assert (∀ m, m ∈ pr →
              m = CouldNotRestore
              ∨ (∃ it, it ∈ sd ++ [item] ∧ unexpected own names_map it
                       ∧ m = UnexpectedKey (res it) (shape it.2))
              ∨ (∃ it l, it ∈ sd ++ [item] ∧ own !! res it = Some l
                         ∧ shape it.2 ≠ shape (st0 l)
                         ∧ m = SizeMismatch (res it) (shape (st0 l)) (shape it.2)))
      as Hsound'.
    { intros m Hm. destruct (Hpr_inv m Hm) as [?|Hm']; [by left|].
      destruct (Hsound m Hm') as [?|[(it & ? & ? & ?)|(it & l & ? & ? & ? & ?)]].
      - by left.
      - right; left. exists it. split; [apply elem_of_snoc; by left|done].
      - right; right. exists it, l. split; [apply elem_of_snoc; by left|done]. }
    clearbody mm pr.
    destruct (own !! ren item) as [l0|] eqn:Hl0.
    + assert (own !! res item = Some l0) as Hr0 by (by rewrite Hres).
      rewrite (Hshape l0).
      destruct (decide (shape item.2 = shape (st0 l0))) as [Hsh|Hsh].
      * split; simpl.
        -- by rewrite Hkeys, missing_snoc_keys.
        -- by rewrite ends_via_detector_snoc.
        -- intros l. destruct (decide (l = l0)) as [->|Hne].
           ++ rewrite fn_lookup_insert. done.
           ++ rewrite fn_lookup_insert_ne by done. apply Hshape.
        -- intros l. rewrite restored_snoc. destruct (decide (l = l0)) as [->|Hne].
           ++ rewrite fn_lookup_insert, decide_True by done. done.
           ++ rewrite fn_lookup_insert_ne by done.
              rewrite decide_False; [apply Hstate|].
              intros Hc. by apply Hne, (copied_to_unique item).
        -- rewrite Hmm'. split.
           ++ intros [(it & Hin & Hbad)|Hd]; [left|by right].
              exists it. split; [apply elem_of_snoc; by left|done].
           ++ intros [(it & Hin & Hbad)|Hd]; [|by right].
              apply elem_of_snoc in Hin as [Hin| ->]; [left; by exists it|].
              destruct Hbad as [Hu|(l & Hl & Hne)].
              ** unfold unexpected in Hu. congruence.
              ** assert (l = l0) as -> by congruence. done.
        -- intros it Hin Hu. apply elem_of_snoc in Hin as [Hin| ->];
             [by apply Hpr, Hunx|].
           unfold unexpected in Hu. congruence.
        -- intros it l Hin Hl Hne. apply elem_of_snoc in Hin as [Hin| ->];
             [by apply Hpr, Hsize|].
           assert (l = l0) as -> by congruence. done.
        -- done.
        -- done.
      * split; simpl.
        -- by rewrite Hkeys, missing_snoc_keys.
        -- by rewrite ends_via_detector_snoc.
        -- apply Hshape.
        -- intros l. rewrite restored_snoc. rewrite decide_False; [apply Hstate|].
           intros Hc. assert (l = l0) as -> by (by apply (copied_to_unique item)).
           by destruct Hc.
        -- split; [|done]. intros _. left. exists item.
           split; [apply elem_of_snoc; by right|]. right. by exists l0.
        -- intros it Hin Hu. apply elem_of_app. left.
           apply elem_of_snoc in Hin as [Hin| ->]; [by apply Hpr, Hunx|].
           unfold unexpected in Hu. congruence.
        -- intros it l Hin Hl Hne. apply elem_of_snoc in Hin as [Hin| ->].
           ++ apply elem_of_app. left. by apply Hpr, Hsize.
           ++ assert (l = l0) as -> by congruence.
              apply elem_of_snoc. right. by rewrite Hres.
        -- intros Hd. apply elem_of_app. left. by apply Hcnr'.
        -- intros m Hm. apply elem_of_snoc in Hm as [Hm| ->]; [by apply Hsound'|].
           right; right. exists item, l0.
           split; [apply elem_of_snoc; by right|]. by rewrite Hres.
    + assert (unexpected own names_map item) as Hu
        by (unfold unexpected; by rewrite Hres).
      split; simpl.
      * by rewrite Hkeys, missing_snoc_keys.
      * by rewrite ends_via_detector_snoc.
      * apply Hshape.
      * intros l. rewrite restored_snoc. rewrite decide_False; [apply Hstate|].
        intros [Hc _]. unfold unexpected in Hu. congruence.
      * split; [|done]. intros _. left. exists item.
        split; [apply elem_of_snoc; by right|]. by left.
      * intros it Hin Hu'. apply elem_of_snoc in Hin as [Hin| ->].
        -- apply elem_of_app. left. by apply Hpr, Hunx.
        -- apply elem_of_snoc. right. by rewrite Hres.
      * intros it l Hin Hl Hne. apply elem_of_app. left.
        apply elem_of_snoc in Hin as [Hin| ->]; [by apply Hpr, Hsize|].
        unfold unexpected in Hu. congruence.
      * intros Hd. apply elem_of_app. left. by apply Hcnr'.
      * intros m Hm. apply elem_of_snoc in Hm as [Hm| ->]; [by apply Hsound'|].
        right; left. exists item.
        split; [apply elem_of_snoc; by right|]. by rewrite Hres.
Qed.

Lemma run_invariant sd : invariant sd (run sd).
Proof.
  induction sd as [|item sd IH] using rev_ind; [apply invariant_nil|].
  rewrite run_snoc. by apply invariant_step.
Qed.

End restore.

Lemma restored_cases own st0 names_map (sd : list (string * tensor R)) l :
  (restored own st0 names_map sd l = st0 l
   ∧ ∀ item, item ∈ sd → ¬ copied_to own st0 names_map l item)
  ∨ (∃ item, item ∈ sd ∧ copied_to own st0 names_map l item
             ∧ restored own st0 names_map sd l
               = Tensor (shape (st0 l)) (data item.2)).
Proof.
  unfold restored.
  destruct (last (filter _ sd)) as [item|] eqn:Hlast; simpl.
  - right. exists item. apply last_Some_elem_of, list_elem_of_filter in Hlast.
    destruct Hlast as [Hc Hin]. done.
  - left. split; [done|]. apply last_None in Hlast. intros item Hin Hc.
    assert (item ∈ filter (λ item, own !! resolved own names_map item = Some l
                                   ∧ shape item.2 = shape (st0 l)) sd) as Hf
      by (by apply list_elem_of_filter).
    rewrite Hlast in Hf. by apply elem_of_nil in Hf.
Qed.

(** C9, as the code has it.  [optimistic_restore] always returns.  Every
    entry of the state dict is renamed through [names_map] and restored
    into the parameter of that name or, when the network has no such
    parameter but has one of that name prefixed by ["detector."], into the
    prefixed one.  Every tensor of the network ends with the data of the
    last entry copied into it, and is unchanged when there is none; every
    entry whose renamed key is a key of the network with a tensor of the
    same size is copied.  Unexpected keys, size mismatches, a plain entry
    after a prefixed one and (unless the last entry went through the prefix)
    missing keys are printed, and the answer is [True] exactly when none of
    these occurred. *)
Theorem optimistic_restore_best_effort (network : Network)
    (state_dict : list (string * tensor R))
    (names_map : option (list (string * string))) :
  ∃ ok network' out,
    optimistic_restore network state_dict names_map = (ok, network', out)
    ∧ names network' = names network
    ∧ (∀ l, storage network' l
            = restored (names network) (storage network) names_map state_dict l)
    ∧ (∀ l, (∀ item, item ∈ state_dict →
               ¬ copied_to (names network) (storage network) names_map l item) →
            storage network' l = storage network l)
    ∧ (∀ item l, item ∈ state_dict →
         names network !! renamed names_map item = Some l →
         shape item.2 = shape (storage network l) →
         copied_to (names network) (storage network) names_map l item
         ∧ ∃ item', item' ∈ state_dict
             ∧ copied_to (names network) (storage network) names_map l item'
             ∧ storage network' l
               = Tensor (shape (storage network l)) (data item'.2))
    ∧ (ok = true
       ↔ ¬ any_mismatch (names network) (storage network) names_map state_dict)
    ∧ (∀ item, item ∈ state_dict →
         unexpected (names network) names_map item →
         UnexpectedKey (resolved (names network) names_map item) (shape item.2)
         ∈ out)
    ∧ (∀ item l, item ∈ state_dict →
         names network !! resolved (names network) names_map item = Some l →
         shape item.2 ≠ shape (storage network l) →
         SizeMismatch (resolved (names network) names_map item)
           (shape (storage network l)) (shape item.2) ∈ out)
    ∧ (detector_then_plain (names network) names_map state_dict →
       CouldNotRestore ∈ out)
    ∧ (ends_via_detector (names network) names_map state_dict = false →
       missing (names network) names_map state_dict ≠ ∅ →
       CouldNotFind (missing (names network) names_map state_dict) ∈ out).
Proof.
  destruct (run_invariant (names network) (storage network) names_map state_dict)
    as [Hkeys Hdet Hshape Hstate Hmm Hunx Hsize Hcnr Hsound].
  set (own := names network) in *. set (st0 := storage network) in *.
  set (v := run own st0 names_map state_dict) in *.
  assert (size (dom own ∖ state_dict_keys_new v) = 0
          ↔ missing own names_map state_dict = ∅) as Hmiss.
  { unfold missing. rewrite Hkeys. rewrite size_empty_iff.
    apply leibniz_equiv_iff. }
  unfold optimistic_restore. fold own st0. fold (run own st0 names_map state_dict).
  fold v.
  destruct (only_detector v) eqn:Hod.
  - eexists _, _, _. split; [reflexivity|]. cbn [names storage].
    split; [done|]. split; [exact Hstate|]. split; [|split; [|split]].
    + intros l Hno. rewrite Hstate.
      destruct (restored_cases own st0 names_map state_dict l)
        as [[Heq _]|(item & Hin & Hc & _)]; [done|]. by destruct (Hno item Hin).
    + intros item l Hin Hl Hsh.
      assert (copied_to own st0 names_map l item) as Hc.
      { split; [|done]. unfold resolved, via_detector.
        rewrite bool_decide_eq_false_2; [done|]. intros [_ Hn]. fold own in Hn.
        unfold renamed in *. congruence. }
      split; [done|]. rewrite Hstate.
      destruct (restored_cases own st0 names_map state_dict l)
        as [[_ Hno]|(item' & Hin' & Hc' & Heq)]; [by destruct (Hno item Hin)|].
      by exists item'.
    + unfold any_mismatch. rewrite negb_true_iff, <-not_true_iff_false, Hmm.
      rewrite <-Hdet. split.
      * intros Hn [?|[?|[? _]]]; [apply Hn; by left|apply Hn; by right|congruence].
      * intros Hn [?|?]; apply Hn; [by left|by right; left].
    + split; [|split; [|split]].
      * intros item Hin Hu. apply elem_of_app. left. by apply Hunx.
      * intros item l Hin Hl Hne. apply elem_of_app. left. by apply Hsize.
      * intros Hd. apply elem_of_app. left. by apply Hcnr.
      * rewrite <-Hdet. congruence.
  - destruct (decide (0 < size (dom own ∖ state_dict_keys_new v))) as [Hpos|Hpos].
    + assert (missing own names_map state_dict ≠ ∅) as Hne
        by (intros He; apply Hmiss in He; lia).
      eexists _, _, _. split; [reflexivity|]. cbn [names storage].
      split; [done|]. split; [exact Hstate|]. split; [|split; [|split]].
      * intros l Hno. rewrite Hstate.
        destruct (restored_cases own st0 names_map state_dict l)
          as [[Heq _]|(item & Hin & Hc & _)]; [done|]. by destruct (Hno item Hin).
      * intros item l Hin Hl Hsh.
        assert (copied_to own st0 names_map l item) as Hc.
        { split; [|done]. unfold resolved, via_detector.
          rewrite bool_decide_eq_false_2; [done|]. intros [_ Hn]. fold own in Hn.
          unfold renamed in *. congruence. }
        split; [done|]. rewrite Hstate.
        destruct (restored_cases own st0 names_map state_dict l)
          as [[_ Hno]|(item' & Hin' & Hc' & Heq)]; [by destruct (Hno item Hin)|].
        by exists item'.
      * split; [done|]. intros Hn. exfalso. apply Hn. right. right.
        by rewrite <-Hdet.
      * split; [|split; [|split]].
        -- intros item Hin Hu. apply elem_of_app. left. by apply Hunx.
        -- intros item l Hin Hl Hne'. apply elem_of_app. left. by apply Hsize.
        -- intros Hd. apply elem_of_app. left. by apply Hcnr.
        -- intros _ _. apply elem_of_app. right. unfold missing. rewrite <-Hkeys.
           apply list_elem_of_singleton. done.
    + assert (missing own names_map state_dict = ∅) as He
        by (apply Hmiss; lia).
      eexists _, _, _. split; [reflexivity|]. cbn [names storage].
      split; [done|]. split; [exact Hstate|]. split; [|split; [|split]].
      * intros l Hno. rewrite Hstate.
        destruct (restored_cases own st0 names_map state_dict l)
          as [[Heq _]|(item & Hin & Hc & _)]; [done|]. by destruct (Hno item Hin).
      * intros item l Hin Hl Hsh.
        assert (copied_to own st0 names_map l item) as Hc.
        { split; [|done]. unfold resolved, via_detector.
          rewrite bool_decide_eq_false_2; [done|]. intros [_ Hn]. fold own in Hn.
          unfold renamed in *. congruence. }
        split; [done|]. rewrite Hstate.
        destruct (restored_cases own st0 names_map state_dict l)
          as [[_ Hno]|(item' & Hin' & Hc' & Heq)]; [by destruct (Hno item Hin)|].
        by exists item'.
      * unfold any_mismatch. rewrite negb_true_iff, <-not_true_iff_false, Hmm.
        split.
        -- intros Hn [?|[?|[_ ?]]]; [apply Hn; by left|apply Hn; by right|done].
        -- intros Hn [?|?]; apply Hn; [by left|by right; left].
      * split; [|split; [|split]].
        -- intros item Hin Hu. by apply Hunx.
        -- intros item l Hin Hl Hne'. by apply Hsize.
        -- intros Hd. by apply Hcnr.
        -- intros _ Hne. done.
Qed.

(** C9, as the claim has it, fails: the checkpoint entry ["a"] is restored
    into ["detector.a"], a parameter that no key of the checkpoint names,
    and the answer is [True] although the key ["b"] is missing. *)
Lemma restore_through_detector_prefix :
  (optimistic_restore example.network example.state_dict None).1.1 = true
  ∧ claimed_mismatch (names example.network) (storage example.network) None
      example.state_dict
  ∧ names example.network !! "detector.a" = Some 0
  ∧ (∀ item, item ∈ example.state_dict → renamed None item ≠ "detector.a")
  ∧ storage (optimistic_restore example.network example.state_dict None).1.2 0
    ≠ storage example.network 0.
Proof.
  split; [by vm_compute|]. split; [|split; [by vm_compute|split]].
  - right. right. intros He.
    assert ("b" ∈ missing (names example.network) None example.state_dict) as Hb
      by (apply (bool_decide_unpack _); by vm_compute).
    rewrite He in Hb. by apply elem_of_empty in Hb.
  - intros item Hin. apply list_elem_of_singleton in Hin as ->. by vm_compute.
  - intros Heq. apply (f_equal data) in Heq. vm_compute in Heq.
    injection Heq as Heq. by apply R1_neq_R0.
Qed.

End restore_facts.

Module misc_facts.
Import py misc misc_spec.
#[local] Open Scope Z_scope.

(** ** Ranges and batches *)

Lemma range_len_up (stop step : Z) :
  0 < step → 0 ≤ stop →
  ∃ n : nat, range_len 0 stop step = Z.of_nat n
             ∧ (Z.of_nat n - 1) * step < stop ∧ stop ≤ Z.of_nat n * step.
Proof.
  intros Hstep Hstop. unfold range_len. rewrite decide_True by done.
  destruct (decide (0 < stop)) as [Hpos|Hpos].
  - exists (Z.to_nat ((stop - 0 - 1) `div` step + 1)).
    pose proof (Z.div_pos (stop - 0 - 1) step ltac:(lia) Hstep).
    pose proof (Z.mul_div_le (stop - 0 - 1) step Hstep).
    pose proof (Z.mul_succ_div_gt (stop - 0 - 1) step Hstep).
    rewrite Z2Nat.id by lia. split; [done|]. nia.
  - exists 0%nat. split; [done|]. lia.
Qed.

Lemma cover_prefix (len_l batch_size : Z) (m : nat) :
  0 < batch_size → 0 ≤ len_l → (Z.of_nat m - 1) * batch_size < len_l →
  concat (map (λ k : nat,
                 interval (0 + Z.of_nat k * batch_size,
                           Z.min (0 + Z.of_nat k * batch_size + batch_size) len_l))
            (seq 0 m))
  = seqZ 0 (Z.min (Z.of_nat m * batch_size) len_l).
Proof.
  intros Hbs Hlen. induction m as [|m IH]; intros Hm.
  - simpl. by rewrite seqZ_nil by lia.
  - rewrite seq_S, map_app, concat_app, IH by nia. simpl. rewrite app_nil_r.
    unfold interval. cbn [fst snd].
    replace (Z.min (Z.of_nat (S m) * batch_size) len_l)
      with (Z.min (Z.of_nat m * batch_size) len_l
            + (Z.min (0 + Z.of_nat m * batch_size + batch_size) len_l
               - (0 + Z.of_nat m * batch_size))) by nia.
    rewrite seqZ_app by nia. do 2 f_equal. nia.
Qed.

(** X1.  With [skip_end=False] and a positive batch size, the batches
    that [batch_index_iterator] yields lie side by side and cover the
    indices [0], ..., [len_l - 1] exactly, in order; none is empty and none
    is longer than [batch_size]. *)
Theorem batch_index_iterator_covers (len_l batch_size : Z) :
  0 ≤ len_l → 0 < batch_size →
  ∃ batches,
    batch_index_iterator len_l batch_size false = Return batches
    ∧ concat (map interval batches) = seqZ 0 len_l
    ∧ Forall (λ se, 0 ≤ se.1 ∧ se.1 < se.2 ≤ len_l ∧ se.2 - se.1 ≤ batch_size)
        batches.
Proof.
  intros Hlen Hbs. unfold batch_index_iterator, range. cbn.
  rewrite decide_False by lia. cbn.
  destruct (range_len_up len_l batch_size Hbs Hlen) as (n & -> & Hlo & Hhi).
  rewrite Nat2Z.id. eexists. split; [reflexivity|]. split.
  - transitivity (seqZ 0 (Z.min (Z.of_nat n * batch_size) len_l)); [|f_equal; lia].
    rewrite !map_map. exact (cover_prefix len_l batch_size n Hbs Hlen Hlo).
  - apply Forall_map, Forall_map, Forall_forall. intros k Hk.
    apply elem_of_seq in Hk. cbn [fst snd]. nia.
Qed.

Lemma batch_index_iterator_covers_witness :
  0 ≤ 10 ∧ 0 < 4
  ∧ ∃ batches,
      batch_index_iterator 10 4 false = Return batches
      ∧ concat (map interval batches) = seqZ 0 10.
Proof.
  split; [lia|]. split; [lia|].
  destruct (batch_index_iterator_covers 10 4) as (batches & Hb & Hc & _);
    [lia|lia|].
  by exists batches.
Defined.

(** X2.  With [skip_end=True] and a positive batch size the generator
    yields the [len_l // batch_size] full batches and nothing else: the
    last [len_l % batch_size] indices are in no batch. *)
Theorem batch_index_iterator_skip_end (len_l batch_size : Z) :
  0 ≤ len_l → 0 < batch_size →
  batch_index_iterator len_l batch_size true
  = Return (map (λ k : nat, (Z.of_nat k * batch_size,
                             Z.of_nat k * batch_size + batch_size))
              (seq 0 (Z.to_nat (len_l `div` batch_size))))
  ∧ ∃ batches,
      batch_index_iterator len_l batch_size true = Return batches
      ∧ concat (map interval batches)
        = seqZ 0 (len_l - len_l `mod` batch_size).
Proof.
  intros Hlen Hbs.
  pose proof (Z.div_pos len_l batch_size Hlen Hbs) as Hq.
  pose proof (Z.mul_div_le len_l batch_size Hbs) as Hle.
  pose proof (Z.div_mod len_l batch_size ltac:(lia)) as Hdm.
  assert (batch_index_iterator len_l batch_size true
          = Return (map (λ k : nat, (Z.of_nat k * batch_size,
                                     Z.of_nat k * batch_size + batch_size))
                      (seq 0 (Z.to_nat (len_l `div` batch_size))))) as Heq.
  { unfold batch_index_iterator, floordiv, range. rewrite decide_False by lia. cbn.
    rewrite decide_False by lia. cbn. f_equal.
    set (q := len_l `div` batch_size) in *.
    assert (range_len 0 (q * batch_size) batch_size = q) as ->.
    { unfold range_len. rewrite decide_True by done.
      destruct (decide (0 < q * batch_size)) as [Hpos|Hpos]; [|nia].
      assert ((q * batch_size - 0 - 1) `div` batch_size = q - 1) as ->; [|lia].
      symmetry. apply (Z.div_unique _ _ _ (batch_size - 1)); lia. }
    rewrite map_map. apply map_ext_in. intros k Hk.
    apply list_elem_of_In, elem_of_seq in Hk. f_equal; nia. }
  split; [exact Heq|]. eexists. split; [exact Heq|].
  set (q := len_l `div` batch_size) in *.
  replace (len_l - len_l `mod` batch_size) with (Z.of_nat (Z.to_nat q) * batch_size)
    by lia.
  generalize (Z.to_nat q). intros n. induction n as [|n IH].
  - simpl. by rewrite seqZ_nil by lia.
  - rewrite seq_S, !map_app, concat_app, IH. simpl. rewrite app_nil_r.
    unfold interval. cbn [fst snd].
    replace (Z.of_nat (S n) * batch_size)
      with (Z.of_nat n * batch_size + batch_size) by lia.
    rewrite seqZ_app by lia. do 2 f_equal. lia.
Qed.

Lemma batch_index_iterator_skip_end_witness :
  0 ≤ 10 ∧ 0 < 4
  ∧ batch_index_iterator 10 4 true = Return [(0, 4); (4, 8)].
Proof.
  split; [lia|]. split; [lia|].
  exact (proj1 (batch_index_iterator_skip_end 10 4 ltac:(lia) ltac:(lia))).
Defined.

(** X3.  A batch size that is not positive never yields a batch: zero
    raises ([ZeroDivisionError] from [len_l // batch_size] with
    [skip_end=True], [ValueError] from [range] without), and a negative size
    yields nothing. *)
Theorem batch_index_iterator_bad_size (len_l batch_size : Z) (skip_end : bool) :
  0 ≤ len_l → batch_size ≤ 0 →
  batch_index_iterator len_l batch_size skip_end
  = if decide (batch_size = 0)
    then Throw (if skip_end then ZeroDivisionError else Builtin ValueError)
    else Return [].
Proof.
  intros Hlen Hbs. unfold batch_index_iterator, floordiv, range.
  destruct (decide (batch_size = 0)) as [->|Hne].
  - by destruct skip_end.
  - assert (∀ stop, 0 ≤ stop → range_len 0 stop batch_size = 0) as Hr.
    { intros stop Hstop. unfold range_len.
      rewrite decide_False by lia. by rewrite decide_False by lia. }
    destruct skip_end; cbn.
    + rewrite Hr; [done|].
      pose proof (Z.div_mod len_l batch_size Hne).
      pose proof (Z.mod_neg_bound len_l batch_size ltac:(lia)). nia.
    + by rewrite Hr.
Qed.

Lemma batch_index_iterator_bad_size_witness :
  0 ≤ 10 ∧ 0 ≤ 0
  ∧ batch_index_iterator 10 0 true = Throw ZeroDivisionError
  ∧ batch_index_iterator 10 0 false = Throw (Builtin ValueError)
  ∧ batch_index_iterator 10 (-3) true = Return [].
Proof.
  split; [lia|]. split; [lia|]. split; [|split].
  - exact (batch_index_iterator_bad_size 10 0 true ltac:(lia) ltac:(lia)).
  - exact (batch_index_iterator_bad_size 10 0 false ltac:(lia) ltac:(lia)).
  - exact (batch_index_iterator_bad_size 10 (-3) true ltac:(lia) ltac:(lia)).
Defined.

(** ** Pairs of neighbours *)

Lemma lookup_zip {A B} (l : list A) (k : list B) i x y :
  zip l k !! i = Some (x, y) ↔ l !! i = Some x ∧ k !! i = Some y.
Proof.
  revert k i. induction l as [|a l IH]; intros [|b k] [|i]; simpl;
    try (split; [done|by intros [? ?]]).
  - split; [by intros [= -> ->]|by intros [[= ->] [= ->]]].
  - apply IH.
Qed.

(** X4.  [pairwise] yields, at position [i], item [i] of the sequence
    with item [i + 1]: [s -> (s0, s1), (s1, s2), ...]; a sequence of fewer
    than two items yields nothing. *)
Theorem pairwise_lookup {A} (iterable : list A) (i : nat) (x y : A) :
  (pairwise iterable !! i = Some (x, y)
   ↔ iterable !! i = Some x ∧ iterable !! S i = Some y)
  ∧ length (pairwise iterable) = (length iterable - 1)%nat.
Proof.
  unfold pairwise. split.
  - rewrite lookup_zip, lookup_drop. done.
  - rewrite length_zip, length_drop. lia.
Qed.

(** ** Learning rates *)

Lemma get_smallest_lr_snoc {P} (gs : list (param_group P)) (pg : param_group P) :
  get_smallest_lr (gs ++ [pg])
  = if lt_float (lr pg) (get_smallest_lr gs) then Finite (lr pg)
    else get_smallest_lr gs.
Proof. unfold get_smallest_lr. by rewrite foldl_snoc. Qed.

Lemma get_smallest_lr_spec {P} (gs : list (param_group P)) :
  match get_smallest_lr gs with
  | Inf => gs = []
  | Finite m => (∃ pg, pg ∈ gs ∧ lr pg = m) ∧ ∀ pg, pg ∈ gs → (m <= lr pg)%R
  end.
Proof.
  induction gs as [|pg gs IH] using rev_ind; [done|].
  rewrite get_smallest_lr_snoc.
  destruct (get_smallest_lr gs) as [m|]; simpl.
  - destruct IH as [(pg0 & Hin & Hm) Hmin]. case_bool_decide as Hlt; simpl.
    + split; [exists pg; split; [set_solver|done]|].
      intros pg' [Hin'| ->%list_elem_of_singleton]%elem_of_app; [|lra].
      specialize (Hmin pg' Hin'). lra.
    + split; [exists pg0; split; [set_solver|done]|].
      intros pg' [Hin'| ->%list_elem_of_singleton]%elem_of_app; [by apply Hmin|lra].
  - subst gs. split; [exists pg; split; [set_solver|done]|].
    intros pg' ->%list_elem_of_singleton. lra.
Qed.

(** X5.  [get_smallest_lr] returns [np.Inf] exactly when the optimizer
    has no parameter group; otherwise it returns the learning rate of one
    of the groups, and no group has a smaller one. *)
Theorem get_smallest_lr_is_minimum {P} (param_groups : list (param_group P)) :
  (get_smallest_lr param_groups = Inf ↔ param_groups = [])
  ∧ ∀ m, get_smallest_lr param_groups = Finite m →
      (∃ pg, pg ∈ param_groups ∧ lr pg = m)
      ∧ ∀ pg, pg ∈ param_groups → (m <= lr pg)%R.
Proof.
  pose proof (get_smallest_lr_spec param_groups) as Hs. split.
  - split; [intros Heq; by rewrite Heq in Hs|by intros ->].
  - intros m Heq. by rewrite Heq in Hs.
Qed.

Lemma get_smallest_lr_is_minimum_witness :
  get_smallest_lr [ParamGroup (1 / 100) (); ParamGroup (1 / 1000) ()]
  = Finite (1 / 1000).
Proof.
  destruct (get_smallest_lr_is_minimum
              [ParamGroup (1 / 100) (); ParamGroup (1 / 1000) ()]) as [Hinf Hfin].
  destruct (get_smallest_lr _) as [m|] eqn:Heq.
  - destruct (Hfin m eq_refl) as [(pg & Hin & Hm) Hmin]. f_equal.
    assert (ParamGroup (1 / 1000) ()
            ∈ [ParamGroup (1 / 100) (); ParamGroup (1 / 1000) ()]) as Hl
      by (apply elem_of_cons; right; apply elem_of_cons; by left).
    pose proof (Hmin _ Hl) as Hle. simpl in Hle.
    apply elem_of_cons in Hin as [->|Hin]; simpl in Hm; [lra|].
    apply list_elem_of_singleton in Hin as ->. by simpl in Hm.
  - discriminate (proj1 Hinf eq_refl).
Defined.

(** X6.  After [update_lr(optimizer, lr)] every parameter group has the
    learning rate [lr] and its other options as before, so that
    [get_smallest_lr] answers [lr] as soon as there is a group. *)
Theorem update_lr_then_smallest {P} (param_groups : list (param_group P))
    (new_lr : R) :
  param_groups ≠ [] →
  get_smallest_lr (update_lr param_groups new_lr).2 = Finite new_lr
  ∧ Forall (λ pg, lr pg = new_lr) (update_lr param_groups new_lr).2
  ∧ map options (update_lr param_groups new_lr).2 = map options param_groups.
Proof.
  intros Hne. unfold update_lr. cbn [snd].
  set (gs := map _ param_groups).
  assert (Forall (λ pg, lr pg = new_lr) gs) as Hall.
  { apply Forall_map, Forall_forall. by intros. }
  split; [|split; [done|]].
  - pose proof (get_smallest_lr_spec gs) as Hs.
    destruct (get_smallest_lr gs) as [m|].
    + destruct Hs as [(pg & Hin & Hm) _]. f_equal. rewrite <-Hm.
      by apply (proj1 (Forall_forall _ _) Hall).
    + destruct param_groups; [done|]. discriminate Hs.
  - unfold gs. rewrite map_map. by apply map_ext.
Qed.

Lemma update_lr_then_smallest_witness :
  [ParamGroup (1 / 100) (); ParamGroup (1 / 1000) ()] ≠ []
  ∧ get_smallest_lr
      (update_lr [ParamGroup (1 / 100) (); ParamGroup (1 / 1000) ()] (1 / 2)).2
    = Finite (1 / 2).
Proof.
  split; [done|].
  apply (update_lr_then_smallest
           [ParamGroup (1 / 100) (); ParamGroup (1 / 1000) ()] (1 / 2)).
  done.
Defined.

(** ** Runs of equal image indices *)

Lemma enumerate_by_image_loop_head (vals : list Z) (v : Z) (s i : nat) :
  ∃ e rest, enumerate_by_image_loop v s i vals = (v, s, e) :: rest.
Proof.
  revert v s i. induction vals as [|val vals IH]; intros v s i; simpl.
  - by eexists _, _.
  - destruct (decide (val ≠ v)); [by eexists _, _|apply IH].
Qed.

Lemma enumerate_by_image_loop_runs (l : list Z) (vals pre : list Z) (v : Z) (s : nat) :
  l = pre ++ vals → (s ≤ length pre)%nat →
  (∀ j, (s ≤ j < length pre)%nat → l !! j = Some v) →
  ((s < length pre)%nat ∨ ∃ vals', vals = v :: vals') →
  runs l s (enumerate_by_image_loop v s (length pre) vals).
Proof.
  revert pre v s. induction vals as [|val vals IH]; intros pre v s Hl Hs Hv Hne.
  - simpl. rewrite app_nil_r in Hl. subst pre.
    destruct Hne as [?|[? ?]]; [|done]. done.
  - cbn [enumerate_by_image_loop].
    assert (l = (pre ++ [val]) ++ vals) as Hl' by (by rewrite <-app_assoc).
    assert (l !! length pre = Some val) as Hval.
    { rewrite Hl. by rewrite lookup_app_r, Nat.sub_diag by lia. }
    assert (length (pre ++ [val]) = S (length pre)) as Hlen
      by (rewrite length_app; simpl; lia).
    destruct (decide (val ≠ v)) as [Hdiff|Heq].
    + destruct (enumerate_by_image_loop_head vals val (length pre) (S (length pre)))
        as (e & rest & Hhead).
      assert (runs l (length pre)
                (enumerate_by_image_loop val (length pre) (S (length pre)) vals))
        as Hrest.
      { rewrite <-Hlen. apply IH; rewrite ?Hlen; try (done || lia).
        intros j Hj. by replace j with (length pre) by lia. }
      simpl. split; [done|]. split.
      { destruct Hne as [?|[? [= ? ?]]]; [done|]. by subst. }
      split; [done|]. rewrite Hhead in Hrest |- *. by split.
    + apply dec_stable in Heq. subst val.
      rewrite <-Hlen. apply IH; rewrite ?Hlen; try (done || lia).
      intros j Hj. destruct (decide (j = length pre)) as [->|]; [done|].
      apply Hv. lia.
Qed.

Lemma runs_expand (l : list Z) (segs : list (Z * nat * nat)) (s : nat) :
  runs l s segs → concat (map expand_run segs) = drop s l.
Proof.
  revert s. induction segs as [|[[v s'] e] segs IH]; intros s; simpl.
  - intros ->. by rewrite drop_all.
  - intros (-> & Hlt & Hv & _ & Hrest). rewrite (IH e Hrest).
    unfold expand_run. cbn [fst snd].
    assert (e ≤ length l)%nat as He.
    { pose proof (lookup_lt_Some l (e - 1) v (Hv (e - 1)%nat ltac:(lia))). lia. }
    rewrite <-(take_drop (e - s) (drop s l)).
    rewrite drop_drop. replace (s + (e - s))%nat with e by lia. f_equal.
    apply list_eq. intros j. destruct (decide (j < e - s)%nat) as [Hj|Hj].
    + rewrite lookup_replicate_2 by done.
      rewrite lookup_take_lt, lookup_drop by done. symmetry. apply Hv. lia.
    + transitivity (@None Z); [apply lookup_replicate_None; lia|].
      symmetry. apply lookup_ge_None_2. rewrite length_take, length_drop. lia.
Qed.

(** X7.  [enumerate_by_image] cuts a non-empty vector of image indices
    into its maximal runs of equal values: the segments [(value, s, e)]
    lie side by side from [0] to the end, none is empty, every position of
    a segment holds its value, and two neighbouring segments differ in
    value; expanding every segment to [e - s] copies of its value gives the
    vector back.  For an empty vector the lookup [im_inds_np[0]] raises
    [IndexError]. *)
Theorem enumerate_by_image_runs (im_inds : list Z) :
  (im_inds = [] → enumerate_by_image im_inds = Throw (Builtin IndexError))
  ∧ (im_inds ≠ [] →
     ∃ segs,
       enumerate_by_image im_inds = Return segs
       ∧ runs im_inds 0 segs
       ∧ concat (map expand_run segs) = im_inds).
Proof.
  split; [by intros ->|]. intros Hne.
  destruct im_inds as [|v vals]; [done|].
  assert (runs (v :: vals) 0 (enumerate_by_image_loop v 0 0 (v :: vals))) as Hruns.
  { apply (enumerate_by_image_loop_runs (v :: vals) (v :: vals) [] v 0%nat).
    - done.
    - simpl. lia.
    - intros j Hj. simpl in Hj. lia.
    - right. by eexists. }
  eexists. split; [reflexivity|]. split; [exact Hruns|].
  by rewrite (runs_expand _ _ _ Hruns).
Qed.

Lemma enumerate_by_image_runs_witness :
  @nil Z = [] ∧ [0; 0; 1; 1; 1; 3] ≠ []
  ∧ enumerate_by_image [] = Throw (Builtin IndexError)
  ∧ ∃ segs,
      enumerate_by_image [0; 0; 1; 1; 1; 3] = Return segs
      ∧ concat (map expand_run segs) = [0; 0; 1; 1; 1; 3].
Proof.
  split; [done|]. split; [done|]. split.
  - exact (proj1 (enumerate_by_image_runs []) eq_refl).
  - destruct (proj2 (enumerate_by_image_runs [0; 0; 1; 1; 1; 3])) as (segs & Hs & _ & Hx);
      [done|].
    by exists segs.
Defined.

(** ** Slices and chunks *)

Lemma slice_forward {A} (t : list A) (s c : Z) :
  0 ≤ s → 0 ≤ c →
  slice t s (s + c) = take (Z.to_nat c) (drop (Z.to_nat s) t).
Proof.
  intros Hs Hc. unfold slice, clip. rewrite !decide_False by lia.
  destruct (decide (Z.of_nat (length t) ≤ s)) as [Hout|Hin].
  - rewrite !(drop_ge t) by lia. by rewrite !take_nil.
  - replace (Z.to_nat (s `min` Z.of_nat (length t))) with (Z.to_nat s) by lia.
    destruct (decide (s + c ≤ Z.of_nat (length t))) as [Hfit|Hover].
    + f_equal. lia.
    + rewrite !take_ge; [done| |]; rewrite length_drop; lia.
Qed.

Lemma total_app (l k : list Z) : total (l ++ k) = total l + total k.
Proof. induction l as [|a l IH]; simpl; [done|]. rewrite IH. lia. Qed.

Lemma total_nonneg (l : list Z) : Forall (λ c, 0 ≤ c) l → 0 ≤ total l.
Proof. induction 1; simpl; lia. Qed.

Lemma total_take_S (l : list Z) (k : nat) (c : Z) :
  l !! k = Some c → total (take (S k) l) = total (take k l) + c.
Proof.
  intros Hk. rewrite (take_S_r l k c Hk), total_app. simpl. lia.
Qed.

Lemma de_chunkize_loop_concat {A} (t : list A) (chunks : list Z) (s : Z) :
  0 ≤ s → Forall (λ c, 0 ≤ c) chunks →
  concat (de_chunkize_loop t s chunks)
  = take (Z.to_nat (total chunks)) (drop (Z.to_nat s) t).
Proof.
  intros Hs Hc. revert s Hs. induction Hc as [|c chunks Hc0 Hc IH]; intros s Hs.
  - done.
  - pose proof (total_nonneg chunks Hc). simpl.
    rewrite IH, slice_forward by lia.
    replace (Z.to_nat (s + c)) with (Z.to_nat s + Z.to_nat c)%nat by lia.
    rewrite <-drop_drop, take_take_drop. f_equal. lia.
Qed.

Lemma de_chunkize_loop_lookup {A} (t : list A) (chunks : list Z) (s : Z)
    (k : nat) (c : Z) :
  chunks !! k = Some c →
  de_chunkize_loop t s chunks !! k
  = Some (slice t (s + total (take k chunks)) (s + total (take (S k) chunks))).
Proof.
  revert s k. induction chunks as [|c0 chunks IH]; intros s k Hk; [done|].
  destruct k as [|k]; simpl in *.
  - do 2 f_equal; lia.
  - rewrite (IH (s + c0) k Hk). do 2 f_equal; simpl; lia.
Qed.

Lemma de_chunkize_loop_lengths {A} (t : list A) (chunks : list Z) (s : Z) :
  0 ≤ s → Forall (λ c, 0 ≤ c) chunks → s + total chunks ≤ Z.of_nat (length t) →
  Forall2 (λ piece c, length piece = Z.to_nat c) (de_chunkize_loop t s chunks) chunks.
Proof.
  intros Hs Hc. revert s Hs. induction Hc as [|c chunks Hc0 Hc IH]; intros s Hs Hfit.
  - constructor.
  - pose proof (total_nonneg chunks Hc). simpl in *. constructor.
    + rewrite slice_forward, length_take, length_drop by lia. lia.
    + apply IH; lia.
Qed.

(** X8.  For chunk sizes that are not negative, the pieces that
    [de_chunkize] yields are consecutive pieces of the tensor: put together
    again they are its first [sum(chunks)] items, the whole tensor when the
    sizes add up to its length; and piece [i] has [chunks[i]] items when
    the tensor is long enough. *)
Theorem de_chunkize_pieces {A} (tensor : list A) (chunks : list Z) :
  Forall (λ c, 0 ≤ c) chunks →
  concat (de_chunkize tensor chunks) = take (Z.to_nat (total chunks)) tensor
  ∧ (total chunks = Z.of_nat (length tensor) →
     concat (de_chunkize tensor chunks) = tensor)
  ∧ (total chunks ≤ Z.of_nat (length tensor) →
     Forall2 (λ piece c, length piece = Z.to_nat c)
       (de_chunkize tensor chunks) chunks).
Proof.
  intros Hc. unfold de_chunkize.
  rewrite (de_chunkize_loop_concat tensor chunks 0) by done.
  split; [done|]. split.
  - intros Heq. apply take_ge. lia.
  - intros Hle. apply de_chunkize_loop_lengths; (done || lia).
Qed.

Lemma de_chunkize_pieces_witness :
  Forall (λ c, 0 ≤ c) [2; 0; 3]
  ∧ total [2; 0; 3] = Z.of_nat (length [10; 11; 12; 13; 14])
  ∧ concat (de_chunkize [10; 11; 12; 13; 14] [2; 0; 3]) = [10; 11; 12; 13; 14].
Proof.
  assert (Forall (λ c, 0 ≤ c) [2; 0; 3]) as Hc by (repeat constructor; lia).
  split; [exact Hc|]. split; [reflexivity|].
  apply (de_chunkize_pieces [10; 11; 12; 13; 14] [2; 0; 3] Hc). reflexivity.
Defined.

(** ** Anchor windows *)

Lemma enumerate_imsize_loop_lookup (im_sizes : list (R * R * R * R)) (s : Z)
    (i0 k : nat) (row : R * R * R * R) :
  im_sizes !! k = Some row →
  enumerate_imsize_loop s i0 im_sizes !! k
  = Some ((i0 + k)%nat,
          s + total (take k (map anchors im_sizes)),
          s + total (take (S k) (map anchors im_sizes)),
          row.1.1.1, row.1.1.2, row.1.2, int row.2).
Proof.
  revert s i0 k. induction im_sizes as [|[[[h w] sc] na] im_sizes IH];
    intros s i0 k Hk; [done|].
  destruct k as [|k]; simpl in *.
  - injection Hk as <-. simpl. unfold anchors at 1. simpl.
    by rewrite Nat.add_0_r, !Z.add_0_r.
  - rewrite (IH _ _ k Hk). unfold anchors at 1 3. simpl.
    by rewrite Nat.add_succ_r, !Z.add_assoc.
Qed.

(** X9.  [enumerate_imsize] yields, for image [i], the window
    [[s, e)] of its anchors among those of all images: [s] is the number of
    anchors of the images before it and [e - s] its own number; the windows
    are the slices that [de_chunkize] cuts for these numbers. *)
Theorem enumerate_imsize_windows (im_sizes : list (R * R * R * R)) (i : nat)
    (h w scale num_anchors : R) :
  im_sizes !! i = Some (h, w, scale, num_anchors) →
  let counts := map anchors im_sizes in
  let s := total (take i counts) in
  let e := total (take (S i) counts) in
  enumerate_imsize im_sizes !! i = Some (i, s, e, h, w, scale, int num_anchors)
  ∧ e = s + int num_anchors
  ∧ ∀ (A : Type) (tensor : list A),
      de_chunkize tensor counts !! i = Some (slice tensor s e).
Proof.
  intros Hi counts s e. split; [|split].
  - unfold enumerate_imsize.
    rewrite (enumerate_imsize_loop_lookup im_sizes 0 0 i _ Hi). simpl.
    by rewrite !Z.add_0_l.
  - unfold e, s. apply total_take_S. unfold counts.
    by rewrite list_lookup_fmap, Hi.
  - intros A tensor. unfold de_chunkize.
    rewrite (de_chunkize_loop_lookup tensor counts 0 i (int num_anchors)).
    + by rewrite !Z.add_0_l.
    + unfold counts. by rewrite list_lookup_fmap, Hi.
Qed.

Lemma enumerate_imsize_windows_witness :
  [(1, 2, 3, 4); (5, 6, 7, 8)]%R !! 1%nat = Some (5, 6, 7, 8)%R
  ∧ ∃ s e, enumerate_imsize [(1, 2, 3, 4); (5, 6, 7, 8)]%R !! 1%nat
           = Some (1%nat, s, e, 5, 6, 7, int 8)%R
           ∧ e = s + int 8.
Proof.
  split; [reflexivity|].
  destruct (enumerate_imsize_windows [(1, 2, 3, 4); (5, 6, 7, 8)]%R 1 5 6 7 8 eq_refl)
    as (Hl & He & _).
  eexists _, _. split; [exact Hl|exact He].
Defined.

(** ** Shifting a packed sequence *)

Lemma right_shift_pairs (lengths : list Z) :
  zip (slice lengths 0 (-1)) (slice lengths 1 (Z.of_nat (length lengths)))
  = zip lengths (drop 1 lengths).
Proof.
  unfold slice.
  assert (clip (length lengths) 0 = 0%nat) as ->
    by (unfold clip; case_decide; lia).
  assert (clip (length lengths) (-1) = (length lengths - 1)%nat) as ->
    by (unfold clip; case_decide; lia).
  assert (clip (length lengths) 1 = (1 `min` length lengths)%nat) as ->
    by (unfold clip; case_decide; lia).
  assert (clip (length lengths) (Z.of_nat (length lengths)) = length lengths) as ->
    by (unfold clip; case_decide; lia).
  rewrite drop_0, Nat.sub_0_r.
  destruct lengths as [|a l]; [done|].
  replace (1 `min` length (a :: l))%nat with 1%nat by (simpl; lia).
  rewrite (take_ge (drop 1 (a :: l))) by (rewrite length_drop; simpl; lia).
  apply zip_with_take_l'. change (drop 1 (a :: l)) with l.
  change (length (a :: l)) with (S (length l)). lia.
Qed.

Lemma elem_of_block (cur b x : Z) :
  x ∈ map (λ i : nat, cur + Z.of_nat i) (seq 0 (Z.to_nat b)) ↔ cur ≤ x < cur + b.
Proof.
  rewrite list_elem_of_fmap. split.
  - intros (i & -> & Hi). apply elem_of_seq in Hi. lia.
  - intros Hx. exists (Z.to_nat (x - cur)). split; [lia|].
    apply elem_of_seq. lia.
Qed.

Lemma right_shift_loop_elem (lengths : list Z) (cur x : Z) :
  x ∈ right_shift_loop cur (zip lengths (drop 1 lengths))
  ↔ ∃ t l2, lengths !! S t = Some l2
            ∧ cur + total (take t lengths) ≤ x < cur + total (take t lengths) + l2.
Proof.
  revert cur. induction lengths as [|a l IH]; intros cur.
  - simpl. split; [by intros ?%elem_of_nil|by intros (? & ? & ? & _)].
  - destruct l as [|b l].
    { simpl. split; [by intros ?%elem_of_nil|by intros (? & ? & ? & _)]. }
    change (zip (a :: b :: l) (drop 1 (a :: b :: l)))
      with ((a, b) :: zip (b :: l) (drop 1 (b :: l))).
    cbn [right_shift_loop]. rewrite elem_of_app, elem_of_block, IH. split.
    + intros [Hx|(t & l2 & Ht & Hx)].
      * exists 0%nat, b. split; [done|]. simpl. lia.
      * exists (S t), l2. split; [done|].
        change (take (S t) (a :: b :: l)) with (a :: take t (b :: l)).
        cbn [total foldr] in *. fold (total (take t (b :: l))). lia.
    + intros (t & l2 & Ht & Hx). destruct t as [|t].
      * left. simpl in *. injection Ht as <-. lia.
      * right. exists t, l2. split; [done|].
        change (take (S t) (a :: b :: l)) with (a :: take t (b :: l)) in Hx.
        cbn [total foldr] in Hx. fold (total (take t (b :: l))) in Hx. lia.
Qed.

Lemma increasing_app (l k : list Z) :
  increasing l → increasing k → (∀ x y, x ∈ l → y ∈ k → x < y) →
  increasing (l ++ k).
Proof.
  intros Hl Hk Hlk i j x y Hij Hi Hj.
  apply lookup_app_Some in Hi as [Hi|[Hil Hi]];
    apply lookup_app_Some in Hj as [Hj|[Hjl Hj]].
  - by apply (Hl i j).
  - apply Hlk; by eapply list_elem_of_lookup_2.
  - apply lookup_lt_Some in Hj. lia.
  - apply (Hk (i - length l)%nat (j - length l)%nat); (done || lia).
Qed.

Lemma increasing_block (cur : Z) (n : nat) :
  increasing (map (λ i : nat, cur + Z.of_nat i) (seq 0 n)).
Proof.
  intros i j x y Hij Hi Hj.
  rewrite list_lookup_fmap in Hi, Hj.
  destruct (seq 0 n !! i) as [i'|] eqn:Hi'; [|done].
  destruct (seq 0 n !! j) as [j'|] eqn:Hj'; [|done].
  apply lookup_seq in Hi' as [-> _]. apply lookup_seq in Hj' as [-> _].
  simpl in *. injection Hi as <-. injection Hj as <-. lia.
Qed.

Lemma right_shift_loop_increasing (lengths : list Z) (cur : Z) :
  Forall (λ l, 0 ≤ l) lengths →
  (∀ t l1 l2, lengths !! t = Some l1 → lengths !! S t = Some l2 → l2 ≤ l1) →
  increasing (right_shift_loop cur (zip lengths (drop 1 lengths))).
Proof.
  intros Hpos. revert cur. induction Hpos as [|a l Ha Hpos IH]; intros cur Hdesc.
  - by intros i j x y _ ?.
  - destruct l as [|b l]; [by intros i j x y _ ?|].
    change (zip (a :: b :: l) (drop 1 (a :: b :: l)))
      with ((a, b) :: zip (b :: l) (drop 1 (b :: l))).
    cbn [right_shift_loop]. apply increasing_app.
    + apply increasing_block.
    + apply IH. intros t l1 l2 Ht1 Ht2. by apply (Hdesc (S t)).
    + intros x y Hx%elem_of_block (t & l2 & Ht & Hy)%right_shift_loop_elem.
      pose proof (Hdesc 0%nat a b eq_refl eq_refl).
      assert (0 ≤ total (take t (b :: l))).
      { apply total_nonneg, Forall_take. done. }
      lia.
Qed.

(** X10.  [right_shift_packed_sequence_inds] lists the positions of the
    packed data that stay after the shift: the position of entry [b] of
    time step [t] (the sizes of the steps before [t], plus [b]) for every
    [b] below the size of step [t + 1].  For step sizes that are not
    negative and do not grow, as in a packed sequence, the positions come
    in strictly increasing order. *)
Theorem right_shift_packed_sequence_inds_positions (lengths : list Z) :
  (∀ x, x ∈ right_shift_packed_sequence_inds lengths
        ↔ ∃ t l2, lengths !! S t = Some l2
                  ∧ total (take t lengths) ≤ x < total (take t lengths) + l2)
  ∧ (Forall (λ l, 0 ≤ l) lengths →
     (∀ t l1 l2, lengths !! t = Some l1 → lengths !! S t = Some l2 → l2 ≤ l1) →
     increasing (right_shift_packed_sequence_inds lengths)).
Proof.
  unfold right_shift_packed_sequence_inds. rewrite right_shift_pairs. split.
  - intros x. rewrite right_shift_loop_elem. by setoid_rewrite Z.add_0_l.
  - apply right_shift_loop_increasing.
Qed.

Lemma right_shift_packed_sequence_inds_positions_witness :
  Forall (λ l, 0 ≤ l) [4; 3; 1; 1]
  ∧ (∀ t l1 l2, [4; 3; 1; 1] !! t = Some l1 → [4; 3; 1; 1] !! S t = Some l2 →
       l2 ≤ l1)
  ∧ right_shift_packed_sequence_inds [4; 3; 1; 1] = [0; 1; 2; 4; 7]
  ∧ increasing (right_shift_packed_sequence_inds [4; 3; 1; 1]).
Proof.
  assert (Forall (λ l, 0 ≤ l) [4; 3; 1; 1]) as Hpos by (repeat constructor; lia).
  assert (∀ t l1 l2, [4; 3; 1; 1] !! t = Some l1 → [4; 3; 1; 1] !! S t = Some l2 →
            l2 ≤ l1) as Hdesc.
  { intros [|[|[|[|t]]]] l1 l2 [= <-] [= <-]; lia. }
  split; [exact Hpos|]. split; [exact Hdesc|]. split; [reflexivity|].
  exact (proj2 (right_shift_packed_sequence_inds_positions [4; 3; 1; 1]) Hpos Hdesc).
Defined.

End misc_facts.

Module index_facts.
Import torch py misc misc_spec torch_facts torch_ops.
#[local] Open Scope Z_scope.

(** ** Writing at flat positions *)

Lemma foldl_insert_length {A} (v : A) (ks : list nat) (buf : list A) :
  length (foldl (λ b k, <[k := v]> b) buf ks) = length buf.
Proof.
  revert buf. induction ks as [|k ks IH]; intros buf; simpl; [done|].
  by rewrite IH, length_insert.
Qed.

Lemma foldl_insert_keep {A} (v : A) (ks : list nat) (buf : list A) (p : nat) :
  buf !! p = Some v → foldl (λ b k, <[k := v]> b) buf ks !! p = Some v.
Proof.
  revert buf. induction ks as [|k ks IH]; intros buf Hp; simpl; [done|].
  apply IH. destruct (decide (k = p)) as [->|Hne].
  - apply list_lookup_insert_eq. by eapply lookup_lt_Some.
  - by rewrite list_lookup_insert_ne.
Qed.

Lemma foldl_insert_hit {A} (v : A) (ks : list nat) (buf : list A) (p : nat) :
  p ∈ ks → (p < length buf)%nat →
  foldl (λ b k, <[k := v]> b) buf ks !! p = Some v.
Proof.
  revert buf. induction ks as [|k ks IH]; intros buf Hin Hp; simpl.
  - by apply elem_of_nil in Hin.
  - apply elem_of_cons in Hin as [->|Hin].
    + apply foldl_insert_keep. by apply list_lookup_insert_eq.
    + apply IH; [done|by rewrite length_insert].
Qed.

Lemma foldl_insert_miss {A} (v : A) (ks : list nat) (buf : list A) (p : nat) :
  p ∉ ks → foldl (λ b k, <[k := v]> b) buf ks !! p = buf !! p.
Proof.
  revert buf. induction ks as [|k ks IH]; intros buf Hin; simpl; [done|].
  apply not_elem_of_cons in Hin as [Hne Hks].
  rewrite IH by done. by apply list_lookup_insert_ne.
Qed.

Lemma mapM_result_inv {A B} (g : A → result B) (l : list A) (k : list B) :
  mapM g l = Ok k → Forall (λ a, ∃ b, g a = Ok b) l.
Proof.
  revert k. induction l as [|a l IH]; intros k; [constructor|].
  cbn. destruct (g a) as [b|e] eqn:Hga; [|done]. cbn.
  destruct (mapM g l) as [k'|e] eqn:Hl; [|done]. intros _.
  constructor; [by eexists|by eapply IH].
Qed.

Lemma at2_rank2 {A} (n w : nat) (d : list A) (i j : nat) :
  (i < n)%nat → (j < w)%nat →
  at2 (Tensor [n; w] d) i j = d !! (i * w + j)%nat.
Proof.
  intros Hi Hj. unfold at2. rewrite rows_rank2, lookup_chunks by done. simpl.
  by rewrite lookup_take_lt, lookup_drop by done.
Qed.

Lemma flat_positions_lookup (vec : list Z) (C : nat) (k : nat) (x : Z) :
  zip_with Z.add vec
    (map (λ i, Z.of_nat C * i) (map Z.of_nat (seq 0 (length vec)))) !! k = Some x
  ↔ ∃ c, vec !! k = Some c ∧ x = c + Z.of_nat C * Z.of_nat k.
Proof.
  rewrite lookup_zip_with_Some. split.
  - intros (c & b & -> & Hc & Hb). exists c. split; [done|]. f_equal.
    rewrite !list_lookup_fmap in Hb.
    destruct (seq 0 (length vec) !! k) as [k'|] eqn:Hk; [|done].
    apply lookup_seq in Hk as [-> _]. simpl in Hb. by injection Hb as <-.
  - intros (c & Hc & ->). exists c, (Z.of_nat C * Z.of_nat k). split; [done|].
    split; [done|]. rewrite !list_lookup_fmap.
    rewrite lookup_seq_lt by (by eapply lookup_lt_Some). done.
Qed.

Lemma flat_position_unique (C i k j : nat) (c : Z) :
  0 ≤ c < Z.of_nat C → (j < C)%nat →
  (i * C + j)%nat = Z.to_nat (c + Z.of_nat C * Z.of_nat k) →
  k = i ∧ c = Z.of_nat j.
Proof.
  intros Hc Hj Heq.
  assert (Z.of_nat C * Z.of_nat i + Z.of_nat j
          = Z.of_nat C * Z.of_nat k + c) as Hz by nia.
  apply Z.div_mod_unique in Hz as [Hq Hr]; lia.
Qed.

(** X11.  For labels between [0] and [num_classes - 1], [to_onehot]
    returns the [size × num_classes] matrix that holds [fill] at
    [(i, vec[i])] and [-fill] everywhere else. *)
Theorem to_onehot_marks_labels (vec : list Z) (num_classes : nat) (fill : R) :
  Forall (λ c, 0 ≤ c < Z.of_nat num_classes) vec →
  ∃ t,
    to_onehot vec num_classes fill = Ok t
    ∧ shape t = [length vec; num_classes] ∧ wf t
    ∧ ∀ i j c, vec !! i = Some c → (j < num_classes)%nat →
        at2 t i j = Some (if decide (Z.of_nat j = c) then fill else (- fill)%R).
Proof.
  intros Hvec. unfold to_onehot, index_put.
  set (n := length vec). set (C := num_classes).
  set (idx := zip_with Z.add vec _).
  rewrite length_replicate.
  assert (Forall (λ x, 0 ≤ x < Z.of_nat (n * C)) idx) as Hidx.
  { apply Forall_lookup. intros k x (c & Hc & ->)%flat_positions_lookup.
    pose proof (lookup_lt_Some _ _ _ Hc).
    pose proof (proj1 (Forall_lookup _ _) Hvec k c Hc) as Hck. cbv beta in Hck.
    fold n in H. unfold C. rewrite Nat2Z.inj_mul. nia. }
  rewrite (mapM_ok _ Z.to_nat).
  2:{ eapply Forall_impl; [exact Hidx|]. intros x Hx. cbv beta.
      by apply gat_seq_facts.norm_index_in_range. }
  cbn. eexists. split; [reflexivity|]. split; [done|]. split.
  { unfold wf. cbn. rewrite foldl_insert_length, length_replicate.
    unfold numel; simpl; lia. }
  intros i j c Hc Hj. pose proof (lookup_lt_Some _ _ _ Hc) as Hi. fold n in Hi.
  pose proof (proj1 (Forall_lookup _ _) Hvec i c Hc) as Hci.
  rewrite at2_rank2 by done.
  assert (i * C + j < n * C)%nat as Hp by nia.
  destruct (decide (Z.of_nat j = c)) as [Hjc|Hjc].
  - apply foldl_insert_hit; [|by rewrite length_replicate].
    apply list_elem_of_fmap. exists (c + Z.of_nat C * Z.of_nat i). split; [lia|].
    apply (list_elem_of_lookup_2 _ i), flat_positions_lookup. by exists c.
  - rewrite foldl_insert_miss; [by apply lookup_replicate_2|].
    intros (x & Hx & Hin)%list_elem_of_fmap.
    apply list_elem_of_lookup in Hin as (k & (c' & Hc' & ->)%flat_positions_lookup).
    pose proof (proj1 (Forall_lookup _ _) Hvec k c' Hc') as Hck.
    destruct (flat_position_unique C i k j c' Hck Hj Hx) as [-> Hcj].
    congruence.
Qed.

Lemma to_onehot_marks_labels_witness :
  Forall (λ c, 0 ≤ c < Z.of_nat 3) [2; 0]
  ∧ ∃ t, to_onehot [2; 0] 3 1000 = Ok t
         ∧ at2 t 0 2 = Some 1000%R ∧ at2 t 1 2 = Some (- 1000)%R.
Proof.
  assert (Forall (λ c, 0 ≤ c < Z.of_nat 3) [2; 0]) as Hv
    by (repeat constructor; lia).
  split; [exact Hv|].
  destruct (to_onehot_marks_labels [2; 0] 3 1000 Hv) as (t & Ht & _ & _ & Hat).
  exists t. split; [exact Ht|]. split.
  - exact (Hat 0%nat 2%nat 2 eq_refl ltac:(lia)).
  - exact (Hat 1%nat 2%nat 0 eq_refl ltac:(lia)).
Defined.

(** X12.  [to_onehot] does not check the labels against [num_classes]:
    it returns whenever every position [vec[i] + num_classes * i] falls
    inside the whole buffer, counting from its end when negative, and
    raises otherwise; a label outside of its row is then written into
    another row. *)
Theorem to_onehot_checks_buffer_only (vec : list Z) (num_classes : nat) (fill : R) :
  (∃ t, to_onehot vec num_classes fill = Ok t)
  ↔ ∀ i c, vec !! i = Some c →
      - Z.of_nat (length vec * num_classes)
      ≤ c + Z.of_nat num_classes * Z.of_nat i
      < Z.of_nat (length vec * num_classes).
Proof.
  unfold to_onehot, index_put. rewrite length_replicate.
  set (N := (length vec * num_classes)%nat). set (idx := zip_with Z.add vec _).
  split.
  - intros [t Ht] i c Hc.
    destruct (mapM (norm_index N) idx) as [ks|e] eqn:Hks; [|done].
    apply mapM_result_inv in Hks.
    assert (idx !! i = Some (c + Z.of_nat num_classes * Z.of_nat i)) as Hi
      by (apply flat_positions_lookup; by exists c).
    destruct (proj1 (Forall_lookup _ _) Hks _ _ Hi) as [b Hb].
    unfold norm_index in Hb. repeat case_decide; (done || lia).
  - intros Hall.
    rewrite (mapM_ok _ (λ x, if decide (0 ≤ x) then Z.to_nat x
                             else Z.to_nat (Z.of_nat N + x))).
    + cbn. by eexists.
    + apply Forall_lookup. intros k x (c & Hc & ->)%flat_positions_lookup.
      specialize (Hall k c Hc). cbv beta. unfold norm_index.
      repeat case_decide; (done || lia).
Qed.

Lemma to_onehot_checks_buffer_only_witness :
  (∀ i c, [3; 0] !! i = Some c →
     - Z.of_nat (length [3; 0] * 3) ≤ c + Z.of_nat 3 * Z.of_nat i
     < Z.of_nat (length [3; 0] * 3))
  ∧ ∃ t, to_onehot [3; 0] 3 1000 = Ok t.
Proof.
  assert (∀ i c, [3; 0] !! i = Some c →
            - Z.of_nat (length [3; 0] * 3) ≤ c + Z.of_nat 3 * Z.of_nat i
            < Z.of_nat (length [3; 0] * 3)) as Hall.
  { intros [|[|i]] c [= <-]; simpl; lia. }
  split; [exact Hall|].
  exact (proj2 (to_onehot_checks_buffer_only [3; 0] 3 1000) Hall).
Defined.

(** ** The diagonal *)

(** X13.  For a tensor whose first two axes have the same size [n],
    [diagonal_inds] returns the positions [(n + 1) * i]: in the tensor
    viewed with its first two axes merged, position [(n + 1) * i] holds
    the entry [tensor[i][i]].  A tensor of rank below 2, or with first
    axes of different sizes, fails the assertions. *)
Theorem diagonal_inds_positions {A} (x : tensor A) :
  (∀ n s i, shape x = n :: n :: s → (i < n)%nat →
     ∃ inds,
       diagonal_inds x = Ok inds
       ∧ length inds = n
       ∧ inds !! i = Some ((Z.of_nat n + 1) * Z.of_nat i)
       ∧ getitem_int (Tensor ((n * n)%nat :: s) (data x))
           ((Z.of_nat n + 1) * Z.of_nat i)
         = (y ← getitem_int x (Z.of_nat i); getitem_int y (Z.of_nat i)))
  ∧ ((dim x < 2)%nat ∨ shape x !! 0%nat ≠ shape x !! 1%nat →
     diagonal_inds x = Raise (AssertionError "")).
Proof.
  split.
  - intros n s i Hs Hi. unfold diagonal_inds.
    rewrite (bool_decide_eq_true_2 (2 ≤ dim x)%nat)
      by (unfold dim; rewrite Hs; simpl; lia).
    rewrite (bool_decide_eq_true_2 (shape x !! 0%nat = shape x !! 1%nat))
      by (by rewrite Hs).
    cbn [assert]. rewrite !result_bind_ok. rewrite Hs.
    eexists. split; [reflexivity|]. cbn [lookup list_lookup default].
    split; [by rewrite !length_map, length_seq|]. split.
    { rewrite !list_lookup_fmap, lookup_seq_lt by done. done. }
    replace ((Z.of_nat n + 1) * Z.of_nat i) with (Z.of_nat ((n + 1) * i)) by lia.
    rewrite (gat_seq_facts.getitem_int_first _ (n * n)%nat s) by (done || nia).
    rewrite (gat_seq_facts.getitem_int_first x n (n :: s)) by done.
    rewrite result_bind_ok.
    rewrite (gat_seq_facts.getitem_int_first _ n s) by done.
    cbn [data]. do 2 f_equal.
    replace (numel (n :: s)) with (n * numel s)%nat by done.
    rewrite gat_seq_facts.take_drop_take by nia.
    rewrite drop_drop. do 2 f_equal. nia.
  - intros Hbad. unfold diagonal_inds.
    destruct (decide (2 ≤ dim x)%nat) as [Hd|Hd].
    + destruct Hbad as [?|Hne]; [lia|].
      rewrite (bool_decide_eq_true_2 (2 ≤ dim x)%nat) by done.
      cbn [assert]. rewrite result_bind_ok.
      by rewrite (bool_decide_eq_false_2 (shape x !! 0%nat = shape x !! 1%nat)).
    + by rewrite (bool_decide_eq_false_2 (2 ≤ dim x)%nat).
Qed.

Lemma diagonal_inds_positions_witness :
  shape (Tensor [2; 2]%nat [10; 11; 12; 13]) = [2; 2]%nat ∧ (1 < 2)%nat
  ∧ (∃ inds, diagonal_inds (Tensor [2; 2]%nat [10; 11; 12; 13]) = Ok inds
             ∧ inds !! 1%nat = Some 3)
  ∧ (dim (Tensor [3]%nat [10; 11; 12]) < 2)%nat
  ∧ diagonal_inds (Tensor [3]%nat [10; 11; 12]) = Raise (AssertionError "").
Proof.
  split; [reflexivity|]. split; [lia|]. split; [|split].
  - destruct (proj1 (diagonal_inds_positions (Tensor [2; 2]%nat [10; 11; 12; 13]))
                2%nat [] 1%nat eq_refl ltac:(lia)) as (inds & Hd & _ & Hi & _).
    exists inds. split; [exact Hd|exact Hi].
  - unfold dim. simpl. lia.
  - apply (diagonal_inds_positions (Tensor [3]%nat [10; 11; 12])).
    left. unfold dim. simpl. lia.
Defined.

End index_facts.

Module gather_facts.
Import torch py misc misc_spec torch_facts torch_ops.
Import gat_spec.
#[local] Open Scope Z_scope.

Lemma numel_snoc (s : list nat) (d : nat) : numel (s ++ [d]) = (numel s * d)%nat.
Proof. unfold numel. induction s as [|a s IH]; simpl; [lia|]. rewrite IH. lia. Qed.

Lemma numel_take_S (sh : list nat) (m n : nat) :
  sh !! m = Some n → numel (take (S m) sh) = (numel (take m sh) * n)%nat.
Proof. intros Hm. by rewrite (take_S_r sh m n Hm), numel_snoc. Qed.

Lemma numel_drop (sh : list nat) (m n : nat) :
  sh !! m = Some n → numel (drop m sh) = (n * numel (drop (S m) sh))%nat.
Proof. intros Hm. by rewrite (drop_S sh n m Hm). Qed.

Lemma tab_snoc {A} (n : nat) (f : nat → A) : tab (S n) f = tab n f ++ [f n].
Proof. unfold tab. by rewrite seq_S, map_app. Qed.

Lemma flat_position_bound (n : nat → nat) (e : nat → Z) (m : nat) (sh : list nat) :
  (∀ c, (c < m)%nat → sh !! c = Some (n c) ∧ 0 ≤ e c < Z.of_nat (n c)) →
  0 ≤ flat_position n e m < Z.of_nat (numel (take m sh)).
Proof.
  induction m as [|m IH]; intros Hc.
  - unfold numel. simpl. lia.
  - destruct (Hc m ltac:(lia)) as [Hm He].
    rewrite (numel_take_S sh m (n m) Hm). simpl.
    specialize (IH ltac:(intros; apply Hc; lia)). nia.
Qed.

Lemma flat_position_pred (n : nat → nat) (e : nat → Z) (m : nat) :
  (0 < m)%nat →
  flat_position n e m
  = flat_position n e (m - 1) * Z.of_nat (n (m - 1)%nat) + e (m - 1)%nat.
Proof. destruct m; [lia|]. intros _. simpl. by rewrite Nat.sub_0_r. Qed.

Lemma column_tab (index : tensor Z) (num nd c : nat) :
  shape index = [num; nd] →
  column index c = tab num (λ r, default 0 (index_row index r !! c)).
Proof.
  intros Hs. unfold column, index_row.
  destruct index as [sh d]. simpl in Hs. subst sh.
  rewrite rows_rank2, chunks_tab, map_tab. apply tab_ext. intros r Hr.
  by rewrite lookup_tab.
Qed.

Lemma gather_nd_loop_tab {A} (x : tensor A) (index : tensor Z) (num nd m : nat)
    (sel : nat → Z) (mult : Z) :
  shape index = [num; nd] →
  gather_nd_loop x index (reverse (seq 0 m)) (tab num sel) mult
  = tab num (λ r, sel r
                  + mult * flat_position (λ c, default 0%nat (shape x !! c))
                             (λ c, default 0 (index_row index r !! c)) m).
Proof.
  intros Hs. revert sel mult. induction m as [|m IH]; intros sel mult.
  - simpl. apply tab_ext. intros r _. lia.
  - rewrite seq_S, reverse_app. simpl.
    rewrite (column_tab index num nd m Hs), map_tab, zip_with_tab, IH.
    apply tab_ext. intros r _. lia.
Qed.

Lemma at_path_snoc {A} (x : tensor A) (path : list Z) (i : Z) :
  at_path x (path ++ [i]) = (t ← at_path x path; getitem_int t i).
Proof. unfold at_path. by rewrite foldl_snoc. Qed.

Lemma at_path_prefix {A} (x : tensor A) (n : nat → nat) (e : nat → Z) (k : nat) :
  wf x →
  (∀ c, (c < k)%nat → shape x !! c = Some (n c) ∧ 0 ≤ e c < Z.of_nat (n c)) →
  at_path x (tab k e)
  = Ok (Tensor (drop k (shape x))
          (take (numel (drop k (shape x)))
             (drop (Z.to_nat (flat_position n e k) * numel (drop k (shape x)))
                (data x)))).
Proof.
  intros Hwf. induction k as [|k IH]; intros Hc.
  - unfold at_path, tab. cbn [seq map foldl flat_position]. rewrite drop_0.
    change (Z.to_nat 0) with 0%nat. rewrite Nat.mul_0_l, drop_0.
    rewrite take_ge by (unfold wf in Hwf; lia). by destruct x.
  - destruct (Hc k ltac:(lia)) as [Hk He].
    pose proof (flat_position_bound n e k (shape x) ltac:(intros; apply Hc; lia))
      as Hflat.
    rewrite tab_snoc, at_path_snoc, IH by (intros; apply Hc; lia).
    rewrite result_bind_ok.
    replace (e k) with (Z.of_nat (Z.to_nat (e k))) by lia.
    rewrite (gat_seq_facts.getitem_int_first _ (n k) (drop (S k) (shape x)));
      [|cbn [shape]; by apply drop_S|lia].
    cbn [data shape]. do 2 f_equal.
    rewrite (numel_drop (shape x) k (n k) Hk).
    set (w := numel (drop (S k) (shape x))).
    rewrite gat_seq_facts.take_drop_take by nia. rewrite drop_drop. do 2 f_equal.
    simpl. nia.
Qed.

(** X14.  [gather_nd] picks, for every row of [index], the vector of [x]
    at that multi-index: for [x] of shape [[x0, ..., x{n-1}, dim]] and
    indices inside these axes, row [r] of the result is
    [x[index[r, 0]]...[index[r, n-1]]]. *)
Theorem gather_nd_picks_rows {A} (x : tensor A) (index : tensor Z)
    (s : list nat) (d num : nat) :
  shape x = s ++ [d] → s ≠ [] → d ≠ 0%nat → wf x →
  shape index = [num; length s] → wf index →
  (∀ r c n, (r < num)%nat → s !! c = Some n →
     0 ≤ default 0 (index_row index r !! c) < Z.of_nat n) →
  ∃ out,
    gather_nd x index = Ok out
    ∧ shape out = [num; d]
    ∧ ∀ r, (r < num)%nat →
        ∃ sub, at_path x (index_row index r) = Ok sub
               ∧ shape sub = [d]
               ∧ rows out !! r = Some (data sub).
Proof.
  intros Hx Hne Hd Hwf Hi Hiwf Hrange.
  set (nd := length s) in *.
  set (n := λ c, default 0%nat (shape x !! c)).
  set (e := λ r c, default 0 (index_row index r !! c)).
  assert (0 < nd)%nat as Hnd
    by (unfold nd; clear -Hne; destruct s; [done|simpl; lia]).
  assert (∀ r c, (r < num)%nat → (c < nd)%nat →
            shape x !! c = Some (n c) ∧ 0 ≤ e r c < Z.of_nat (n c)) as Hin.
  { intros r c Hr Hc. destruct (lookup_lt_is_Some_2 s c Hc) as [k Hk].
    assert (shape x !! c = Some k) as Hxc
      by (rewrite Hx; by apply lookup_app_l_Some).
    unfold n. rewrite Hxc. split; [done|]. by apply (Hrange r c k). }
  assert (take nd (shape x) = s) as Htake by (rewrite Hx; by apply take_app_length).
  assert (drop nd (shape x) = [d]) as Hdrop by (rewrite Hx; by apply drop_app_length).
  assert (length (data x) = (numel s * d)%nat) as Hlen
    by (unfold wf in Hwf; by rewrite Hwf, Hx, numel_snoc).
  assert (∀ r, (r < num)%nat →
            0 ≤ flat_position n (e r) nd < Z.of_nat (numel s)) as Hflat.
  { intros r Hr. rewrite <-Htake. apply flat_position_bound.
    intros c Hc. by apply Hin. }
  assert (gather_nd x index
          = Ok (Tensor [num; d]
                  (concat (tab num (λ r,
                     take d (drop (Z.to_nat (flat_position n (e r) nd) * d)
                               (data x))))))) as Hg.
  { unfold gather_nd, dim. rewrite Hx, Hi, length_app. cbn [length].
    replace (length s + 1 - 1)%nat with nd by (unfold nd; lia).
    rewrite (bool_decide_eq_true_2 (0 < nd)%nat) by done.
    rewrite (bool_decide_eq_true_2 (2%nat = 2%nat)) by done.
    rewrite (bool_decide_eq_true_2 ([num; nd] !! 1%nat = Some nd)) by done.
    cbn [assert]. rewrite !result_bind_ok. rewrite last_snoc. cbn [default].
    rewrite (column_tab index num nd (nd - 1) Hi).
    rewrite <-Hx. rewrite (gather_nd_loop_tab x index num nd (nd - 1) _ _ Hi).
    unfold view_rows. rewrite decide_False by done. rewrite result_bind_ok.
    rewrite length_tab.
    rewrite (gat_seq_facts.getitem_tab _ _ (numel (shape x) `div` d)%nat [d] num
               (λ r, flat_position n (e r) nd)); cycle 1.
    { done. }
    { cbn [data]. apply tab_ext. intros r Hr.
      rewrite (flat_position_pred n (e r) nd Hnd).
      change (λ c, default 0 (index_row index r !! c)) with (e r).
      fold (n (nd - 1)%nat). fold n. fold (e r (nd - 1)%nat). lia. }
    { intros r Hr. rewrite Hx, numel_snoc, Nat.div_mul by done. by apply Hflat. }
    cbn [shape app data]. do 3 f_equal. apply tab_ext. intros r Hr.
    by replace (numel [d]) with d by (unfold numel; simpl; lia). }
  eexists. split; [exact Hg|]. split; [done|].
  intros r Hr. specialize (Hflat r Hr).
  assert (index_row index r = tab nd (e r)) as Hrow.
  { apply (list_as_tab 0). unfold index_row.
    destruct index as [sh di]. unfold wf in Hiwf. simpl in Hi, Hiwf. subst sh.
    rewrite rows_rank2, lookup_chunks by done. simpl.
    rewrite length_take, length_drop. unfold numel in Hiwf. simpl in Hiwf. nia. }
  rewrite Hrow, (at_path_prefix x n (e r) nd Hwf) by (intros; by apply Hin).
  rewrite Hdrop. eexists. split; [reflexivity|]. split; [done|].
  rewrite rows_rank2, chunks_concat_tab.
  - rewrite lookup_tab by done. cbn [data].
    by replace (numel [d]) with d by (unfold numel; simpl; lia).
  - intros r' Hr'. specialize (Hin r'). 
    pose proof (flat_position_bound n (e r') nd (shape x)
                  ltac:(intros; by apply Hin)) as Hb.
    rewrite Htake in Hb. rewrite length_take, length_drop. nia.
Qed.

Lemma gather_nd_picks_rows_witness :
  shape (Tensor [2; 2; 1]%nat [10; 11; 12; 13]) = [2; 2]%nat ++ [1%nat]
  ∧ [2; 2]%nat ≠ [] ∧ 1%nat ≠ 0%nat ∧ wf (Tensor [2; 2; 1]%nat [10; 11; 12; 13])
  ∧ shape (Tensor [1; 2]%nat [1; 0]) = [1%nat; length [2; 2]%nat]
  ∧ wf (Tensor [1; 2]%nat [1; 0])
  ∧ ∃ out, gather_nd (Tensor [2; 2; 1]%nat [10; 11; 12; 13])
             (Tensor [1; 2]%nat [1; 0]) = Ok out
           ∧ shape out = [1; 1]%nat.
Proof.
  split; [reflexivity|]. split; [done|]. split; [done|]. split; [reflexivity|].
  split; [reflexivity|]. split; [reflexivity|].
  destruct (gather_nd_picks_rows (Tensor [2; 2; 1]%nat [10; 11; 12; 13])
              (Tensor [1; 2]%nat [1; 0]) [2; 2]%nat 1 1)
    as (out & Hg & Hs & _); try (reflexivity || done).
  - intros r c n Hr Hc. replace r with 0%nat by lia.
    destruct c as [|[|c]]; simpl in Hc; [| |done];
      injection Hc as <-; vm_compute; split; congruence.
  - by exists out.
Defined.

End gather_facts.

Module clip_facts.
Import torch py misc misc_spec.
#[local] Open Scope R_scope.

Lemma Rsum_app (l k : list R) : Rsum (l ++ k) = Rsum l + Rsum k.
Proof. induction l as [|a l IH]; simpl; [lra|]. rewrite IH. lra. Qed.

Lemma Rsum_squares_nonneg (g : list R) : 0 <= Rsum (map (λ v, v * v) g).
Proof. induction g as [|a g IH]; simpl; [lra|]. nra. Qed.

Lemma norm_squared (g : list R) : norm g ^ 2 = Rsum (map (λ v, v * v) g).
Proof. unfold norm. apply pow2_sqrt, Rsum_squares_nonneg. Qed.

Lemma Rsum_squares_scale (c : R) (g : list R) :
  Rsum (map (λ v, v * v) (map (λ v, v * c) g)) = c * c * Rsum (map (λ v, v * v) g).
Proof. induction g as [|a g IH]; simpl; [lra|]. rewrite IH. lra. Qed.

(** The squares of all gradients of the list, one after the other. *)
Lemma sum_of_squares_concat (store : nat → parameter)
    (named_parameters : list (string * nat)) :
  sum_of_squares store named_parameters
  = Rsum (map (λ v, v * v)
            (concat (omap (λ np, grad (store np.2)) named_parameters))).
Proof.
  unfold sum_of_squares.
  induction named_parameters as [|np l IH] using rev_ind; [done|].
  rewrite foldl_snoc, IH, omap_app, concat_app, map_app, Rsum_app.
  destruct (grad (store np.2)) as [g|] eqn:Hg.
  - rewrite norm_squared. simpl. rewrite Hg. simpl. rewrite app_nil_r. lra.
  - simpl. rewrite Hg. simpl. lra.
Qed.

Lemma sum_of_squares_nonneg (store : nat → parameter)
    (named_parameters : list (string * nat)) :
  0 <= sum_of_squares store named_parameters.
Proof. rewrite sum_of_squares_concat. apply Rsum_squares_nonneg. Qed.

(** X15.  The norm that [clip_grad_norm] returns is the 2-norm of all
    gradients of the list taken together, as if they were concatenated into
    a single vector; parameters without a gradient do not count. *)
Theorem clip_grad_norm_total (store : nat → parameter)
    (named_parameters : list (string * nat)) (max_norm : R) (clip : bool) :
  (clip_grad_norm store named_parameters max_norm clip).1
  = norm (concat (omap (λ np, grad (store np.2)) named_parameters)).
Proof.
  unfold clip_grad_norm. rewrite sum_of_squares_concat.
  by destruct (_ && _).
Qed.

(** The store after the second loop, for parameters that are distinct. *)
Lemma scaled_store (c : R) (named_parameters : list (string * nat))
    (store : nat → parameter) (p : nat) :
  NoDup named_parameters.*2 →
  grad (foldl (λ st np, mul_ st np.2 c) store named_parameters p)
  = (if decide (p ∈ named_parameters.*2)
     then map (λ v, v * c) <$> grad (store p) else grad (store p))
  ∧ size (foldl (λ st np, mul_ st np.2 c) store named_parameters p)
    = size (store p).
Proof.
  revert store. induction named_parameters as [|[name q] l IH]; intros store Hnd.
  - done.
  - apply NoDup_cons in Hnd as [Hq Hnd]. simpl in *.
    destruct (IH (mul_ store q c) Hnd) as [-> ->].
    unfold mul_. destruct (decide (p = q)) as [->|Hne].
    + rewrite decide_False by done. rewrite decide_True by (by left).
      destruct (grad (store q)) as [g|] eqn:Hg; simpl.
      * by rewrite fn_lookup_insert.
      * by rewrite Hg.
    + assert (∀ st, (match grad (store q) with
                     | Some g => <[q := st g]> store
                     | None => store
                     end) p = store p) as Hsame.
      { intros st. destruct (grad (store q)); [|done].
        by rewrite fn_lookup_insert_ne. }
      rewrite Hsame. split; [|done].
      destruct (decide (p ∈ l.*2)) as [Hin|Hin].
      * by rewrite decide_True by (by right).
      * rewrite decide_False; [done|]. by intros [?|?]%elem_of_cons.
Qed.

Lemma concat_omap_cons {A B} (f : A → option (list B)) (x : A) (l : list A) :
  concat (omap f (x :: l)) = default [] (f x) ++ concat (omap f l).
Proof. simpl. by destruct (f x). Qed.

Lemma sum_of_squares_ext (store store' : nat → parameter) (c : R)
    (named_parameters : list (string * nat)) :
  (∀ np, np ∈ named_parameters →
     grad (store' np.2) = map (λ v, v * c) <$> grad (store np.2)) →
  sum_of_squares store' named_parameters
  = c * c * sum_of_squares store named_parameters.
Proof.
  rewrite !sum_of_squares_concat.
  induction named_parameters as [|np l IH]; intros Hg; [simpl; lra|].
  rewrite !concat_omap_cons, !map_app, !Rsum_app.
  rewrite IH by (intros; apply Hg; by right).
  rewrite (Hg np) by (by left).
  destruct (grad (store np.2)) as [g|]; simpl.
  - rewrite Rsum_squares_scale. lra.
  - lra.
Qed.

Lemma clipped_norm (store : nat → parameter)
    (named_parameters : list (string * nat)) (max_norm : R) :
  NoDup named_parameters.*2 → 0 < max_norm →
  sqrt (sum_of_squares (clip_grad_norm store named_parameters max_norm true).2
          named_parameters) < max_norm.
Proof.
  intros Hnd Hmax. unfold clip_grad_norm.
  set (total := sqrt (sum_of_squares store named_parameters)).
  assert (0 <= total) as Htotal by apply sqrt_pos.
  set (c := max_norm / (total + 1 / 1000000)).
  assert (0 < total + 1 / 1000000) as Hden by lra.
  assert (0 < c) as Hc by (by apply Rdiv_lt_0_compat).
  assert (c * (total + 1 / 1000000) = max_norm) as Hcm
    by (unfold c; field; lra).
  rewrite andb_true_r. case_bool_decide as Hlt; cbn [snd].
  - rewrite (sum_of_squares_ext store _ c).
    + rewrite sqrt_mult by (nra || apply sum_of_squares_nonneg).
      rewrite sqrt_square by lra. fold total. nra.
    + intros [name p] Hin. simpl.
      destruct (scaled_store c named_parameters store p Hnd) as [-> _].
      rewrite decide_True; [done|].
      apply list_elem_of_fmap. by exists (name, p).
  - fold total. nra.
Qed.

(** X16.  With [clip=True], a positive [max_norm] and parameters that
    are distinct, the gradients that [clip_grad_norm] leaves have a total
    norm below [max_norm]: they are the gradients it found when their norm
    was below [max_norm] by [1e-6] at least, and these gradients scaled by
    [max_norm / (total_norm + 1e-6)] otherwise.  Sizes do not change, and
    with [clip=False], the default, nothing is changed at all. *)
Theorem clip_grad_norm_clips (store : nat → parameter)
    (named_parameters : list (string * nat)) (max_norm : R) :
  NoDup named_parameters.*2 → 0 < max_norm →
  let total_norm := (clip_grad_norm store named_parameters max_norm true).1 in
  let store' := (clip_grad_norm store named_parameters max_norm true).2 in
  sqrt (sum_of_squares store' named_parameters) < max_norm
  ∧ (total_norm + 1 / 1000000 <= max_norm → store' = store)
  ∧ (max_norm < total_norm + 1 / 1000000 →
     ∀ p, grad (store' p)
          = if decide (p ∈ named_parameters.*2)
            then map (λ v, v * (max_norm / (total_norm + 1 / 1000000)))
                 <$> grad (store p)
            else grad (store p))
  ∧ (∀ p, size (store' p) = size (store p))
  ∧ (clip_grad_norm store named_parameters max_norm false).2 = store.
Proof.
  intros Hnd Hmax total_norm store'.
  split; [by apply clipped_norm|].
  unfold store', total_norm, clip_grad_norm.
  set (total := sqrt (sum_of_squares store named_parameters)).
  assert (0 <= total) as Htotal by apply sqrt_pos.
  set (c := max_norm / (total + 1 / 1000000)).
  assert (0 < total + 1 / 1000000) as Hden by lra.
  assert (c * (total + 1 / 1000000) = max_norm) as Hcm
    by (unfold c; field; lra).
  rewrite andb_true_r, andb_false_r.
  case_bool_decide as Hlt; cbn [fst snd]; fold total; fold c.
  - split; [intros Hle; nra|]. split; [|split; [|done]].
    + intros _ p. by destruct (scaled_store c named_parameters store p Hnd).
    + intros p. by destruct (scaled_store c named_parameters store p Hnd).
  - split; [done|]. split; [|done]. intros Hgt. nra.
Qed.

Lemma clip_grad_norm_clips_witness :
  NoDup [("w"%string, 0%nat)].*2 ∧ 0 < 1
  ∧ sqrt (sum_of_squares
            (clip_grad_norm (λ _, Parameter_ [2%nat] (Some [3; 4]))
               [("w"%string, 0%nat)] 1 true).2
            [("w"%string, 0%nat)]) < 1.
Proof.
  assert (NoDup [("w"%string, 0%nat)].*2) as Hnd
    by (apply NoDup_singleton).
  split; [exact Hnd|]. split; [lra|].
  apply (clip_grad_norm_clips (λ _, Parameter_ [2%nat] (Some [3; 4]))
           [("w"%string, 0%nat)] 1 Hnd). lra.
Defined.

(** ** The caller: [grad_clip] *)

Lemma NoDup_filter_snd {A B} (P : A * B → Prop) `{∀ x, Decision (P x)}
    (l : list (A * B)) :
  NoDup l.*2 → NoDup (filter P l).*2.
Proof.
  induction l as [|x l IH]; [done|]. intros [Hx Hl]%NoDup_cons.
  rewrite filter_cons. destruct (decide (P x)); [|by apply IH].
  simpl. apply NoDup_cons. split; [|by apply IH].
  intros (y & Hy & [_ Hin]%list_elem_of_filter)%list_elem_of_fmap.
  apply Hx. apply list_elem_of_fmap. by exists y.
Qed.

Lemma sum_of_squares_filter (store store0 : nat → parameter)
    (detector : list (string * nat)) :
  (∀ np, np ∈ detector → grad (store0 np.2) = None → grad (store np.2) = None) →
  sum_of_squares store (filter (λ np, grad (store0 np.2) ≠ None) detector)
  = sum_of_squares store detector.
Proof.
  rewrite !sum_of_squares_concat.
  induction detector as [|np l IH]; intros Hnone; [done|].
  rewrite filter_cons.
  specialize (IH ltac:(intros np' Hin' Hn; apply Hnone; [by right|done])).
  destruct (decide (grad (store0 np.2) ≠ None)) as [Hg|Hg].
  - by rewrite !concat_omap_cons, !map_app, !Rsum_app, IH.
  - apply dec_stable in Hg.
    rewrite concat_omap_cons, (Hnone np ltac:(by left) Hg). by rewrite IH.
Qed.

(** X17.  After [grad_clip(detector, clip, verbose)] with a positive
    [clip], the gradients of the module, taken together, have a norm below
    [clip]; no parameter changes its size, and parameters without a gradient
    stay without one. *)
Theorem grad_clip_bounds_norm (store : nat → parameter)
    (detector : list (string * nat)) (clip : R) :
  NoDup detector.*2 → 0 < clip →
  sqrt (sum_of_squares (grad_clip store detector clip) detector) < clip
  ∧ ∀ p, size (grad_clip store detector clip p) = size (store p)
         ∧ (grad (store p) = None → grad (grad_clip store detector clip p) = None).
Proof.
  intros Hnd Hclip. unfold grad_clip.
  set (kept := filter (λ np, grad (store np.2) ≠ None) detector).
  assert (NoDup kept.*2) as Hkept by (by apply NoDup_filter_snd).
  destruct (clip_grad_norm_clips store kept clip Hkept Hclip)
    as (Hnorm & Hsame & Hscaled & Hsize & _).
  assert (∀ p, grad (store p) = None →
            grad ((clip_grad_norm store kept clip true).2 p) = None) as Hnone.
  { intros p Hp.
    destruct (Rle_or_lt ((clip_grad_norm store kept clip true).1 + 1 / 1000000) clip)
      as [Hle|Hlt].
    - by rewrite (Hsame Hle).
    - rewrite (Hscaled Hlt p), Hp. by destruct (decide _). }
  split; [|intros p; split; [apply Hsize|apply Hnone]].
  rewrite <-(sum_of_squares_filter _ store); [exact Hnorm|].
  intros np _. apply Hnone.
Qed.

Lemma grad_clip_bounds_norm_witness :
  NoDup [("w"%string, 0%nat); ("b"%string, 1%nat)].*2 ∧ 0 < 1
  ∧ sqrt (sum_of_squares
            (grad_clip (λ p, Parameter_ [2%nat]
                               (if decide (p = 0%nat) then Some [3; 4] else None))
               [("w"%string, 0%nat); ("b"%string, 1%nat)] 1)
            [("w"%string, 0%nat); ("b"%string, 1%nat)]) < 1.
Proof.
  assert (NoDup [("w"%string, 0%nat); ("b"%string, 1%nat)].*2) as Hnd.
  { apply NoDup_cons. split; [|apply NoDup_singleton].
    intros Hin%list_elem_of_singleton. discriminate Hin. }
  split; [exact Hnd|]. split; [lra|].
  apply (grad_clip_bounds_norm _ _ 1 Hnd). lra.
Defined.

End clip_facts.

Module restore_more.
Import torch pytorch_misc restore_spec restore_facts.

(** What a call leaves and answers, in terms of the entries. *)
Lemma restore_summary (network : Network) (state_dict : list (string * tensor R))
    (names_map : option (list (string * string))) :
  names (optimistic_restore network state_dict names_map).1.2 = names network
  ∧ (∀ l, storage (optimistic_restore network state_dict names_map).1.2 l
          = restored (names network) (storage network) names_map state_dict l)
  ∧ ((optimistic_restore network state_dict names_map).1.1 = true
     ↔ ¬ any_mismatch (names network) (storage network) names_map state_dict).
Proof.
  destruct (run_invariant (names network) (storage network) names_map state_dict)
    as [Hkeys Hdet Hshape Hstate Hmm _ _ _ _].
  set (own := names network) in *. set (st0 := storage network) in *.
  set (v := run own st0 names_map state_dict) in *.
  assert (size (dom own ∖ state_dict_keys_new v) = 0
          ↔ missing own names_map state_dict = ∅) as Hmiss.
  { unfold missing. rewrite Hkeys. rewrite size_empty_iff.
    apply leibniz_equiv_iff. }
  unfold optimistic_restore. fold own st0. fold (run own st0 names_map state_dict).
  fold v. unfold any_mismatch. rewrite <-Hdet.
  destruct (only_detector v) eqn:Hod.
  - cbn [fst snd names storage]. split; [done|]. split; [exact Hstate|].
    rewrite negb_true_iff, <-not_true_iff_false, Hmm. split.
    + intros Hn [?|[?|[? _]]]; [apply Hn; by left|apply Hn; by right|congruence].
    + intros Hn [?|?]; apply Hn; [by left|by right; left].
  - destruct (decide (0 < size (dom own ∖ state_dict_keys_new v))) as [Hpos|Hpos];
      cbn [fst snd names storage]; (split; [done|]); (split; [exact Hstate|]).
    + split; [done|]. intros Hn. exfalso. apply Hn. right. right.
      split; [done|]. intros He. apply Hmiss in He. lia.
    + assert (missing own names_map state_dict = ∅) as He by (apply Hmiss; lia).
      rewrite negb_true_iff, <-not_true_iff_false, Hmm. split.
      * intros Hn [?|[?|[_ ?]]]; [apply Hn; by left|apply Hn; by right|done].
      * intros Hn [?|?]; apply Hn; [by left|by right; left].
Qed.

Lemma plain_resolution (own : gmap string nat)
    (names_map : option (list (string * string)))
    (sd : list (string * tensor R)) :
  (∀ item, item ∈ sd → own !! ("detector." +:+ rename names_map item.1) = None) →
  (∀ item, item ∈ sd → via_detector own names_map item = false
                       ∧ resolved own names_map item = rename names_map item.1)
  ∧ ends_via_detector own names_map sd = false
  ∧ ¬ detector_then_plain own names_map sd.
Proof.
  intros Hno.
  assert (∀ item, item ∈ sd → via_detector own names_map item = false) as Hvia.
  { intros item Hin. unfold via_detector, renamed.
    apply bool_decide_eq_false_2. intros [[x Hx] _].
    rewrite (Hno item Hin) in Hx. done. }
  split; [|split].
  - intros item Hin. split; [by apply Hvia|].
    unfold resolved. by rewrite (Hvia item Hin).
  - unfold ends_via_detector. destruct (last sd) as [x|] eqn:Hlast; [|done].
    simpl. apply Hvia. by apply last_Some_elem_of.
  - intros (i & x & y & Hx & _ & Vx & _).
    rewrite (Hvia x) in Vx; [done|]. by eapply list_elem_of_lookup_2.
Qed.

(** X18.  When no key of the checkpoint resolves through the
    ["detector."] prefix, [optimistic_restore] is the best-effort restore
    one expects: it answers [True] exactly when there is no unexpected key,
    no tensor of another size and no missing key; and when it answers
    [True], every parameter of the network holds the data of a checkpoint
    entry named like it and of its size. *)
Theorem optimistic_restore_without_prefix (network : Network)
    (state_dict : list (string * tensor R))
    (names_map : option (list (string * string))) :
  (∀ item, item ∈ state_dict →
     names network !! ("detector." +:+ rename names_map item.1) = None) →
  let result := optimistic_restore network state_dict names_map in
  (result.1.1 = true
   ↔ ¬ claimed_mismatch (names network) (storage network) names_map state_dict)
  ∧ (result.1.1 = true →
     ∀ key l, names network !! key = Some l →
       ∃ item, item ∈ state_dict
               ∧ names network !! rename names_map item.1 = Some l
               ∧ shape item.2 = shape (storage network l)
               ∧ storage result.1.2 l
                 = Tensor (shape (storage network l)) (data item.2)).
Proof.
  intros Hno result.
  destruct (restore_summary network state_dict names_map) as (_ & Hst & Hok).
  destruct (plain_resolution (names network) names_map state_dict Hno)
    as (Hplain & Hends & Hdtp).
  set (own := names network) in *. set (st0 := storage network) in *.
  assert (any_mismatch own st0 names_map state_dict
          ↔ claimed_mismatch own st0 names_map state_dict) as Hsame.
  { unfold any_mismatch, claimed_mismatch. split.
    - intros [(item & Hin & [Hu|(l & Hl & Hs)])|[?|[_ ?]]]; [| |done|by right; right].
      + left. exists item. split; [done|]. unfold unexpected in Hu.
        destruct (Hplain item Hin) as [_ Hr]. rewrite Hr in Hu. done.
      + right. left. exists item, l. split; [done|].
        destruct (Hplain item Hin) as [_ Hr]. rewrite Hr in Hl. done.
    - intros [(item & Hin & Hn)|[(item & l & Hin & Hl & Hs)|?]].
      + left. exists item. split; [done|]. left. unfold unexpected.
        destruct (Hplain item Hin) as [_ Hr]. by rewrite Hr.
      + left. exists item. split; [done|]. right. exists l.
        destruct (Hplain item Hin) as [_ Hr]. by rewrite Hr.
      + by right; right. }
  split; [unfold result; by rewrite Hok, Hsame|].
  intros Htrue key l Hkey. apply Hok in Htrue.
  assert (∃ item, item ∈ state_dict ∧ copied_to own st0 names_map l item)
    as (item0 & Hin0 & Hc0).
  { assert (key ∈ (list_to_set (renamed names_map <$> state_dict) : gset string))
      as Hk.
    { destruct (decide (key ∈ (list_to_set (renamed names_map <$> state_dict)
                                : gset string))) as [?|Hnk]; [done|].
      exfalso. apply Htrue. right. right. split; [done|]. unfold missing.
      intros He. assert (key ∈ dom own ∖ list_to_set (renamed names_map <$> state_dict))
        as Hin by (apply elem_of_difference; split; [by apply elem_of_dom|done]).
      rewrite He in Hin. by apply elem_of_empty in Hin. }
    apply elem_of_list_to_set, list_elem_of_fmap in Hk as (item & -> & Hin).
    exists item. split; [done|].
    destruct (Hplain item Hin) as [_ Hr]. unfold renamed in Hkey.
    split; [by rewrite Hr|].
    destruct (decide (shape item.2 = shape (st0 l))) as [?|Hne]; [done|].
    exfalso. apply Htrue. left. exists item. split; [done|]. right.
    exists l. by rewrite Hr. }
  unfold result. rewrite Hst.
  destruct (restored_cases own st0 names_map state_dict l)
    as [[_ Hnone]|(item & Hin & [Hl Hs] & Heq)]; [by destruct (Hnone item0 Hin0)|].
  exists item. split; [done|].
  destruct (Hplain item Hin) as [_ Hr]. rewrite Hr in Hl. done.
Qed.

Lemma optimistic_restore_without_prefix_witness :
  (∀ item, item ∈ [("b"%string, Tensor [1] [1%R])] →
     names example.network !! ("detector." +:+ rename None item.1) = None)
  ∧ (optimistic_restore example.network [("b"%string, Tensor [1] [1%R])] None).1.1
    = false.
Proof.
  assert (∀ item, item ∈ [("b"%string, Tensor [1] [1%R])] →
            names example.network !! ("detector." +:+ rename None item.1) = None)
    as Hno.
  { intros item Hin. apply list_elem_of_singleton in Hin as ->. by vm_compute. }
  split; [exact Hno|].
  destruct (optimistic_restore_without_prefix example.network
              [("b"%string, Tensor [1] [1%R])] None Hno) as [Hiff _].
  apply not_true_iff_false. intros Htrue. apply Hiff in Htrue. apply Htrue.
  right. right. intros He.
  assert ("detector.a"%string
          ∈ missing (names example.network) None [("b"%string, Tensor [1] [1%R])])
    as Hb by (apply (bool_decide_unpack _); by vm_compute).
  rewrite He in Hb. by apply elem_of_empty in Hb.
Defined.

Lemma restored_same_shapes (own : gmap string nat) (st0 st1 : nat → tensor R)
    (names_map : option (list (string * string)))
    (sd : list (string * tensor R)) (l : nat) :
  (∀ l, shape (st1 l) = shape (st0 l)) →
  st1 l = restored own st0 names_map sd l →
  restored own st1 names_map sd l = st1 l.
Proof.
  intros Hsh Hl. unfold restored in *.
  rewrite (list_filter_iff _ (λ item, own !! resolved own names_map item = Some l
                                 ∧ shape item.2 = shape (st0 l))).
  - destruct (last _) as [item|]; simpl in *; [|done].
    rewrite Hsh. by symmetry.
  - intros item. by rewrite Hsh.
Qed.

Lemma any_mismatch_same_shapes (own : gmap string nat) (st0 st1 : nat → tensor R)
    (names_map : option (list (string * string)))
    (sd : list (string * tensor R)) :
  (∀ l, shape (st1 l) = shape (st0 l)) →
  any_mismatch own st1 names_map sd ↔ any_mismatch own st0 names_map sd.
Proof.
  intros Hsh. unfold any_mismatch, size_mismatch.
  by setoid_rewrite Hsh.
Qed.

(** X19.  Restoring the same checkpoint a second time changes nothing:
    [optimistic_restore] gives the same answer and leaves every tensor of
    the network as the first call left it. *)
Theorem optimistic_restore_idempotent (network : Network)
    (state_dict : list (string * tensor R))
    (names_map : option (list (string * string))) :
  let first := optimistic_restore network state_dict names_map in
  let second := optimistic_restore first.1.2 state_dict names_map in
  second.1.1 = first.1.1
  ∧ names second.1.2 = names network
  ∧ ∀ l, storage second.1.2 l = storage first.1.2 l.
Proof.
  intros first second.
  destruct (restore_summary network state_dict names_map) as (Hn1 & Hst1 & Hok1).
  destruct (restore_summary first.1.2 state_dict names_map) as (Hn2 & Hst2 & Hok2).
  fold first in Hn1, Hst1, Hok1. fold second in Hn2, Hst2, Hok2.
  rewrite Hn1 in Hn2, Hst2, Hok2.
  assert (∀ l, shape (storage first.1.2 l) = shape (storage network l)) as Hsh.
  { intros l. rewrite Hst1.
    destruct (restored_cases (names network) (storage network) names_map
                state_dict l) as [[-> _]|(item & _ & _ & ->)]; done. }
  split; [|split; [done|]].
  - rewrite (any_mismatch_same_shapes _ _ _ _ _ Hsh) in Hok2.
    destruct (second.1.1), (first.1.1); try done.
    + symmetry. apply Hok1, Hok2. done.
    + apply Hok2, Hok1. done.
  - intros l. rewrite Hst2.
    apply (restored_same_shapes _ (storage network)); [done|]. apply Hst1.
Qed.

End restore_more.

Module gat_more.
Import torch gat_spec gat_seq_spec torch_facts torch_ops post_facts
  forward_facts gat_facts gat_claims_aux gat_seq_facts.

(** X20.  A module as [__init__] builds it, with at least one head and
    one channel and a dropout probability between 0 and 1, passes on every
    input whose widths are those it was built for: source features of width
    [in_channels], edge features of width [edge_in_channels].  The output
    has one row per target node and [heads * out_channels] columns with
    [concat], [out_channels] without. *)
Theorem fresh_module_forward (n out_channels edge_in_channels heads : nat)
    (concat : bool) (negative_slope dropout : R) (add_self_loops bias : bool)
    (g0 g : rng) (x : tensor R) (edge_index : tensor Z) (edge_attr : tensor R) :
  heads * out_channels ≠ 0 → (0 <= dropout <= 1)%R →
  let self := (gat.__init__ (gat.Int n) out_channels edge_in_channels heads
                 concat negative_slope dropout add_self_loops bias g0).1 in
  valid_input self (gat.XTensor x) edge_index edge_attr →
  in_features (gat.lin_l self) = n
  ∧ in_features (gat.lin_e self) = edge_in_channels
  ∧ ∃ out st,
      gat.forward (gat.XTensor x) edge_index edge_attr None None (self, g)
      = (Ok (gat.Out out), st)
      ∧ shape out = [nrows x; if concat then heads * out_channels else out_channels]
      ∧ wf out.
Proof.
  intros Hpos Hp self Hvi.
  destruct (init_valid (gat.Int n) out_channels edge_in_channels heads concat
              negative_slope dropout add_self_loops bias g0 Hpos Hp)
    as (Hm & Hh & HC & Hcat & _ & _ & _ & _ & Hinl & _ & Hine).
  fold self in Hm, Hh, HC, Hcat, Hinl, Hine.
  split; [done|]. split; [done|].
  destruct (forward_spec self (gat.XTensor x) edge_index edge_attr None g Hm Hvi)
    as (d & g' & _ & _ & Hf).
  eexists _, _. split; [exact Hf|]. split; [|apply wf_of_rows_tab].
  unfold output_tensor. rewrite shape_of_rows_tab.
  assert (out_nodes (gat.XTensor x) = nrows x) as ->
    by (unfold out_nodes; simpl; by destruct (decide _)).
  assert (out_width self = if concat then heads * out_channels else out_channels)
    as -> by (unfold out_width; by rewrite Hcat, Hh, HC).
  done.
Qed.

Lemma fresh_module_forward_witness :
  2 * 5 ≠ 0 ∧ (0 <= 0 <= 1)%R
  ∧ valid_input example.conv (gat.XTensor example.x) example.edge_index
      example.edge_attr
  ∧ ∃ out st,
      gat.forward (gat.XTensor example.x) example.edge_index example.edge_attr
        None None (example.conv, example.g1) = (Ok (gat.Out out), st)
      ∧ shape out = [3; 5].
Proof.
  split; [lia|]. split; [lra|]. split; [exact gat_claims.example_valid_input|].
  destruct (fresh_module_forward 4 5 3 2 false (1 / 5) 0 true true example.g0
              example.g1 example.x example.edge_index example.edge_attr
              ltac:(lia) ltac:(lra) gat_claims.example_valid_input)
    as (_ & _ & out & st & Hf & Hs & _).
  exists out, st. split; [exact Hf|exact Hs].
Defined.

Lemma Rsum_zeros {A} (l : list A) : Rsum (map (λ _, 0%R) l) = 0%R.
Proof. induction l as [|a l IH]; simpl; [done|]. rewrite IH. lra. Qed.

(** X21.  A node at which no edge arrives receives no message: its row
    of the output is the bias, or zero when the module has none.  (No
    self-loop is added, so such nodes exist.) *)
Theorem isolated_node_gets_bias (self : gat.t) (x : gat.x_arg)
    (edge_index : tensor Z) (edge_attr : tensor R) (g : rng) (n k : nat) :
  valid_module self → valid_input self x edge_index edge_attr →
  incoming edge_index n = [] →
  n < out_nodes x → k < out_width self →
  ∃ out st,
    gat.forward x edge_index edge_attr None None (self, g) = (Ok (gat.Out out), st)
    ∧ at2 out n k = Some (match gat.bias self with
                          | Some b => default 0%R (b !! k)
                          | None => 0%R
                          end).
Proof.
  intros Hm Hi Hinc Hn Hk.
  destruct (forward_spec self x edge_index edge_attr None g Hm Hi)
    as (d & g' & _ & _ & Hf).
  eexists _, _. split; [exact Hf|].
  unfold output_tensor. rewrite at2_of_rows_tab by done. f_equal.
  unfold out_entry, aggregated. rewrite Hinc. simpl.
  rewrite Rsum_zeros.
  destruct (gat.concat self), (gat.bias self); simpl; lra.
Qed.

Lemma isolated_node_gets_bias_witness :
  valid_module example.conv
  ∧ valid_input example.conv (gat.XTensor example.x) example.edge_index
      example.edge_attr
  ∧ incoming example.edge_index 0 = []
  ∧ 0 < out_nodes (gat.XTensor example.x) ∧ 0 < out_width example.conv
  ∧ ∃ out st,
      gat.forward (gat.XTensor example.x) example.edge_index example.edge_attr
        None None (example.conv, example.g1) = (Ok (gat.Out out), st)
      ∧ at2 out 0 0 = Some 0%R.
Proof.
  assert (out_nodes (gat.XTensor example.x) = 3) as Hn3 by reflexivity.
  assert (out_width example.conv = 5) as Hw5 by reflexivity.
  assert (0 < out_nodes (gat.XTensor example.x)) as Hn by (rewrite Hn3; lia).
  assert (0 < out_width example.conv) as Hk by (rewrite Hw5; lia).
  split; [exact gat_claims.example_valid_module|].
  split; [exact gat_claims.example_valid_input|]. split; [reflexivity|].
  split; [exact Hn|]. split; [exact Hk|].
  destruct (isolated_node_gets_bias example.conv (gat.XTensor example.x)
              example.edge_index example.edge_attr example.g1 0 0
              gat_claims.example_valid_module gat_claims.example_valid_input
              eq_refl Hn Hk) as (out & st & Hf & Hat).
  exists out, st. split; [exact Hf|exact Hat].
Defined.

Lemma valid_module_with_alpha (self : gat.t) (a : option (tensor R)) :
  valid_module self → valid_module (gat.with_alpha self a).
Proof. intros [? ? ? ? ? ? ? ? ?]. by split. Qed.

Lemma valid_input_with_alpha (self : gat.t) (a : option (tensor R))
    (x : gat.x_arg) (edge_index : tensor Z) (edge_attr : tensor R) :
  valid_input self x edge_index edge_attr →
  valid_input (gat.with_alpha self a) x edge_index edge_attr.
Proof. intros [? ? ? ? ? ?]. by split. Qed.

(** X22.  What [forward] returns never depends on what the cache
    [_alpha] held before the call; and in evaluation mode the pass draws
    nothing from the random generator, so that it can be repeated with the
    same result. *)
Theorem forward_ignores_stale_cache (self : gat.t) (x : gat.x_arg)
    (edge_index : tensor Z) (edge_attr : tensor R) (raw : option bool)
    (g : rng) (stale : option (tensor R)) :
  valid_module self → valid_input self x edge_index edge_attr →
  gat.forward x edge_index edge_attr None raw (gat.with_alpha self stale, g)
  = gat.forward x edge_index edge_attr None raw (self, g)
  ∧ (gat.training self = false →
     ∃ o, gat.forward x edge_index edge_attr None raw (self, g)
          = (Ok o, (clear_alpha self, g))
          ∧ gat.forward x edge_index edge_attr None raw (clear_alpha self, g)
            = (Ok o, (clear_alpha self, g))).
Proof.
  intros Hm Hi.
  destruct (forward_spec self x edge_index edge_attr raw g Hm Hi)
    as (d & g' & Hd & _ & Hf).
  assert (∀ a, gat.forward x edge_index edge_attr None raw (gat.with_alpha self a, g)
               = gat.forward x edge_index edge_attr None raw (self, g)) as Hsame.
  { intros a. rewrite Hf.
    pose proof (valid_module_with_alpha self a Hm) as Hm'.
    pose proof (valid_input_with_alpha self a x edge_index edge_attr Hi) as Hi'.
    destruct (forward_spec (gat.with_alpha self a) x edge_index edge_attr raw g
                Hm' Hi') as (d' & g'' & Hd' & _ & Hf').
    rewrite Hf'.
    assert (torch.dropout (data (attention_tensor (gat.with_alpha self a) x
                                   edge_index edge_attr))
              (gat.dropout (gat.with_alpha self a))
              (gat.training (gat.with_alpha self a)) g
            = torch.dropout (data (attention_tensor self x edge_index edge_attr))
                (gat.dropout self) (gat.training self) g) as Heq
      by (by destruct self).
    rewrite Heq, Hd in Hd'. injection Hd' as <- <-.
    by destruct self. }
  split; [apply Hsame|].
  intros Heval.
  assert (g' = g) as ->.
  { destruct (dropout_ok (data (attention_tensor self x edge_index edge_attr))
                (gat.dropout self) (gat.training self) g)
      as (d0 & g0 & Hd0 & _ & Hkeep); [by destruct Hm|].
    rewrite Hd in Hd0. injection Hd0 as <- <-. by destruct (Hkeep Heval). }
  eexists. split; [exact Hf|]. unfold clear_alpha. by rewrite Hsame.
Qed.

Lemma forward_ignores_stale_cache_witness :
  valid_module example.conv
  ∧ valid_input example.conv (gat.XTensor example.x) example.edge_index
      example.edge_attr
  ∧ gat.forward (gat.XTensor example.x) example.edge_index example.edge_attr
      None None (gat.with_alpha example.conv (Some example.x), example.g1)
    = gat.forward (gat.XTensor example.x) example.edge_index example.edge_attr
        None None (example.conv, example.g1).
Proof.
  split; [exact gat_claims.example_valid_module|].
  split; [exact gat_claims.example_valid_input|].
  exact (proj1 (forward_ignores_stale_cache example.conv (gat.XTensor example.x)
                  example.edge_index example.edge_attr None example.g1
                  (Some example.x) gat_claims.example_valid_module
                  gat_claims.example_valid_input)).
Defined.

(** X23.  For a stack whose layers keep the width of the hidden state
    ([out_channels] equal to [in_channels]), as [__init__] builds it with
    valid options, a pass over inputs that fit together returns, and the
    hidden state it returns has the shape [N × F] of the node features it
    was given. *)
Theorem stack_forward_keeps_shape (N F E Fe L B Fi : nat) (x : tensor R)
    (edge_index : tensor Z) (edge_attr instr_vectors : tensor R)
    (batch : tensor Z) (self : gat_seq.t) (g : rng) :
  valid_inputs 0 N F E Fe L B Fi x edge_index edge_attr instr_vectors batch →
  (∀ e, e < E →
     (0 ≤ default 0 (data edge_index !! (E + e)%nat) < Z.of_nat N)%Z) →
  valid_stack N F Fe Fi self → length (gat_seq.convs self) ≤ L →
  ∃ h st,
    gat_seq.forward x edge_index edge_attr instr_vectors batch (self, g)
    = (Ok h, st)
    ∧ shape h = [N; F] ∧ wf h.
Proof. apply forward_returns. Qed.

Lemma stack_forward_keeps_shape_witness :
  valid_inputs 0 5 2 3 2 2 2 3 example.hidden example.batch_edges
    example.batch_edge_attr example.instr_vectors2 example.batch
  ∧ valid_stack 5 2 2 3 example.stack
  ∧ length (gat_seq.convs example.stack) ≤ 2
  ∧ ∃ h st,
      gat_seq.forward example.hidden example.batch_edges example.batch_edge_attr
        example.instr_vectors2 example.batch (example.stack, example.stack_rng)
      = (Ok h, st)
      ∧ shape h = [5; 2].
Proof.
  destruct example_stack_valid as [Hstack HL].
  split; [exact example_stack_inputs|]. split; [exact Hstack|].
  split; [rewrite HL; lia|].
  destruct (stack_forward_keeps_shape 5 2 3 2 2 2 3 example.hidden
              example.batch_edges example.batch_edge_attr example.instr_vectors2
              example.batch example.stack example.stack_rng example_stack_inputs)
    as (h & st & Hf & Hs & _); [|exact Hstack|rewrite HL; lia|by exists h, st].
  intros e He. destruct e as [|[|[|e]]]; simpl; lia.
Defined.

(** The attention operator of a layer on the inputs of the layer. *)
Lemma conv_on_inputs (i N F E Fe L B Fi C : nat) (h : tensor R)
    (edge_index : tensor Z) (edge_attr instr_vectors : tensor R)
    (batch : tensor Z) (conv : gat.t) (g : rng) :
  valid_inputs i N F E Fe L B Fi h edge_index edge_attr instr_vectors batch →
  (∀ e, e < E →
     (0 ≤ default 0 (data edge_index !! (E + e)%nat) < Z.of_nat N)%Z) →
  valid_module conv → gat.concat conv = false → gat.out_channels conv = C →
  in_features (gat.lin_l conv) = F + Fi →
  in_features (gat.lin_e conv) = Fe + Fi →
  ∃ xe out g',
    gat_seq.concat_inputs i h edge_index edge_attr instr_vectors batch = Ok xe
    ∧ gat.forward (gat.XTensor xe.1) edge_index xe.2 None None (conv, g)
      = (Ok (gat.Out out), (clear_alpha conv, g'))
    ∧ shape out = [N; C] ∧ wf out.
Proof.
  intros Hv Hdst Hm Hcat HC Hinl Hine.
  pose proof (concat_inputs_spec _ _ _ _ _ _ _ _ _ _ _ _ _ Hv) as Hc.
  destruct Hv as [[Hh Hhwf] [Hb Hbwf] Hgraph [Hei Heiwf] Hsrc [Hea Heawf] [Hiv Hivwf] Hi].
  assert (∀ b, b < B → length (instruction instr_vectors i b) = Fi) as Hlen
    by (intros; by apply (instruction_length _ L B Fi)).
  set (x_cat := of_rows (F + Fi) _) in Hc. set (edge_cat := of_rows (Fe + Fi) _) in Hc.
  assert (num_edges edge_index = E) as HE by (unfold num_edges; by rewrite Hei).
  assert (nrows x_cat = N) as HN
    by (unfold nrows, x_cat, of_rows; simpl; by rewrite length_tab).
  assert (valid_input conv (gat.XTensor x_cat) edge_index edge_cat) as Hvi.
  { assert (shape x_cat = [nrows x_cat; in_features (gat.lin_l conv)] ∧ wf x_cat)
      as Hx.
    { split.
      - rewrite HN, Hinl. apply shape_of_rows_tab.
      - apply wf_of_rows, Forall_tab. intros n Hn.
        rewrite length_app, (row_length h N F) by done.
        rewrite Hlen; [done|]. specialize (Hgraph n Hn). unfold graph_of. lia. }
    split.
    - exact Hx.
    - intros xt [= <-]. exact Hx.
    - rewrite HE. by split.
    - rewrite HE. simpl source. rewrite HN. exact Hsrc.
    - rewrite HE. simpl. rewrite HN. exact Hdst.
    - rewrite HE, Hine. split; [apply shape_of_rows_tab|].
      apply wf_of_rows, Forall_tab. intros e He.
      rewrite length_app, (row_length edge_attr E Fe) by done.
      rewrite Hlen; [done|]. specialize (Hsrc e He).
      pose proof (Hgraph (Z.to_nat (default 0%Z (data edge_index !! e)))
                    ltac:(lia)).
      unfold graph_of, edge_src. lia. }
  destruct (forward_spec conv (gat.XTensor x_cat) edge_index edge_cat None g Hm Hvi)
    as (d & g' & _ & _ & Hf).
  exists (x_cat, edge_cat). eexists _, g'.
  split; [exact Hc|]. split; [exact Hf|]. split; [|apply wf_of_rows_tab].
  unfold output_tensor. rewrite shape_of_rows_tab.
  assert (out_nodes (gat.XTensor x_cat) = N) as ->
    by (unfold out_nodes; simpl; by destruct (decide _)).
  assert (out_width conv = C) as -> by (unfold out_width; by rewrite Hcat).
  done.
Qed.

Lemma broadcast_mismatch (N C F : nat) :
  C ≠ F → C ≠ 1 → F ≠ 1 → broadcast_shapes [N; C] [N; F] = None.
Proof.
  intros HCF HC HF. unfold broadcast_shapes. cbn.
  rewrite decide_True by done. cbn. by rewrite !decide_False by done.
Qed.

(** X24.  The skip connection is a broadcasting sum: when the first
    layer's [out_channels] is neither the width of the hidden state nor 1
    (and the hidden state is wider than 1), the pass raises at [conv_res + h]
    after that layer's attention operator has run. *)
Theorem skip_connection_needs_equal_widths (N F E Fe L B Fi C : nat)
    (x : tensor R) (edge_index : tensor Z) (edge_attr instr_vectors : tensor R)
    (batch : tensor Z) (self : gat_seq.t) (conv : gat.t) (g : rng) :
  valid_inputs 0 N F E Fe L B Fi x edge_index edge_attr instr_vectors batch →
  (∀ e, e < E →
     (0 ≤ default 0 (data edge_index !! (E + e)%nat) < Z.of_nat N)%Z) →
  gat_seq.convs self !! 0 = Some conv →
  valid_module conv → gat.concat conv = false → gat.out_channels conv = C →
  in_features (gat.lin_l conv) = F + Fi →
  in_features (gat.lin_e conv) = Fe + Fi →
  C ≠ F → C ≠ 1 → F ≠ 1 →
  ∃ g',
    gat_seq.forward x edge_index edge_attr instr_vectors batch (self, g)
    = (Raise RuntimeError,
       (gat_seq.mk (<[0 := clear_alpha conv]> (gat_seq.convs self))
          (gat_seq.bns self) (gat_seq.dropout self) (gat_seq.training self), g')).
Proof.
  intros Hv Hdst Hconv Hm Hcat HC Hinl Hine HCF HC1 HF1.
  destruct (conv_on_inputs 0 N F E Fe L B Fi C x edge_index edge_attr
              instr_vectors batch conv g Hv Hdst Hm Hcat HC Hinl Hine)
    as (xe & out & g' & Hc & Hf & Hs & _).
  exists g'. unfold gat_seq.forward. rewrite bind_get. cbn [fst].
  assert (∃ n, length (gat_seq.convs self) = S n) as [n Hn].
  { apply lookup_lt_Some in Hconv. exists (length (gat_seq.convs self) - 1). lia. }
  rewrite Hn. cbn [seq gat_seq.for_each].
  erewrite bind_raise; [done|].
  unfold gat_seq.layer. rewrite bind_get. cbn [fst].
  rewrite Hc, bind_lift_ok.
  erewrite bind_ok; cycle 1.
  { unfold gat_seq.call_conv. rewrite Hconv, Hf. reflexivity. }
  cbn [gat_seq.out_tensor]. unfold add. rewrite Hs.
  destruct Hv as [[Hh _] _ _ _ _ _ _ _]. rewrite Hh.
  rewrite (broadcast_mismatch N C F) by done.
  by rewrite bind_lift_raise.
Qed.

Lemma init_convs (in_channels out_channels edge_attr_dim ins_dim num_ins : nat)
    (p : R) (heads : nat) (ns : R) (bias : bool) (g : rng) :
  gat_seq.convs (gat_seq.__init__ in_channels out_channels edge_attr_dim ins_dim
                   num_ins p heads ns bias g).1
  = (gat_seq.repeatM num_ins
       (gat.__init__ (gat.Int (in_channels + ins_dim)) out_channels
          (edge_attr_dim + ins_dim) heads false ns p true bias) g).1.
Proof.
  unfold gat_seq.__init__, mbind, Gen_bind, mret, Gen_ret.
  by destruct (gat_seq.repeatM _ _ _).
Qed.

Lemma example_stack_3_layer :
  ∃ conv, gat_seq.convs example.stack_3 !! 0 = Some conv
          ∧ valid_module conv ∧ gat.concat conv = false
          ∧ gat.out_channels conv = 3
          ∧ in_features (gat.lin_l conv) = 2 + 3
          ∧ in_features (gat.lin_e conv) = 2 + 3.
Proof.
  unfold example.stack_3. rewrite init_convs.
  destruct (repeatM_Forall
              (λ conv, valid_module conv ∧ gat.concat conv = false
                       ∧ gat.out_channels conv = 3
                       ∧ in_features (gat.lin_l conv) = 2 + 3
                       ∧ in_features (gat.lin_e conv) = 2 + 3)
              (gat.__init__ (gat.Int (2 + 3)) 3 (2 + 3) 4 false (1 / 5) 0 true true)
              1 example.g0) as [Hall Hlen].
  { intros g1.
    destruct (init_valid (gat.Int (2 + 3)) 3 (2 + 3) 4 false (1 / 5) 0 true true g1
                ltac:(lia) ltac:(lra))
      as (Hm & _ & HC & Hcat & _ & _ & _ & _ & Hinl & _ & Hine).
    done. }
  destruct (lookup_lt_is_Some_2 _ 0 ltac:(rewrite Hlen; lia)) as [conv Hconv].
  exists conv. split; [done|].
  exact (proj1 (Forall_lookup _ _) Hall 0 conv Hconv).
Qed.

Lemma skip_connection_needs_equal_widths_witness :
  valid_inputs 0 5 2 3 2 1 2 3 example.hidden example.batch_edges
    example.batch_edge_attr example.instr_vectors example.batch
  ∧ 3 ≠ 2 ∧ 3 ≠ 1 ∧ 2 ≠ 1
  ∧ ∃ st,
      gat_seq.forward example.hidden example.batch_edges example.batch_edge_attr
        example.instr_vectors example.batch (example.stack_3, example.g1)
      = (Raise RuntimeError, st).
Proof.
  split; [exact example_batch_valid|]. split; [lia|]. split; [lia|]. split; [lia|].
  destruct example_stack_3_layer as (conv & Hconv & Hm & Hcat & HC & Hinl & Hine).
  destruct (skip_connection_needs_equal_widths 5 2 3 2 1 2 3 3 example.hidden
              example.batch_edges example.batch_edge_attr example.instr_vectors
              example.batch example.stack_3 conv example.g1 example_batch_valid)
    as [g' Hf]; try (done || lia).
  - intros e He. destruct e as [|[|[|e]]]; simpl; lia.
  - eexists. exact Hf.
Defined.

Lemma getitem_int_out_of_range {A} (t : tensor A) (i : nat) :
  nrows t ≤ i → getitem_int t (Z.of_nat i) = Raise IndexError.
Proof.
  intros Hi. unfold getitem_int, nrows in *.
  destruct (shape t) as [|n s]; [done|]. simpl in Hi.
  unfold norm_index. rewrite !decide_False by lia. done.
Qed.

Lemma layer_without_instruction (Ltot i : nat) (edge_index : tensor Z)
    (edge_attr instr_vectors : tensor R) (batch : tensor Z) (h : tensor R)
    (s : gat_seq.t * rng) :
  nrows instr_vectors ≤ i →
  gat_seq.layer Ltot edge_index edge_attr instr_vectors batch i h s
  = (Raise IndexError, s).
Proof.
  intros Hi. unfold gat_seq.layer. rewrite bind_get.
  unfold gat_seq.concat_inputs. rewrite getitem_int_out_of_range by done.
  by rewrite result_bind_raise, bind_lift_raise.
Qed.

(** X25.  The pass needs one slice of instruction vectors for every
    layer: when [instr_vectors] holds fewer slices than the stack has layers,
    the pass never returns; a layer without instructions raises
    [IndexError] before its attention operator is called. *)
Theorem stack_needs_instructions (x : tensor R) (edge_index : tensor Z)
    (edge_attr instr_vectors : tensor R) (batch : tensor Z)
    (self : gat_seq.t) (g : rng) :
  nrows instr_vectors < length (gat_seq.convs self) →
  (∃ e st, gat_seq.forward x edge_index edge_attr instr_vectors batch (self, g)
           = (Raise e, st))
  ∧ ∀ num_conv_layers i h s,
      nrows instr_vectors ≤ i →
      gat_seq.layer num_conv_layers edge_index edge_attr instr_vectors batch i h s
      = (Raise IndexError, s).
Proof.
  intros Hfew. split; [|intros; by apply layer_without_instruction].
  unfold gat_seq.forward. rewrite bind_get. cbn [fst].
  set (Ltot := length (gat_seq.convs self)) in *.
  set (Li := nrows instr_vectors) in *.
  assert (seq 0 Ltot = seq 0 Li ++ seq Li (Ltot - Li)) as ->
    by (rewrite <-seq_app; f_equal; lia).
  rewrite for_each_app.
  unfold mbind, St_bind.
  destruct (gat_seq.for_each (seq 0 Li) _ x (self, g)) as [[h|e] s1];
    [|by eexists _, _].
  destruct (Ltot - Li) as [|k] eqn:Hk; [lia|].
  cbn [seq gat_seq.for_each]. simpl "+".
  erewrite bind_raise; [by eexists _, _|].
  apply layer_without_instruction. lia.
Qed.

Lemma stack_needs_instructions_witness :
  nrows example.instr_vectors < length (gat_seq.convs example.stack)
  ∧ ∃ e st,
      gat_seq.forward example.hidden example.batch_edges example.batch_edge_attr
        example.instr_vectors example.batch (example.stack, example.stack_rng)
      = (Raise e, st).
Proof.
  assert (nrows example.instr_vectors < length (gat_seq.convs example.stack))
    as Hfew.
  { destruct example_stack_valid as [_ ->]. unfold nrows. simpl. lia. }
  split; [exact Hfew|].
  exact (proj1 (stack_needs_instructions example.hidden example.batch_edges
                  example.batch_edge_attr example.instr_vectors example.batch
                  example.stack example.stack_rng Hfew)).
Defined.

End gat_more.

Module transpose_facts.
Import py misc misc_spec misc_facts.
#[local] Open Scope Z_scope.

(** ** Packed sequences *)

Lemma int64_small (z : Z) : - 2 ^ 63 ≤ z < 2 ^ 63 → np.int64 z = z.
Proof. intros Hz. unfold np.int64. rewrite Z.mod_small; lia. Qed.

Lemma start_S (lengths : list Z) (b : nat) (x : Z) :
  lengths !! b = Some x → start lengths (S b) = start lengths b + x.
Proof. apply total_take_S. Qed.

Lemma start_bound (lengths : list Z) (b : nat) :
  Forall (λ l, 0 ≤ l) lengths → 0 ≤ start lengths b ≤ total lengths.
Proof.
  intros Hpos. unfold start.
  rewrite <-(take_drop b lengths) at 3. rewrite total_app.
  pose proof (total_nonneg (take b lengths) (Forall_take _ _ _ Hpos)).
  pose proof (total_nonneg (drop b lengths) (Forall_drop _ _ _ Hpos)).
  lia.
Qed.

Lemma take_tabulated {A} (l : list A) (f : nat → A) (n : nat) :
  (∀ b, (b < n)%nat → l !! b = Some (f b)) → take n l = map f (seq 0 n).
Proof.
  induction n as [|n IH]; intros Hl; [by rewrite take_0|].
  rewrite (take_S_r _ _ (f n)) by (apply Hl; lia).
  rewrite seq_S, map_app, IH by (intros; apply Hl; lia). done.
Qed.

Lemma cumsum_from_starts (lengths : list Z) (acc : Z) :
  Forall (λ l, 0 ≤ l) lengths → 0 ≤ acc → acc + total lengths < 2 ^ 63 →
  np.cumsum_from acc lengths
  = map (λ b, acc + start lengths (S b)) (seq 0 (length lengths)).
Proof.
  revert acc. induction lengths as [|x ls IH]; intros acc Hpos Hacc Hsum; [done|].
  apply Forall_cons in Hpos as [Hx Hls].
  pose proof (total_nonneg ls Hls) as Htot.
  change (total (x :: ls)) with (x + total ls) in Hsum.
  simpl. rewrite int64_small by lia. f_equal.
  - unfold start. simpl. lia.
  - rewrite IH by (done || lia). rewrite <-seq_shift, map_map.
    apply map_ext. intros b. unfold start. simpl. lia.
Qed.

Lemma cumsum_starts (lengths : list Z) :
  Forall (λ l, 0 ≤ l) lengths → total lengths < 2 ^ 63 →
  np.cumsum ([0] ++ lengths) = map (start lengths) (seq 0 (S (length lengths))).
Proof.
  intros Hpos Hsum. unfold np.cumsum. simpl.
  rewrite int64_small by lia. f_equal.
  rewrite cumsum_from_starts by (done || lia).
  rewrite <-seq_shift, map_map. apply map_ext. intros b. lia.
Qed.

Lemma descending_le (l : list Z) (b b' : nat) (x y : Z) :
  descending l → (b ≤ b')%nat → l !! b = Some x → l !! b' = Some y → y ≤ x.
Proof.
  intros Hd Hle Hx. revert y. induction Hle as [|c Hle IH]; intros y Hy.
  - naive_solver lia.
  - destruct (lookup_lt_is_Some_2 l c) as [z Hz].
    { apply lookup_lt_Some in Hy. lia. }
    specialize (IH z Hz). specialize (Hd c z y Hz Hy). lia.
Qed.

Lemma lower_pointer_spec (lengths : list Z) (i : Z) (p : nat) :
  (lower_pointer lengths i p ≤ p)%nat
  ∧ (lower_pointer lengths i p = 0%nat ∨ i < lengths !!! lower_pointer lengths i p)
  ∧ ∀ b, (lower_pointer lengths i p < b ≤ p)%nat → lengths !!! b ≤ i.
Proof.
  induction p as [|p (IH1 & IH2 & IH3)]; [simpl; split_and!; [lia|by left|lia]|].
  simpl. case_decide as Hle.
  - split_and!; [lia|done|]. intros b Hb.
    destruct (decide (b = S p)) as [->|]; [done|]. apply IH3. lia.
  - split_and!; [lia|right; lia|lia].
Qed.

Lemma longer_threshold (lengths : list Z) (i : Z) (n : nat) :
  (∀ b x, lengths !! b = Some x → i < x ↔ (b < n)%nat) →
  (n ≤ length lengths)%nat → longer lengths i = n.
Proof.
  unfold longer. revert n. induction lengths as [|x ls IH]; intros n Hn Hlen.
  { simpl in *. lia. }
  rewrite filter_cons. pose proof (Hn 0%nat x eq_refl) as H0.
  case_decide as Hx.
  - destruct n as [|n]; [lia|]. simpl. f_equal. apply IH; [|simpl in Hlen; lia].
    intros b y Hy. rewrite (Hn (S b) y Hy). lia.
  - destruct n as [|n].
    + apply IH; [|lia]. intros b y Hy. rewrite (Hn (S b) y Hy). lia.
    + lia.
Qed.

Lemma lower_pointer_longer (lengths : list Z) (l0 i : Z) (p : nat) :
  descending lengths → lengths !! 0%nat = Some l0 → i < l0 →
  (p < length lengths)%nat →
  (∀ b, (p < b < length lengths)%nat → lengths !!! b ≤ i) →
  S (lower_pointer lengths i p) = longer lengths i.
Proof.
  intros Hd H0 Hi Hp Hafter.
  destruct (lower_pointer_spec lengths i p) as (Hq1 & Hq2 & Hq3).
  set (q := lower_pointer lengths i p) in *.
  symmetry. apply longer_threshold; [|lia].
  intros b x Hx. pose proof (lookup_lt_Some _ _ _ Hx) as Hb.
  pose proof (list_lookup_total_correct _ _ _ Hx) as Hx'.
  split.
  - intros Hix. destruct (decide (b ≤ q)%nat); [lia|].
    destruct (decide (b ≤ p)%nat).
    + specialize (Hq3 b). lia.
    + specialize (Hafter b). lia.
  - intros Hbq. destruct Hq2 as [Hq2|Hq2].
    + assert (b = 0%nat) as -> by lia. naive_solver lia.
    + destruct (lookup_lt_is_Some_2 lengths q) as [y Hy]; [lia|].
      rewrite (list_lookup_total_correct _ _ _ Hy) in Hq2.
      pose proof (descending_le lengths b q x y Hd ltac:(lia) Hx Hy). lia.
Qed.

Lemma longer_reaches (lengths : list Z) (i : Z) (b : nat) (x : Z) :
  descending lengths → lengths !! b = Some x →
  (b < longer lengths i)%nat ↔ i < x.
Proof.
  intros Hd Hx. unfold longer.
  revert b x Hx. induction lengths as [|y ls IH]; intros b x Hx; [done|].
  assert (descending ls) as Hd'.
  { intros c u v Hu Hv. exact (Hd (S c) u v Hu Hv). }
  rewrite filter_cons. destruct b as [|b]; simpl in Hx.
  - injection Hx as ->. case_decide as Hi; simpl; [lia|].
    split; [|lia]. intros Hlt.
    destruct (filter (λ l, i < l) ls) as [|z zs] eqn:Hf; [simpl in Hlt; lia|].
    assert (z ∈ filter (λ l, i < l) ls) as Hz by (rewrite Hf; left).
    apply list_elem_of_filter in Hz as [Hz1 Hz2].
    apply list_elem_of_lookup_1 in Hz2 as [c Hc].
    pose proof (descending_le (x :: ls) 0 (S c) x z Hd ltac:(lia) eq_refl Hc). lia.
  - case_decide as Hi; simpl.
    + rewrite <-(IH Hd' b x Hx). lia.
    + pose proof (descending_le (y :: ls) 0 (S b) y x Hd ltac:(lia) eq_refl Hx).
      split; [intros Hlt; apply (IH Hd' b x Hx); lia|lia].
Qed.

(** The entries that the loop collects at step [i], and all of them. *)
Lemma transpose_loop_value (lengths : list Z) (l0 : Z) (n : nat) :
  descending lengths → Forall (λ l, 0 ≤ l) lengths → total lengths < 2 ^ 63 →
  lengths !! 0%nat = Some l0 →
  ∀ (i0 : nat) (cum_add : list Z) (p : nat),
    Z.of_nat (i0 + n) ≤ l0 → (p < length lengths)%nat →
    (∀ b, (p < b < length lengths)%nat → lengths !!! b ≤ Z.of_nat i0) →
    (∀ b, (b ≤ p)%nat → cum_add !! b = Some (start lengths b + Z.of_nat i0)) →
    transpose_loop lengths (map Z.of_nat (seq i0 n)) cum_add p
    = (map (λ i, map (λ b, start lengths b + i) (seq 0 (longer lengths i)))
         (map Z.of_nat (seq i0 n)),
       map (λ i, Z.of_nat (longer lengths i)) (map Z.of_nat (seq i0 n))).
Proof.
  intros Hd Hpos Hsum H0.
  induction n as [|n IH]; intros i0 cum_add p Hn Hp Hafter Hcum; [done|].
  pose proof (lower_pointer_longer lengths l0 (Z.of_nat i0) p Hd H0
                ltac:(lia) Hp Hafter) as Hq.
  destruct (lower_pointer_spec lengths (Z.of_nat i0) p) as (Hq1 & _ & Hq3).
  cbn [seq map transpose_loop].
  set (q := lower_pointer lengths (Z.of_nat i0) p) in *.
  replace (q + 1)%nat with (S q) by lia.
  rewrite (IH (S i0)); [| lia | lia | |].
  - cbn [fst snd]. rewrite <-Hq. f_equal. f_equal.
    apply take_tabulated. intros b Hb. apply Hcum. lia.
  - intros b Hb. destruct (decide (b ≤ p)%nat).
    + specialize (Hq3 b). lia.
    + specialize (Hafter b). lia.
  - intros b Hb.
    rewrite lookup_app_l by (rewrite length_map, length_take;
      pose proof (lookup_lt_Some _ _ _ (Hcum p ltac:(lia))); lia).
    rewrite list_lookup_fmap, lookup_take_lt by lia.
    rewrite (Hcum b) by lia. simpl. f_equal.
    destruct (lookup_lt_is_Some_2 lengths b) as [x Hx]; [lia|].
    pose proof (proj1 (longer_reaches lengths (Z.of_nat i0) b x Hd Hx)
                  ltac:(lia)) as Hix.
    pose proof (start_bound lengths b Hpos).
    pose proof (start_bound lengths (S b) Hpos).
    rewrite (start_S lengths b x Hx) in *.
    rewrite int64_small by lia. lia.
Qed.

Lemma seqZ_of_nat (n : Z) : seqZ 0 n = map Z.of_nat (seq 0 (Z.to_nat n)).
Proof. unfold seqZ. apply map_ext. intros k. lia. Qed.

Lemma range_steps (n : Z) : range 0 n 1 = Return (seqZ 0 n).
Proof.
  unfold range. rewrite decide_False by lia. f_equal.
  rewrite seqZ_of_nat.
  assert (Z.to_nat (range_len 0 n 1) = Z.to_nat n) as ->.
  { unfold range_len. rewrite decide_True by lia. case_decide; [|lia].
    rewrite Z.div_1_r. lia. }
  apply map_ext. intros k. lia.
Qed.

(** What the call returns for sequences in decreasing order of length. *)
Lemma transpose_value (lengths : list Z) (l0 : Z) :
  descending lengths → Forall (λ l, 0 ≤ l) lengths → total lengths < 2 ^ 63 →
  lengths !! 0%nat = Some l0 → 0 < l0 →
  transpose_packed_sequence_inds lengths
  = Return (concat (map (λ i, map (λ b, start lengths b + i)
                                (seq 0 (longer lengths i))) (seqZ 0 l0)),
            map (λ i, Z.of_nat (longer lengths i)) (seqZ 0 l0)).
Proof.
  intros Hd Hpos Hsum H0 Hl0. unfold transpose_packed_sequence_inds.
  assert (getitem lengths 0 = Return l0) as ->.
  { unfold getitem. rewrite decide_True by lia.
    change (Z.to_nat 0) with 0%nat. by rewrite H0. }
  cbn [mbind outcome_bind]. rewrite range_steps. cbn [mbind outcome_bind].
  rewrite seqZ_of_nat.
  pose proof (lookup_lt_Some _ _ _ H0) as Hlen.
  rewrite (transpose_loop_value lengths l0 (Z.to_nat l0) Hd Hpos Hsum H0);
    [| lia | lia | lia |].
  - cbn [fst snd].
    destruct (Z.to_nat l0) as [|m] eqn:Hm; [lia|]. done.
  - intros b Hb. rewrite cumsum_starts by done.
    change (map (start lengths) (seq 0 (S (length lengths))) !! b)
      with ((start lengths <$> seq 0 (S (length lengths))) !! b).
    rewrite list_lookup_fmap, lookup_seq_lt by lia. simpl. f_equal. lia.
Qed.

(** X26 ([transpose_packed_sequence_inds]): for sequences in decreasing
    order of length, the first of which is not empty, step [i] of the
    result lists the sequences that are longer than [i]: [new_lens] holds
    their number, and [new_inds] holds, for each of them in turn, the
    position of its item [i] in the layout that puts whole sequences one
    after the other. *)
Theorem transpose_packed_sequence_inds_steps (lengths : list Z) (l0 : Z) :
  descending lengths → Forall (λ l, 0 ≤ l) lengths → total lengths < 2 ^ 63 →
  lengths !! 0%nat = Some l0 → 0 < l0 →
  transpose_packed_sequence_inds lengths
  = Return (concat (map (λ i, map (λ b, start lengths b + i)
                                (seq 0 (longer lengths i))) (seqZ 0 l0)),
            map (λ i, Z.of_nat (longer lengths i)) (seqZ 0 l0)).
Proof. apply transpose_value. Qed.

Lemma descending_3_2_2 : descending [3; 2; 2].
Proof.
  intros b x y Hx Hy.
  destruct b as [|[|[|b]]]; simpl in Hx, Hy; simplify_eq; lia.
Qed.

Lemma transpose_packed_sequence_inds_steps_witness :
  transpose_packed_sequence_inds [3; 2; 2]
  = Return ([0; 3; 5; 1; 4; 6; 2], [3; 3; 1]).
Proof.
  rewrite (transpose_packed_sequence_inds_steps [3; 2; 2] 3).
  - reflexivity.
  - exact descending_3_2_2.
  - repeat constructor; lia.
  - reflexivity.
  - reflexivity.
  - lia.
Defined.

(** ** The result as a rearrangement *)

Lemma perm_of_eq {A} (l k : list A) : l = k → l ≡ₚ k.
Proof. by intros ->. Qed.

Lemma concat_map_nil {A B} (l : list A) :
  concat (map (λ _, @nil B) l) = [].
Proof. by induction l. Qed.

Lemma concat_map_app_perm {A B} (g h : A → list B) (l : list A) :
  concat (map g l) ++ concat (map h l) ≡ₚ concat (map (λ b, g b ++ h b) l).
Proof.
  induction l as [|b l IH]; [done|]. simpl. rewrite <-IH, <-!app_assoc.
  f_equiv. apply Permutation_app_swap_app.
Qed.

Lemma concat_map_swap {A B C} (f : A → B → list C) (l1 : list A) (l2 : list B) :
  concat (map (λ a, concat (map (f a) l2)) l1)
  ≡ₚ concat (map (λ b, concat (map (λ a, f a b) l1)) l2).
Proof.
  induction l1 as [|a l1 IH]; simpl.
  - by rewrite concat_map_nil.
  - rewrite IH. apply concat_map_app_perm.
Qed.

Lemma concat_map_singletons {A B} (P : A → Prop) `{∀ a, Decision (P a)}
    (g : A → B) (l : list A) :
  concat (map (λ a, if decide (P a) then [g a] else []) l) = map g (filter P l).
Proof.
  induction l as [|a l IH]; [done|]. simpl. rewrite filter_cons, IH.
  by case_decide.
Qed.

Lemma filter_seq_threshold (P : nat → Prop) `{∀ b, Decision (P b)} (n len : nat) :
  (n ≤ len)%nat → (∀ b, (b < len)%nat → P b ↔ (b < n)%nat) →
  filter P (seq 0 len) = seq 0 n.
Proof.
  revert n. induction len as [|m IH]; intros n Hn HP.
  { by assert (n = 0%nat) as -> by lia. }
  rewrite seq_S, filter_app. simpl. rewrite filter_cons, filter_nil.
  pose proof (HP m ltac:(lia)) as Hm.
  destruct (decide (n ≤ m)%nat).
  - rewrite decide_False by (rewrite Hm; lia).
    rewrite (IH n) by (lia || (intros; apply HP; lia)). by rewrite app_nil_r.
  - assert (n = S m) as -> by lia.
    rewrite decide_True by (rewrite Hm; lia).
    rewrite (IH m) by (lia || (intros b Hb; rewrite (HP b); lia)).
    by rewrite seq_S.
Qed.

Lemma longer_le (lengths : list Z) (i : Z) :
  (longer lengths i ≤ length lengths)%nat.
Proof. apply length_filter. Qed.

(** The sequences one after the other fill the positions below the
    total. *)
Lemma blocks_fill (lengths : list Z) (s : Z) :
  Forall (λ l, 0 ≤ l) lengths →
  concat (map (λ b, map (λ i : nat, s + start lengths b + Z.of_nat i)
                      (seq 0 (Z.to_nat (lengths !!! b))))
            (seq 0 (length lengths)))
  = seqZ s (total lengths).
Proof.
  revert s. induction lengths as [|x ls IH]; intros s Hpos; [done|].
  apply Forall_cons in Hpos as [Hx Hls].
  pose proof (total_nonneg ls Hls) as Htot.
  change (total (x :: ls)) with (x + total ls).
  rewrite seqZ_app by lia. cbn [length seq map concat]. f_equal.
  - unfold seqZ. apply map_ext. intros k. unfold start. simpl. lia.
  - rewrite <-(IH (s + x) Hls), <-seq_shift, map_map. f_equal.
    apply map_ext. intros b. apply map_ext. intros k. unfold start. simpl. lia.
Qed.

Lemma transposed_positions (lengths : list Z) (l0 : Z) :
  descending lengths → Forall (λ l, 0 ≤ l) lengths →
  lengths !! 0%nat = Some l0 →
  concat (map (λ i, map (λ b, start lengths b + i) (seq 0 (longer lengths i)))
            (seqZ 0 l0))
  ≡ₚ seqZ 0 (total lengths).
Proof.
  intros Hd Hpos H0.
  set (f := λ (i b : nat),
         if decide (Z.of_nat i < lengths !!! b)
         then [start lengths b + Z.of_nat i] else []).
  rewrite seqZ_of_nat, map_map.
  transitivity (concat (map (λ i, concat (map (f i) (seq 0 (length lengths))))
                          (seq 0 (Z.to_nat l0)))).
  { apply perm_of_eq. f_equal. apply map_ext. intros i. unfold f.
    rewrite (concat_map_singletons (λ b, Z.of_nat i < lengths !!! b)).
    f_equal. symmetry. apply filter_seq_threshold; [apply longer_le|].
    intros b Hb. destruct (lookup_lt_is_Some_2 lengths b Hb) as [x Hx].
    rewrite (list_lookup_total_correct _ _ _ Hx).
    by rewrite (longer_reaches lengths (Z.of_nat i) b x Hd Hx). }
  rewrite concat_map_swap, <-(blocks_fill lengths 0 Hpos).
  apply perm_of_eq. f_equal. apply map_ext_in. intros b Hb.
  apply in_seq in Hb.
  destruct (lookup_lt_is_Some_2 lengths b) as [x Hx]; [lia|].
  rewrite (list_lookup_total_correct _ _ _ Hx). unfold f.
  rewrite (list_lookup_total_correct _ _ _ Hx).
  rewrite (concat_map_singletons (λ i : nat, Z.of_nat i < x)
             (λ i : nat, start lengths b + Z.of_nat i)).
  assert (0 ≤ x) by (by eapply (Forall_lookup_1 _ _ _ _ Hpos)).
  pose proof (descending_le lengths 0 b l0 x Hd ltac:(lia) H0 Hx).
  rewrite (filter_seq_threshold _ (Z.to_nat x)) by (intros; lia).
  apply map_ext. intros k. lia.
Qed.

Lemma length_concat_steps {A} (h : Z → nat → A) (n : Z → nat) (steps : list Z) :
  Z.of_nat (length (concat (map (λ i, map (h i) (seq 0 (n i))) steps)))
  = total (map (λ i, Z.of_nat (n i)) steps).
Proof.
  induction steps as [|i steps IH]; [done|]. simpl.
  rewrite length_app, length_map, length_seq. lia.
Qed.

Lemma transposed_total (lengths : list Z) (l0 : Z) :
  descending lengths → Forall (λ l, 0 ≤ l) lengths →
  lengths !! 0%nat = Some l0 →
  total (map (λ i, Z.of_nat (longer lengths i)) (seqZ 0 l0)) = total lengths.
Proof.
  intros Hd Hpos H0.
  rewrite <-(length_concat_steps (λ i b, start lengths b + i)).
  rewrite (Permutation_length (transposed_positions lengths l0 Hd Hpos H0)).
  rewrite length_seqZ. pose proof (total_nonneg lengths Hpos). lia.
Qed.

(** X27 ([transpose_packed_sequence_inds]): for sequences in decreasing
    order of length, [new_inds] is a rearrangement of the positions
    [0], ..., [sum(lengths) - 1]: every item of every sequence is listed
    exactly once.  [new_lens] has one entry for each step below the
    greatest length, and its sum is the sum of [lengths]. *)
Theorem transpose_packed_sequence_inds_rearranges (lengths : list Z) (l0 : Z) :
  descending lengths → Forall (λ l, 0 ≤ l) lengths → total lengths < 2 ^ 63 →
  lengths !! 0%nat = Some l0 → 0 < l0 →
  ∃ new_inds new_lens,
    transpose_packed_sequence_inds lengths = Return (new_inds, new_lens)
    ∧ new_inds ≡ₚ seqZ 0 (total lengths)
    ∧ length new_lens = Z.to_nat l0
    ∧ total new_lens = total lengths.
Proof.
  intros Hd Hpos Hsum H0 Hl0. eexists _, _.
  split; [by apply (transpose_value lengths l0)|]. split_and!.
  - by apply transposed_positions.
  - by rewrite length_map, length_seqZ.
  - by apply transposed_total.
Qed.

Lemma transpose_packed_sequence_inds_rearranges_witness :
  ∃ new_inds new_lens,
    transpose_packed_sequence_inds [3; 2; 2] = Return (new_inds, new_lens)
    ∧ new_inds ≡ₚ seqZ 0 (total [3; 2; 2])
    ∧ length new_lens = Z.to_nat 3
    ∧ total new_lens = total [3; 2; 2].
Proof.
  apply (transpose_packed_sequence_inds_rearranges [3; 2; 2] 3).
  - exact descending_3_2_2.
  - repeat constructor; lia.
  - reflexivity.
  - reflexivity.
  - lia.
Defined.

(** ** Transposing twice *)

Lemma lookup_concat_map {A B} (g : A → list B) (l : list A) (k : nat) (a : A)
    (b : nat) (x : B) :
  l !! k = Some a → g a !! b = Some x →
  concat (map g l) !! (length (concat (map g (take k l))) + b)%nat = Some x.
Proof.
  intros Ha Hx.
  assert (concat (map g l)
          = concat (map g (take k l)) ++ concat (map g (a :: drop (S k) l))) as ->.
  { rewrite <-concat_app, <-map_app. by rewrite take_drop_middle. }
  rewrite lookup_app_r by lia.
  replace (length (concat (map g (take k l))) + b
           - length (concat (map g (take k l))))%nat with b by lia.
  simpl. rewrite lookup_app_l by (by eapply lookup_lt_Some). done.
Qed.

Lemma take_steps (l0 : Z) (i : nat) :
  Z.of_nat i ≤ l0 → take i (seqZ 0 l0) = seqZ 0 (Z.of_nat i).
Proof.
  intros Hi. rewrite !seqZ_of_nat.
  change (take i (Z.of_nat <$> seq 0 (Z.to_nat l0))
          = Z.of_nat <$> seq 0 (Z.to_nat (Z.of_nat i))).
  rewrite <-fmap_take, take_seq. do 2 f_equal. lia.
Qed.

Lemma lookup_steps (l0 : Z) (i : nat) :
  Z.of_nat i < l0 → seqZ 0 l0 !! i = Some (Z.of_nat i).
Proof.
  intros Hi. rewrite seqZ_of_nat.
  change ((Z.of_nat <$> seq 0 (Z.to_nat l0)) !! i = Some (Z.of_nat i)).
  rewrite list_lookup_fmap, lookup_seq_lt by lia. done.
Qed.

Lemma start_steps (lengths : list Z) (l0 : Z) (i : nat) :
  Z.of_nat i ≤ l0 →
  start (map (λ i, Z.of_nat (longer lengths i)) (seqZ 0 l0)) i
  = Z.of_nat (length (concat (map (λ i, map (λ b, start lengths b + i)
                                          (seq 0 (longer lengths i)))
                                (take i (seqZ 0 l0))))).
Proof.
  intros Hi. rewrite length_concat_steps. unfold start. f_equal.
  change (take i ((λ i, Z.of_nat (longer lengths i)) <$> seqZ 0 l0)
          = (λ i, Z.of_nat (longer lengths i)) <$> take i (seqZ 0 l0)).
  by rewrite fmap_take.
Qed.

(** Item [i] of sequence [b] in the result. *)
Lemma transposed_lookup (lengths : list Z) (l0 : Z) (b i : nat) (x : Z) :
  descending lengths → lengths !! 0%nat = Some l0 →
  lengths !! b = Some x → Z.of_nat i < x →
  concat (map (λ i, map (λ b, start lengths b + i) (seq 0 (longer lengths i)))
            (seqZ 0 l0))
    !! Z.to_nat (start (map (λ i, Z.of_nat (longer lengths i)) (seqZ 0 l0)) i
                 + Z.of_nat b)
  = Some (start lengths b + Z.of_nat i).
Proof.
  intros Hd H0 Hx Hi.
  pose proof (descending_le lengths 0 b l0 x Hd ltac:(lia) H0 Hx) as Hxl.
  rewrite start_steps by lia. rewrite <-Nat2Z.inj_add, Nat2Z.id.
  apply (lookup_concat_map _ _ _ (Z.of_nat i)); [apply lookup_steps; lia|].
  change ((λ b, start lengths b + Z.of_nat i)
            <$> seq 0 (longer lengths (Z.of_nat i))) with
    (map (λ b, start lengths b + Z.of_nat i) (seq 0 (longer lengths (Z.of_nat i)))).
  change (((λ b, start lengths b + Z.of_nat i)
             <$> seq 0 (longer lengths (Z.of_nat i))) !! b
          = Some (start lengths b + Z.of_nat i)).
  rewrite list_lookup_fmap, lookup_seq_lt;
    [done|by apply (longer_reaches lengths (Z.of_nat i) b x)].
Qed.

Lemma longer_antitone (lengths : list Z) (i i' : Z) :
  i ≤ i' → (longer lengths i' ≤ longer lengths i)%nat.
Proof.
  intros Hi. unfold longer. induction lengths as [|x ls IH]; [done|].
  rewrite !filter_cons. repeat case_decide; simpl; lia.
Qed.

Lemma longer_all (lengths : list Z) :
  Forall (λ l, 0 < l) lengths → longer lengths 0 = length lengths.
Proof.
  unfold longer. induction 1 as [|x ls Hx _ IH]; [done|].
  rewrite filter_cons, decide_True by done. simpl. by rewrite IH.
Qed.

Lemma length_filter_map {A} (P : Z → Prop) `{∀ z, Decision (P z)}
    (h : A → Z) (l : list A) :
  length (filter P (map h l)) = length (filter (λ a, P (h a)) l).
Proof.
  induction l as [|a l IH]; [done|]. simpl. rewrite !filter_cons.
  case_decide; simpl; by rewrite IH.
Qed.

(** The number of steps that sequence [b] takes part in is its length. *)
Lemma longer_steps (lengths : list Z) (l0 : Z) (b : nat) (x : Z) :
  descending lengths → lengths !! 0%nat = Some l0 →
  lengths !! b = Some x → 0 ≤ x →
  Z.of_nat (longer (map (λ i, Z.of_nat (longer lengths i)) (seqZ 0 l0))
              (Z.of_nat b)) = x.
Proof.
  intros Hd H0 Hx Hpos.
  pose proof (descending_le lengths 0 b l0 x Hd ltac:(lia) H0 Hx) as Hxl.
  unfold longer at 1. rewrite seqZ_of_nat, map_map.
  rewrite (length_filter_map (λ m, Z.of_nat b < m)).
  rewrite (filter_seq_threshold _ (Z.to_nat x)), length_seq; [lia|lia|].
  intros i Hi. cbn beta.
  rewrite <-Nat2Z.inj_lt, (longer_reaches lengths (Z.of_nat i) b x Hd Hx). lia.
Qed.

(** The lengths of the steps can be transposed in turn. *)
Lemma steps_descending (lengths : list Z) (l0 : Z) :
  descending (map (λ i, Z.of_nat (longer lengths i)) (seqZ 0 l0)).
Proof.
  intros k x y.
  change (((λ i, Z.of_nat (longer lengths i)) <$> seqZ 0 l0) !! k = Some x →
          ((λ i, Z.of_nat (longer lengths i)) <$> seqZ 0 l0) !! S k = Some y →
          y ≤ x).
  rewrite !list_lookup_fmap. intros Hx Hy.
  destruct (seqZ 0 l0 !! k) as [i|] eqn:Hi; [|done].
  destruct (seqZ 0 l0 !! S k) as [i'|] eqn:Hi'; [|done].
  simpl in Hx, Hy. simplify_eq.
  apply lookup_seqZ in Hi as [-> _]. apply lookup_seqZ in Hi' as [-> _].
  apply Nat2Z.inj_le, longer_antitone. lia.
Qed.

Lemma steps_back (lengths : list Z) (l0 : Z) :
  descending lengths → Forall (λ l, 0 < l) lengths →
  lengths !! 0%nat = Some l0 →
  map (λ b, Z.of_nat (longer (map (λ i, Z.of_nat (longer lengths i))
                                 (seqZ 0 l0)) b))
    (seqZ 0 (Z.of_nat (length lengths)))
  = lengths.
Proof.
  intros Hd Hpos H0.
  rewrite (seqZ_of_nat (Z.of_nat (length lengths))), map_map, Nat2Z.id.
  apply list_eq. intros b.
  change (((λ b : nat, Z.of_nat (longer (map (λ i, Z.of_nat (longer lengths i))
                                         (seqZ 0 l0)) (Z.of_nat b)))
             <$> seq 0 (length lengths)) !! b = lengths !! b).
  rewrite list_lookup_fmap.
  destruct (lengths !! b) as [x|] eqn:Hx.
  - rewrite lookup_seq_lt by (by eapply lookup_lt_Some). simpl. f_equal.
    apply (longer_steps lengths l0 b x Hd H0 Hx).
    pose proof (Forall_lookup_1 _ _ _ _ Hpos Hx) as Hx'. simpl in Hx'. lia.
  - rewrite lookup_seq_ge by (by apply lookup_ge_None). done.
Qed.

(** X28 ([transpose_packed_sequence_inds]): for sequences of positive
    lengths in decreasing order, [new_lens] can be transposed in turn,
    and this gives [lengths] back.  The two index arrays are inverse to
    each other: item [i] of sequence [b] is at position
    [sum(new_lens[:i]) + b] of the first and holds
    [sum(lengths[:b]) + i], and in the second it is the other way
    round. *)
Theorem transpose_packed_sequence_inds_twice (lengths : list Z) (l0 : Z) :
  descending lengths → Forall (λ l, 0 < l) lengths → total lengths < 2 ^ 63 →
  lengths !! 0%nat = Some l0 →
  ∃ new_inds new_lens back_inds,
    transpose_packed_sequence_inds lengths = Return (new_inds, new_lens)
    ∧ transpose_packed_sequence_inds new_lens = Return (back_inds, lengths)
    ∧ ∀ (b i : nat) (x : Z),
        lengths !! b = Some x → Z.of_nat i < x →
        new_inds !! Z.to_nat (start new_lens i + Z.of_nat b)
        = Some (start lengths b + Z.of_nat i)
        ∧ back_inds !! Z.to_nat (start lengths b + Z.of_nat i)
          = Some (start new_lens i + Z.of_nat b).
Proof.
  intros Hd Hpos Hsum H0.
  assert (Forall (λ l, 0 ≤ l) lengths) as Hnn.
  { eapply Forall_impl; [exact Hpos|]. simpl. lia. }
  assert (0 < l0) as Hl0 by exact (Forall_lookup_1 _ _ _ _ Hpos H0).
  pose proof (lookup_lt_Some _ _ _ H0) as Hlen.
  set (new_lens := map (λ i, Z.of_nat (longer lengths i)) (seqZ 0 l0)).
  assert (new_lens !! 0%nat = Some (Z.of_nat (length lengths))) as Hm0.
  { unfold new_lens. rewrite seqZ_cons by lia. simpl.
    by rewrite (longer_all lengths Hpos). }
  pose proof (steps_descending lengths l0) as Hmd. fold new_lens in Hmd.
  pose proof (transpose_value new_lens (Z.of_nat (length lengths)) Hmd) as Hback.
  pose proof (steps_back lengths l0 Hd Hpos H0) as Hsb. fold new_lens in Hsb.
  rewrite Hsb in Hback.
  eexists _, new_lens, _. split; [by apply (transpose_value lengths l0)|].
  split.
  - apply Hback; [| |done|lia].
    + unfold new_lens.
      change (Forall (λ l, 0 ≤ l)
                ((λ i, Z.of_nat (longer lengths i)) <$> seqZ 0 l0)).
      apply Forall_fmap, Forall_forall. intros i _. simpl. lia.
    + unfold new_lens. by rewrite (transposed_total lengths l0 Hd Hnn H0).
  - intros b i x Hx Hi. split.
    + by apply (transposed_lookup lengths l0 b i x).
    + pose proof (descending_le lengths 0 b l0 x Hd ltac:(lia) H0 Hx) as Hxl.
      pose proof (transposed_lookup new_lens (Z.of_nat (length lengths)) i b
                    (Z.of_nat (longer lengths (Z.of_nat i))) Hmd Hm0) as Hlk.
      rewrite Hsb in Hlk.
      apply Hlk.
      * unfold new_lens.
        change (((λ i, Z.of_nat (longer lengths i)) <$> seqZ 0 l0) !! i
                = Some (Z.of_nat (longer lengths (Z.of_nat i)))).
        by rewrite list_lookup_fmap, lookup_steps by lia.
      * apply Nat2Z.inj_lt.
        by apply (longer_reaches lengths (Z.of_nat i) b x).
Qed.

Lemma transpose_packed_sequence_inds_twice_witness :
  ∃ new_inds new_lens back_inds,
    transpose_packed_sequence_inds [3; 2; 2] = Return (new_inds, new_lens)
    ∧ transpose_packed_sequence_inds new_lens = Return (back_inds, [3; 2; 2])
    ∧ ∀ (b i : nat) (x : Z),
        [3; 2; 2] !! b = Some x → Z.of_nat i < x →
        new_inds !! Z.to_nat (start new_lens i + Z.of_nat b)
        = Some (start [3; 2; 2] b + Z.of_nat i)
        ∧ back_inds !! Z.to_nat (start [3; 2; 2] b + Z.of_nat i)
          = Some (start new_lens i + Z.of_nat b).
Proof.
  apply (transpose_packed_sequence_inds_twice [3; 2; 2] 3).
  - exact descending_3_2_2.
  - repeat constructor; lia.
  - reflexivity.
  - reflexivity.
Defined.

End transpose_facts.

Module array_facts.
Import py misc misc_spec.

(** ** Grids of items *)

Lemma length_bind_uniform {A} (g : nat → list A) (n s m : nat) :
  (∀ i, length (g i) = n) → length (seq s m ≫= g) = (m * n)%nat.
Proof.
  intros Hg. revert s. induction m as [|m IH]; intros s; [done|].
  cbn [seq]. rewrite bind_cons, length_app, Hg, IH. lia.
Qed.

Lemma lookup_bind_uniform {A} (g : nat → list A) (n m i j : nat) :
  (∀ i, length (g i) = n) → (i < m)%nat → (j < n)%nat →
  (seq 0 m ≫= g) !! (i * n + j)%nat = g i !! j.
Proof.
  intros Hg Hi Hj.
  assert (seq 0 m = seq 0 i ++ i :: seq (S i) (m - S i)) as ->.
  { transitivity (seq 0 (i + S (m - S i))); [f_equal; lia|].
    by rewrite seq_app. }
  rewrite bind_app, bind_cons.
  rewrite lookup_app_r; rewrite (length_bind_uniform g n) by done; [|lia].
  replace (i * n + j - i * n)%nat with j by lia.
  by rewrite lookup_app_l by (rewrite Hg; lia).
Qed.

Lemma bind_singletons {A B} (g : A → B) (l : list A) :
  l ≫= (λ a, [g a]) = g <$> l.
Proof. induction l as [|a l IH]; [done|]. by rewrite bind_cons, IH. Qed.

Lemma lookup_grid2 {A} (f : nat → nat → A) (m n i j : nat) :
  (i < m)%nat → (j < n)%nat →
  (i ← seq 0 m; j ← seq 0 n; [f i j]) !! (i * n + j)%nat = Some (f i j).
Proof.
  intros Hi Hj.
  rewrite (lookup_bind_uniform _ n) by
    (done || (intros; rewrite (length_bind_uniform _ 1); [lia|done])).
  by rewrite bind_singletons, list_lookup_fmap, lookup_seq_lt.
Qed.

Lemma length_grid2 {A} (f : nat → nat → A) (m n : nat) :
  length (i ← seq 0 m; j ← seq 0 n; [f i j]) = (m * n)%nat.
Proof.
  apply length_bind_uniform. intros i.
  rewrite (length_bind_uniform _ 1); [lia|done].
Qed.

Lemma lookup_grid3 {A} (f : nat → nat → nat → A) (d1 d2 d3 i k j : nat) :
  (i < d1)%nat → (k < d2)%nat → (j < d3)%nat →
  (i ← seq 0 d1; k ← seq 0 d2; j ← seq 0 d3; [f i k j])
    !! ((i * d2 + k) * d3 + j)%nat
  = Some (f i k j).
Proof.
  intros Hi Hk Hj.
  replace ((i * d2 + k) * d3 + j)%nat with (i * (d2 * d3) + (k * d3 + j))%nat
    by lia.
  rewrite (lookup_bind_uniform _ (d2 * d3)); [|intros; apply length_grid2|done|nia].
  by apply lookup_grid2.
Qed.

Lemma stretch_in_range (d i : nat) : (i < d)%nat → np.stretch d i = i.
Proof. unfold np.stretch. case_decide; lia. Qed.

Lemma forallb_agree {A} (f g : A → bool) (l : list A) :
  (∀ a, In a l → f a = g a) → forallb f l = forallb g l.
Proof.
  induction l as [|a l IH]; intros Hfg; [done|]. simpl.
  rewrite (Hfg a) by (by left). rewrite IH; [done|].
  intros b Hb. apply Hfg. by right.
Qed.

(** ** Rows *)

Lemma lookup_row {A} (x : np.array2 A) (i k : nat) :
  (k < np.ncols x)%nat → np.row x i !! k = np.items x !! (i * np.ncols x + k)%nat.
Proof.
  intros Hk. unfold np.row. by rewrite lookup_take_lt, lookup_drop by done.
Qed.

Lemma length_row {A} (x : np.array2 A) (i : nat) :
  well_shaped x → (i < np.nrows x)%nat → length (np.row x i) = np.ncols x.
Proof.
  unfold well_shaped, np.row. intros Hx Hi.
  rewrite length_take, length_drop, Hx. nia.
Qed.

Lemma rows_equal (x1 x2 : np.array2 Z) (i j : nat) :
  well_shaped x1 → well_shaped x2 → np.ncols x1 = np.ncols x2 →
  (i < np.nrows x1)%nat → (j < np.nrows x2)%nat →
  forallb (λ k, bool_decide (np.items x1 !!! (i * np.ncols x1 + k)%nat
                             = np.items x2 !!! (j * np.ncols x2 + k)%nat))
    (seq 0 (np.ncols x1))
  = bool_decide (np.row x1 i = np.row x2 j).
Proof.
  intros Hx1 Hx2 Hn Hi Hj. apply Bool.eq_iff_eq_true.
  rewrite forallb_forall, bool_decide_eq_true.
  assert (∀ k, (k < np.ncols x1)%nat →
            np.row x1 i !! k = Some (np.items x1 !!! (i * np.ncols x1 + k)%nat)
            ∧ np.row x2 j !! k = Some (np.items x2 !!! (j * np.ncols x2 + k)%nat))
    as Hrows.
  { intros k Hk. rewrite !lookup_row by lia. split.
    - apply list_lookup_lookup_total_lt. rewrite Hx1. nia.
    - apply list_lookup_lookup_total_lt. rewrite Hx2. nia. }
  split.
  - intros Hall. apply list_eq_same_length with (np.ncols x1);
      [rewrite Hn; by apply length_row|by apply length_row|].
    intros k a b Hk Ha Hb.
    destruct (Hrows k Hk) as [Ha' Hb'].
    specialize (Hall k ltac:(apply in_seq; lia)).
    apply bool_decide_eq_true in Hall. congruence.
  - intros Heq k Hk. apply in_seq in Hk.
    destruct (Hrows k ltac:(lia)) as [Ha' Hb'].
    apply bool_decide_eq_true. rewrite Heq in Ha'. congruence.
Qed.

(** X29 ([intersect_2d]): for two arrays of the same number of columns the
    result has one row for each row of [x1] and one column for each row of
    [x2], and the entry at [i], [j] is [True] exactly when row [i] of [x1]
    and row [j] of [x2] are equal; for different numbers of columns the
    call raises [ValueError]. *)
Theorem intersect_2d_matches_rows (x1 x2 : np.array2 Z) :
  well_shaped x1 → well_shaped x2 →
  if decide (np.ncols x1 = np.ncols x2)
  then ∃ res,
         intersect_2d x1 x2 = Return res
         ∧ np.nrows res = np.nrows x1 ∧ np.ncols res = np.nrows x2
         ∧ well_shaped res
         ∧ ∀ i j, (i < np.nrows x1)%nat → (j < np.nrows x2)%nat →
             np.at2 res i j = bool_decide (np.row x1 i = np.row x2 j)
  else intersect_2d x1 x2 = Throw (Builtin ValueError).
Proof.
  intros Hx1 Hx2. unfold intersect_2d.
  case_decide as Hn; [|by rewrite decide_True].
  rewrite decide_False by (intros ?; done).
  unfold np.equal, np.expand_last, np.expand_first. cbn [np.dims np.T np.nrows np.ncols].
  assert (∀ a, np.broadcast a 1 = Some a) as Hb1.
  { intros a. unfold np.broadcast. repeat case_decide; (done || by f_equal). }
  assert (∀ a, np.broadcast 1 a = Some a) as Hb2.
  { intros a. unfold np.broadcast. repeat case_decide; (done || by f_equal). }
  assert (np.broadcast (np.ncols x1) (np.ncols x2) = Some (np.ncols x1)) as Hb3.
  { unfold np.broadcast. by rewrite decide_True. }
  rewrite Hb1, Hb2, Hb3. cbn [mbind outcome_bind].
  unfold np.all_axis1. cbn [np.dims].
  eexists. split; [reflexivity|]. cbn [np.nrows np.ncols].
  split_and!; [done|done|apply length_grid2|].
  intros i j Hi Hj. unfold np.at2 at 1. cbn [np.items np.ncols].
  rewrite (list_lookup_total_correct _ _ _ (lookup_grid2 _ _ _ i j Hi Hj)).
  rewrite <-(rows_equal x1 x2 i j Hx1 Hx2 Hn Hi Hj).
  apply forallb_agree. intros k Hk. apply in_seq in Hk.
  unfold np.at3 at 1. cbn [np.dims np.items3 fst snd].
  assert (k < np.ncols x1)%nat as Hk' by lia.
  rewrite (list_lookup_total_correct (A:=bool) _ _ _
             (lookup_grid3 _ _ _ _ i k j Hi Hk' Hj)).
  assert (k < np.ncols x2)%nat as Hk2 by lia.
  unfold np.at3. cbn [np.dims np.items3 np.items fst snd].
  rewrite (stretch_in_range (np.nrows x1) i), (stretch_in_range (np.ncols x1) k),
    (stretch_in_range (np.nrows x2) j), (stretch_in_range (np.ncols x2) k) by lia.
  assert (np.stretch 1 j = 0%nat) as -> by done.
  assert (np.stretch 1 i = 0%nat) as -> by done.
  replace ((i * np.ncols x1 + k) * 1 + 0)%nat with (i * np.ncols x1 + k)%nat by lia.
  replace ((0 * np.ncols x2 + k) * np.nrows x2 + j)%nat
    with (k * np.nrows x2 + j)%nat by lia.
  unfold np.T. cbn [np.items].
  rewrite (list_lookup_total_correct (A:=Z) _ _ _
             (@lookup_grid2 Z (λ j i, np.at2 x2 i j) _ _ k j Hk2 Hj)).
  done.
Qed.

Lemma intersect_2d_matches_rows_witness :
  ∃ res,
    intersect_2d (np.Array2 2 2 [1; 2; 3; 4])%Z (np.Array2 3 2 [3; 4; 1; 2; 1; 5])%Z
    = Return res
    ∧ np.items res = [false; true; false; true; false; false].
Proof.
  pose proof (intersect_2d_matches_rows
                (np.Array2 2 2 [1; 2; 3; 4])%Z
                (np.Array2 3 2 [3; 4; 1; 2; 1; 5])%Z eq_refl eq_refl) as H.
  rewrite decide_True in H by reflexivity.
  destruct H as (res & Hres & _). exists res. split; [exact Hres|].
  vm_compute in Hres. by injection Hres as <-.
Defined.

(** ** Pairs of different indices *)

Lemma bind_bind {A B C} (f : A → list B) (g : B → list C) (l : list A) :
  (l ≫= f) ≫= g = l ≫= (λ a, f a ≫= g).
Proof.
  induction l as [|a l IH]; [done|]. by rewrite !bind_cons, bind_app, IH.
Qed.

Lemma zip_pairs (found : list (Z * Z)) :
  concat (zip_with (λ a b, [a; b]) (map fst found) (map snd found))
  = found ≫= (λ p, [p.1; p.2]).
Proof.
  induction found as [|p found IH]; [done|]. simpl. by rewrite IH.
Qed.

Lemma length_others {A} (g : nat → A) (i s m : nat) :
  length (j ← seq s m; if decide (i ≠ j) then [g j] else [])
  = if decide (s ≤ i < s + m)%nat then (m - 1)%nat else m.
Proof.
  revert s. induction m as [|m IH]; intros s.
  { simpl. by case_decide. }
  cbn [seq]. rewrite bind_cons, length_app, IH.
  repeat case_decide; simpl; lia.
Qed.

Lemma length_bind_rows {A} (g : nat → list A) (w s m : nat) :
  (∀ i, (s ≤ i < s + m)%nat → length (g i) = w) →
  length (seq s m ≫= g) = (m * w)%nat.
Proof.
  revert s. induction m as [|m IH]; intros s Hg; [done|].
  cbn [seq]. rewrite bind_cons, length_app, Hg by lia.
  rewrite IH by (intros; apply Hg; lia). lia.
Qed.

Lemma at2_off_diagonal (n i j : nat) :
  (i < n)%nat → (j < n)%nat →
  np.at2 (np.rsub 1 (np.diag (replicate n 1%Z))) i j
  = if decide (i = j) then 0%Z else 1%Z.
Proof.
  intros Hi Hj. unfold np.at2, np.rsub, np.diag.
  cbn [np.items np.ncols np.nrows]. rewrite length_replicate.
  apply list_lookup_total_correct.
  change (((λ v, np.int32 (1 - v))
             <$> (i ← seq 0 n; j ← seq 0 n;
                  [if decide (i = j) then replicate n 1%Z !!! i else 0%Z]))
            !! (i * n + j)%nat
          = Some (if decide (i = j) then 0%Z else 1%Z)).
  rewrite list_lookup_fmap, lookup_grid2 by done. simpl. f_equal.
  case_decide; [|done]. by rewrite lookup_total_replicate_2.
Qed.

(** X30 ([nonintersecting_2d_inds]): for [x >= 0] the result is the array
    of the [x * (x - 1)] pairs [(a, b)] with [a] and [b] below [x] and
    [a != b], one pair in each row, ordered by [a] and then by [b]; a
    negative [x] raises [ValueError]. *)
Theorem nonintersecting_2d_inds_pairs (x : Z) :
  if decide (0 ≤ x)%Z
  then ∃ relations,
         nonintersecting_2d_inds x = Return relations
         ∧ np.nrows relations = (Z.to_nat x * (Z.to_nat x - 1))%nat
         ∧ np.ncols relations = 2%nat
         ∧ np.items relations
           = (a ← seq 0 (Z.to_nat x); b ← seq 0 (Z.to_nat x);
              if decide (a ≠ b) then [Z.of_nat a; Z.of_nat b] else [])
  else nonintersecting_2d_inds x = Throw (Builtin ValueError).
Proof.
  unfold nonintersecting_2d_inds, np.ones.
  case_decide as Hx; [|by rewrite decide_True by lia].
  rewrite decide_False by lia. cbn [mbind outcome_bind].
  set (n := Z.to_nat x).
  assert (np.where_ (np.rsub 1 (np.diag (replicate n 1%Z)))
          = (map fst (i ← seq 0 n; j ← seq 0 n;
                      if decide (i ≠ j) then [(Z.of_nat i, Z.of_nat j)] else []),
             map snd (i ← seq 0 n; j ← seq 0 n;
                      if decide (i ≠ j) then [(Z.of_nat i, Z.of_nat j)] else [])))
    as ->.
  { unfold np.where_.
    assert (np.nrows (np.rsub 1 (np.diag (replicate n 1%Z))) = n) as ->
      by apply length_replicate.
    assert (np.ncols (np.rsub 1 (np.diag (replicate n 1%Z))) = n) as ->
      by apply length_replicate.
    assert ((i ← seq 0 n; j ← seq 0 n;
             if decide (np.at2 (np.rsub 1 (np.diag (replicate n 1%Z))) i j ≠ 0%Z)
             then [(Z.of_nat i, Z.of_nat j)] else [])
            = (i ← seq 0 n; j ← seq 0 n;
               if decide (i ≠ j) then [(Z.of_nat i, Z.of_nat j)] else [])) as ->;
      [|done].
    apply Forall_bind_ext, Forall_forall. intros i Hi.
    apply elem_of_seq in Hi.
    apply Forall_bind_ext, Forall_forall. intros j Hj.
    apply elem_of_seq in Hj.
    rewrite at2_off_diagonal by lia. by repeat case_decide. }
  unfold np.column_stack. cbn [fst snd].
  rewrite decide_True by (by rewrite !length_map).
  eexists. split; [reflexivity|]. cbn [np.nrows np.ncols np.items].
  split_and!; [|done|].
  - rewrite length_map.
    rewrite (length_bind_rows _ (n - 1)); [done|].
    intros i Hi. rewrite length_others. by rewrite decide_True by lia.
  - rewrite zip_pairs, bind_bind. apply list_bind_ext; [|done]. intros i.
    rewrite bind_bind. apply list_bind_ext; [|done]. intros j.
    by case_decide.
Qed.

End array_facts.
